(** * Injury-risk screening: contiguous risk-interval extraction

    A shallow embedding of the rule-based screening code of
    [risk_analysis_package/risk_identification]:

    - the inline run-grouping loop that every risk routine repeats over the
      indices returned by [np.where] ([muscle_forces_activations_risk.py],
      [posture_alignment_risk.py]);
    - the per-period report (start time, end time, duration, peak value);
    - the overall risk level of [summarize_injury_risks] and of the summary
      section of [extract_motion_risk];
    - [compute_velocity_and_acceleration] of [kinematic_data_risk.py].

    Samples and times are IEEE doubles in the source.  Every finite double
    is a rational number, and comparison, [max], [min], [abs] and negation
    are exact on doubles, so finite samples are modelled as [Q]; where the
    source depends on NaN (the hamstring/quadriceps ratio) the sample type
    is [fval], which adds NaN.  Rounding of [+], [-], [*] and [/] is not
    modelled. *)

From Stdlib Require Import String.
From Stdlib Require Import List Bool Arith Lia ZArith QArith Qabs.
From Stdlib Require Import Sorting.Sorted.
From Stdlib Require Import Ascii NArith DecimalString DecimalN.
Import ListNotations.

Close Scope Q_scope.

(** ** Outcomes of a Python call *)

Inductive exn : Type :=
| IndexError
| ValueError.

Inductive result (A : Type) : Type :=
| Ok (a : A)
| Raise (e : exn).

Arguments Ok {A} a.
Arguments Raise {A} e.

Definition bind {A B : Type} (r : result A) (k : A -> result B) : result B :=
  match r with
  | Ok a => k a
  | Raise e => Raise e
  end.

Notation "x <- r ;; k" := (bind r (fun x => k))
  (at level 61, r at next level, right associativity).

(** ** Index selection and the run-grouping loop *)

Module Runs.

(** [np.where(mask)[0]]: the indices at which [mask] holds, ascending. *)
Fixpoint np_where_from (i : nat) (mask : list bool) : list nat :=
  match mask with
  | [] => []
  | b :: mask' =>
      if b then i :: np_where_from (S i) mask' else np_where_from (S i) mask'
  end.

Definition np_where (mask : list bool) : list nat := np_where_from 0 mask.

(** The body of
    [for i in range(1, len(risky_indices))]: [prev] is [risky_indices[i-1]],
    the state is [(risk_periods, current_period)]; after the loop the last
    [current_period] is appended. *)
Fixpoint group_loop (rest : list nat) (prev : nat)
         (current_period : list nat) (risk_periods : list (list nat))
  : list (list nat) :=
  match rest with
  | [] => risk_periods ++ [current_period]
  | r :: rest' =>
      if r =? prev + 1
      then group_loop rest' r (current_period ++ [r]) risk_periods
      else group_loop rest' r [r] (risk_periods ++ [current_period])
  end.

(** The guarded block [if len(risky_indices) > 0: ...]; with no risky index
    no period is built. *)
Definition group_consecutive (risky_indices : list nat) : list (list nat) :=
  match risky_indices with
  | [] => []
  | r0 :: rest => group_loop rest r0 [r0] []
  end.

(** [period[0]] and [period[-1]]; periods built by the loop are never
    empty, the default is not reached. *)
Definition first_index (period : list nat) : nat := hd 0 period.
Definition last_index (period : list nat) : nat := last period 0.

(** The index range [period[0] .. period[-1]] a reported interval spans. *)
Definition in_range (period : list nat) (i : nat) : Prop :=
  first_index period <= i <= last_index period.

(** A run: non-empty, each index the successor of the one before. *)
Definition is_run (period : list nat) : Prop :=
  period <> [] /\ period = seq (first_index period) (length period).

(** The loop without its accumulator, for the proofs. *)
Fixpoint chunk (prev : nat) (cur : list nat) (rest : list nat)
  : list (list nat) :=
  match rest with
  | [] => [cur]
  | r :: rest' =>
      if r =? prev + 1
      then chunk r (cur ++ [r]) rest'
      else cur :: chunk r [r] rest'
  end.

(** Adjacent periods leave at least one index between them. *)
Fixpoint separated (ps : list (list nat)) : Prop :=
  match ps with
  | p :: ((q :: _) as ps') =>
      last_index p + 1 < first_index q /\ separated ps'
  | _ => True
  end.

End Runs.

(** ** Samples *)

Module Sample.

(** A double as the ratio check sees it: NaN, the infinities, or a finite
    value. *)
Inductive fval : Type :=
| NaN
| NegInf
| PosInf
| Fin (q : Q).

Definition Qltb (x y : Q) : bool := negb (Qle_bool y x).

Definition qmax (a b : Q) : Q := if Qle_bool a b then b else a.
Definition qmin (a b : Q) : Q := if Qle_bool a b then a else b.

(** [np.max(a)] and [np.min(a)]: a zero-size array raises [ValueError]. *)
Definition np_max (a : list Q) : result Q :=
  match a with
  | [] => Raise ValueError
  | v :: a' => Ok (fold_left qmax a' v)
  end.

Definition np_min (a : list Q) : result Q :=
  match a with
  | [] => Raise ValueError
  | v :: a' => Ok (fold_left qmin a' v)
  end.

(** [np.abs(a)], elementwise. *)
Definition np_abs (a : list Q) : list Q := map Qabs a.

(** [series < threshold] on one entry: NaN compares false. *)
Definition flt (a : fval) (t : Q) : bool :=
  match a with
  | Fin q => Qltb q t
  | NegInf => true
  | PosInf | NaN => false
  end.

(** [a / b] on doubles: NaN propagates, a finite value over zero is an
    infinity (or NaN for 0/0), no exception is raised. *)
Definition fdiv (a b : fval) : fval :=
  match a, b with
  | NaN, _ | _, NaN => NaN
  | Fin x, Fin y =>
      if Qeq_bool y 0%Q then
        if Qeq_bool x 0%Q then NaN
        else if Qltb x 0%Q then NegInf else PosInf
      else Fin (x / y)%Q
  | Fin _, (PosInf | NegInf) => Fin 0%Q
  | (PosInf | NegInf), (PosInf | NegInf) => NaN
  | PosInf, Fin y => if Qltb y 0%Q then NegInf else PosInf
  | NegInf, Fin y => if Qltb y 0%Q then PosInf else NegInf
  end.

(** The divisor of a division by zero. *)
Definition is_zero (b : fval) : bool :=
  match b with
  | Fin y => Qeq_bool y 0%Q
  | _ => false
  end.

(** [series.replace(0, np.nan)]. *)
Definition replace_zero_nan (s : list fval) : list fval :=
  map (fun v => if is_zero v then NaN else v) s.

(** Elementwise [ham / quad] of two columns of one table. *)
Fixpoint series_div (a b : list fval) : list fval :=
  match a, b with
  | x :: a', y :: b' => fdiv x y :: series_div a' b'
  | _, _ => []
  end.

(** [min] of two entries for pandas' [Series.min()], which skips NaN. *)
Definition fmin (a b : fval) : fval :=
  match a, b with
  | NaN, _ => b
  | _, NaN => a
  | NegInf, _ | _, NegInf => NegInf
  | PosInf, _ => b
  | _, PosInf => a
  | Fin x, Fin y => Fin (qmin x y)
  end.

(** [Series.min()]: NaN for an empty or all-NaN selection. *)
Definition series_min (s : list fval) : fval := fold_left fmin s NaN.

End Sample.

(** ** The per-period report *)

Module Report.
Import Runs Sample.

(** What each appended dictionary carries: ['Time Period'] (start and end),
    ['Duration'] and the value of ['Measured Value'], before formatting. *)
Record Interval (P : Type) : Type := mkInterval {
  start_time : Q;
  end_time : Q;
  duration : Q;
  peak_value : P
}.

Arguments mkInterval {P} _ _ _ _.
Arguments start_time {P} _.
Arguments end_time {P} _.
Arguments duration {P} _.
Arguments peak_value {P} _.

(** [a[i]] for a non-negative [i]: out of range raises [IndexError]. *)
Definition index {X : Type} (a : list X) (i : nat) : result X :=
  match nth_error a i with
  | Some x => Ok x
  | None => Raise IndexError
  end.

(** [a[period]], indexing with a list of positions. *)
Fixpoint take {X : Type} (a : list X) (period : list nat) : result (list X) :=
  match period with
  | [] => Ok []
  | i :: period' =>
      x <- index a i ;;
      xs <- take a period' ;;
      Ok (x :: xs)
  end.

Section Extractor.
Variables A P : Type.
(** The threshold test of the rule and its peak selection. *)
Variable pred : A -> bool.
Variable peak_of : list A -> result P.

Definition risk_mask (values : list A) : list bool := map pred values.

Definition risk_periods (values : list A) : list (list nat) :=
  group_consecutive (np_where (risk_mask values)).

(** One pass of [for period in risk_periods]. *)
Definition report_period (time : list Q) (values : list A)
           (period : list nat) : result (Interval P) :=
  start <- index time (first_index period) ;;
  stop <- index time (last_index period) ;;
  selected <- take values period ;;
  peak <- peak_of selected ;;
  Ok (mkInterval start stop (stop - start)%Q peak).

Fixpoint report_periods (time : list Q) (values : list A)
         (periods : list (list nat)) : result (list (Interval P)) :=
  match periods with
  | [] => Ok []
  | period :: periods' =>
      iv <- report_period time values period ;;
      ivs <- report_periods time values periods' ;;
      Ok (iv :: ivs)
  end.

(** The whole inline block: mask, [np.where], grouping, report. *)
Definition extract_intervals (time : list Q) (values : list A)
  : result (list (Interval P)) :=
  report_periods time values (risk_periods values).
End Extractor.

Arguments risk_mask {A} pred values.
Arguments risk_periods {A} pred values.
Arguments report_period {A P} peak_of time values period.
Arguments report_periods {A P} peak_of time values periods.
Arguments extract_intervals {A P} pred peak_of time values.

End Report.

(** ** [posture_alignment_risk.py] *)

Module Posture.
Import Runs Sample Report.
Local Open Scope Q_scope.

Definition lean_threshold : Q := 15.
Definition pronation_threshold : Q := 10.
Definition tilt_threshold : Q := 15.
Definition valgus_threshold : Q := 10.
Definition varus_threshold : Q := -8.

(** The three kinds of threshold test: [np.abs(v) > t], [v > t], [v < t]. *)
Definition abs_gt (t v : Q) : bool := Qltb t (Qabs v).
Definition gt (t v : Q) : bool := Qltb t v.
Definition lt (t v : Q) : bool := Qltb v t.

(** [np.max(np.abs(angle[period]))]. *)
Definition max_abs (selected : list Q) : result Q := np_max (np_abs selected).

(** Section 1, trunk lean: [np.where(np.abs(trunk_lean) > lean_threshold)]
    and [max_lean]. *)
Definition trunk_lean_risks (time trunk_lean : list Q)
  : result (list (Interval Q)) :=
  extract_intervals (abs_gt lean_threshold) max_abs time trunk_lean.

(** Section 2, foot pronation, one side. *)
Definition foot_pronation_risks (time foot_angle : list Q)
  : result (list (Interval Q)) :=
  extract_intervals (abs_gt pronation_threshold) max_abs time foot_angle.

(** Section 3, pelvic tilt. *)
Definition pelvic_tilt_risks (time pelvic_tilt : list Q)
  : result (list (Interval Q)) :=
  extract_intervals (abs_gt tilt_threshold) max_abs time pelvic_tilt.

(** Section 4, one knee: [knee_angle > valgus_threshold] with [np.max],
    [knee_angle < varus_threshold] with [np.min]. *)
Definition knee_valgus_risks (time knee_angle : list Q)
  : result (list (Interval Q)) :=
  extract_intervals (gt valgus_threshold) np_max time knee_angle.

Definition knee_varus_risks (time knee_angle : list Q)
  : result (list (Interval Q)) :=
  extract_intervals (lt varus_threshold) np_min time knee_angle.

(** An entry of [results['risks']]: a reported period, whose ['Duration']
    text reads back as [entry_duration], or the record an [except] clause
    leaves, which has an ['Error'] key and no ['Duration']. *)
Inductive entry : Type :=
| RiskEntry (risk_type : String.string) (entry_duration : Q)
| ErrorEntry (risk_type : String.string) (error : String.string).

(** ['Error' not in risk]. *)
Definition is_valid (e : entry) : bool :=
  match e with
  | RiskEntry _ _ => true
  | ErrorEntry _ _ => false
  end.

(** [float(risk['Duration'].replace('s', ''))] for the entries that have a
    ['Duration']. *)
Definition durations (risks : list entry) : list Q :=
  flat_map (fun e => match e with
                     | RiskEntry _ d => [d]
                     | ErrorEntry _ _ => []
                     end) risks.

(** Python's [sum]: from 0, left to right. *)
Definition py_sum (xs : list Q) : Q := fold_left Qplus xs 0.

(** The [if]/[elif] chain of the summary section. *)
Definition overall_risk (count : nat) (total_duration : Q) : String.string :=
  if (5 <? count)%nat || Qltb 2 total_duration then "High"%string
  else if (2 <? count)%nat || Qltb 1 total_duration then "Moderate"%string
  else "Low"%string.

(** ["overall_risk_level"] and ["risk_count"] of [results['summary']]. *)
Definition summary (risks : list entry) : String.string * nat :=
  let valid_risks := filter is_valid risks in
  match valid_risks with
  | [] => ("Low"%string, 0%nat)
  | _ :: _ =>
      let total_duration := py_sum (durations valid_risks) in
      (overall_risk (length valid_risks) total_duration, length valid_risks)
  end.

End Posture.

(** ** [muscle_forces_activations_risk.py] *)

Module Muscle.
Import Runs Sample Report.
Local Open Scope Q_scope.

Definition hq_threshold : Q := 6 # 10.

(** [quad_activation.replace(0, np.nan)] and then
    [ham_activation / quad_activation]; the arguments are the row means of
    the hamstring and quadriceps columns. *)
Definition hq_ratio (ham_activation quad_activation : list fval)
  : list fval :=
  series_div ham_activation (replace_zero_nan quad_activation).

(** Check 1: [np.where(hq_ratio < hq_threshold)], grouping, and
    [hq_ratio.iloc[period].min()]; [time_array] is the index of
    [forces_df]. *)
Definition hq_risks (time_array : list Q)
           (ham_activation quad_activation : list fval)
  : result (list (Interval fval)) :=
  extract_intervals (fun r => flt r hq_threshold)
                    (fun selected => Ok (series_min selected))
                    time_array (hq_ratio ham_activation quad_activation).

(** A dictionary of [risk_metrics]; [duration_s] is what
    [float(risk['Duration'].replace('s', ''))] reads. *)
Record risk : Type := mkRisk {
  risk_type : String.string;
  duration_s : Q
}.

Definition py_sum (xs : list Q) : Q := fold_left Qplus xs 0.

(** The [if]/[elif] chain of [summarize_injury_risks]. *)
Definition overall_risk (count : nat) (total_duration : Q) : String.string :=
  if (5 <? count)%nat || Qltb 2 total_duration then "High"%string
  else if (2 <? count)%nat || Qltb 1 total_duration then "Moderate"%string
  else "Low"%string.

(** ["overall_risk_level"] and ["risk_count"] of the returned summary. *)
Definition summarize_injury_risks (risk_metrics : list risk)
  : String.string * nat :=
  match risk_metrics with
  | [] => ("Low"%string, 0%nat)
  | _ :: _ =>
      let total_duration := py_sum (map duration_s risk_metrics) in
      (overall_risk (length risk_metrics) total_duration,
       length risk_metrics)
  end.

End Muscle.

(** ** [kinematic_data_risk.py] *)

Module Kinematic.
Import Sample Report.
Local Open Scope Q_scope.

(** [np.diff(x)]. *)
Fixpoint np_diff (x : list Q) : list Q :=
  match x with
  | a :: ((b :: _) as x') => (b - a) :: np_diff x'
  | _ => []
  end.

(** Interior points of [np.gradient] for a constant spacing [dx]. *)
Fixpoint interior_uniform (f : list Q) (dx : Q) : list Q :=
  match f with
  | f0 :: ((_ :: f2 :: _) as f') =>
      ((f2 - f0) / (2 * dx)) :: interior_uniform f' dx
  | _ => []
  end.

(** Interior points of [np.gradient] for the spacings [d = np.diff(x)]. *)
Fixpoint interior_nonuniform (f d : list Q) : list Q :=
  match f, d with
  | f0 :: ((f1 :: f2 :: _) as f'), dx1 :: ((dx2 :: _) as d') =>
      let a := - dx2 / (dx1 * (dx1 + dx2)) in
      let b := (dx2 - dx1) / (dx1 * dx2) in
      let c := dx1 / (dx2 * (dx1 + dx2)) in
      (a * f0 + b * f1 + c * f2) :: interior_nonuniform f' d'
  | _, _ => []
  end.

(** numpy's [np.gradient(f, x)] for one-dimensional [f] and coordinates
    [x], [edge_order=1]: [ValueError] when the lengths differ, [IndexError]
    from [diffx[0]] when [x] has fewer than two entries; otherwise one-sided
    differences at both ends and central differences inside.  A zero
    spacing gives infinities or NaN on doubles without raising; here such a
    quotient is [0]. *)
Definition np_gradient (f x : list Q) : result (list Q) :=
  if negb (length x =? length f)%nat then Raise ValueError
  else
    match np_diff x, f with
    | [], _ => Raise IndexError
    | (d0 :: _) as d, f0 :: f1 :: _ =>
        let uniform := forallb (Qeq_bool d0) d in
        let inner := if uniform then interior_uniform f d0
                     else interior_nonuniform f d in
        let first := (f1 - f0) / d0 in
        let final := (last f 0 - last (removelast f) 0) / last d d0 in
        Ok (first :: inner ++ [final])
    | _ :: _, _ => Raise ValueError
    end.

(** [compute_velocity_and_acceleration(angles, time, min_data_points)]. *)
Definition compute_velocity_and_acceleration
           (angles time : list Q) (min_data_points : nat)
  : result (list Q * list Q) :=
  if (length angles <? min_data_points)%nat then Raise ValueError
  else
    velocities <- np_gradient angles time ;;
    accelerations <- np_gradient velocities time ;;
    Ok (velocities, accelerations).

Definition default_min_data_points : nat := 3.

(** [peak_value = np.max(np.abs(measure_values))], taken over the whole
    series, and the indices [np.where(np.abs(measure_values) > threshold)]. *)
Definition peak_value (measure_values : list Q) : result Q :=
  np_max (np_abs measure_values).

Definition risky_indices (threshold : Q) (measure_values : list Q)
  : list nat :=
  Runs.np_where (map (fun v => Qltb threshold (Qabs v)) measure_values).

End Kinematic.

(** ** The claimed classification, as the specification words it *)

Module Spec.
Import Sample.

Inductive level : Type := High | Moderate | Low.

Definition level_name (l : level) : String.string :=
  match l with
  | High => "High"
  | Moderate => "Moderate"
  | Low => "Low"
  end.

(** "High" when count > 5 or duration > 2.0 s, otherwise "Moderate" when
    count > 2 or duration > 1.0 s, otherwise "Low". *)
Definition risk_level (count : nat) (duration : Q) : level :=
  if Nat.ltb 5 count then High
  else if Qltb 2 duration then High
  else if Nat.ltb 2 count then Moderate
  else if Qltb 1 duration then Moderate
  else Low.


(** The posture entry that carries the same type and duration. *)
Definition as_entry (r : Muscle.risk) : Posture.entry :=
  Posture.RiskEntry (Muscle.risk_type r) (Muscle.duration_s r).

End Spec.

(** ** What a reported peak is, relative to the samples of its period *)

Module Peak.
Local Open Scope Q_scope.

(** [pk] is a sample of the period and no sample of the period exceeds
    it. *)
Definition max_signed (values : list Q) (period : list nat) (pk : Q) : Prop :=
  (exists j, In j period /\ nth_error values j = Some pk)
  /\ (forall j v, In j period -> nth_error values j = Some v -> v <= pk).

(** [pk] is a sample of the period and no sample of the period is below
    it. *)
Definition min_signed (values : list Q) (period : list nat) (pk : Q) : Prop :=
  (exists j, In j period /\ nth_error values j = Some pk)
  /\ (forall j v, In j period -> nth_error values j = Some v -> pk <= v).

(** [pk] is the largest absolute value among the samples of the period. *)
Definition max_magnitude (values : list Q) (period : list nat) (pk : Q)
  : Prop :=
  (exists j v, In j period /\ nth_error values j = Some v /\ pk = Qabs v)
  /\ (forall j v, In j period -> nth_error values j = Some v ->
                  Qabs v <= pk).

(** [pk] is, sign included, a sample of largest absolute value in the
    period. *)
Definition max_magnitude_signed (values : list Q) (period : list nat)
           (pk : Q) : Prop :=
  exists j v, In j period /\ nth_error values j = Some v /\ pk == v
              /\ (forall k w, In k period -> nth_error values k = Some w ->
                              Qabs w <= Qabs v).

End Peak.

(** ** The other checks of [calculate_injury_risks] *)

Module MuscleChecks.
Import Runs Sample Report.
Local Open Scope Q_scope.

(** [series > threshold] on one entry: NaN compares false. *)
Definition fgt (a : fval) (t : Q) : bool :=
  match a with
  | Fin q => Qltb t q
  | PosInf => true
  | NegInf | NaN => false
  end.

(** [max] of two entries for pandas' [Series.max()], which skips NaN. *)
Definition fmax (a b : fval) : fval :=
  match a, b with
  | NaN, _ => b
  | _, NaN => a
  | PosInf, _ | _, PosInf => PosInf
  | NegInf, _ => b
  | _, NegInf => a
  | Fin x, Fin y => Fin (qmax x y)
  end.

(** [Series.max()]: NaN for an empty or all-NaN selection. *)
Definition series_max (s : list fval) : fval := fold_left fmax s NaN.

(** Check 2: [gastroc_forces > 3 * body_weight], grouping, and
    [gastroc_forces.iloc[period].max()]; the argument is the row mean of
    the gastrocnemius force columns. *)
Definition gastroc_risks (time_array : list Q) (gastroc_forces : list fval)
           (body_weight : Q) : result (list (Interval fval)) :=
  extract_intervals (fun v => fgt v (3 * body_weight))
                    (fun selected => Ok (series_max selected))
                    time_array gastroc_forces.

(** [a[mask]] for a boolean array [mask] as long as [a]. *)
Fixpoint bool_select (a : list nat) (mask : list bool) : list nat :=
  match a, mask with
  | i :: a', b :: mask' =>
      if b then i :: bool_select a' mask' else bool_select a' mask'
  | _, _ => []
  end.

(** The block shared by checks 3 and 4: the series is read at the indices
    of a window ([series.iloc[window]], which raises [IndexError] out of
    bounds), tested there, the window indices that pass are grouped, and
    each period is reported from the whole series. *)
Definition windowed_intervals (pred : fval -> bool)
           (peak_of : list fval -> result fval) (window : list nat)
           (time_array : list Q) (series : list fval)
  : result (list (Interval fval)) :=
  selected <- take series window ;;
  let risky_indices := bool_select window (map pred selected) in
  report_periods peak_of time_array series (group_consecutive risky_indices).

Definition glute_threshold : Q := 3 # 10.

(** Check 3: the first half of the motion,
    [np.arange(len(time_array) // 2)], activation below 0.3, minimum. *)
Definition stance_indices (time_array : list Q) : list nat :=
  seq 0 (length time_array / 2).

Definition glute_risks (time_array : list Q) (glute_activation : list fval)
  : result (list (Interval fval)) :=
  windowed_intervals (fun v => flt v glute_threshold)
                     (fun selected => Ok (series_min selected))
                     (stance_indices time_array)
                     time_array glute_activation.

Definition rectus_threshold : Q := 5 # 10.

(** [int(len(time_array) * 0.75)]: the product is exact on doubles for
    every length below 2^51, and [int] truncates. *)
Definition late_swing_start (time_array : list Q) : nat :=
  (3 * length time_array) / 4.

(** [np.arange(late_swing_start, len(time_array))]. *)
Definition late_swing_indices (time_array : list Q) : list nat :=
  seq (late_swing_start time_array)
      (length time_array - late_swing_start time_array).

(** Check 4: the last quarter of the motion, activation above 0.5,
    maximum. *)
Definition rectus_risks (time_array : list Q) (rectus_activation : list fval)
  : result (list (Interval fval)) :=
  windowed_intervals (fun v => fgt v rectus_threshold)
                     (fun selected => Ok (series_max selected))
                     (late_swing_indices time_array)
                     time_array rectus_activation.

(** The ['Risk Type'] of each check. *)
Definition hq_type : String.string :=
  "ACL Injury Risk (Hamstring-Quadriceps Imbalance)".
Definition gastroc_type : String.string := "Achilles Tendon Overload Risk".
Definition glute_type : String.string := "Hip Instability / Knee Valgus Risk".
Definition rectus_type : String.string := "Hamstring Strain Risk".

(** The dictionaries a check appends, with their ['Risk Type']. *)
Definition tag (risk_type : String.string) (ivs : list (Interval fval))
  : list (String.string * Interval fval) :=
  map (fun iv => (risk_type, iv)) ivs.

(** One group of columns: [None] when no column of the table matches the
    muscle names, otherwise the row mean of the matching columns, on which
    the check runs. *)
Definition check_group {X : Type} (group : option X)
           (check : X -> result (list (Interval fval)))
  : result (list (Interval fval)) :=
  match group with
  | None => Ok []
  | Some series => check series
  end.

(** [calculate_injury_risks]: the four checks in order, each appending its
    dictionaries to [risk_metrics]; an exception of a check leaves the
    function.  [ham_quad] is present when both the hamstring and the
    quadriceps columns are ([if hamstrings and quads]). *)
Definition calculate_injury_risks (time_array : list Q)
           (ham_quad : option (list fval * list fval))
           (gastroc glute rectus : option (list fval)) (body_weight : Q)
  : result (list (String.string * Interval fval)) :=
  r1 <- check_group ham_quad
          (fun hq => Muscle.hq_risks time_array (fst hq) (snd hq)) ;;
  r2 <- check_group gastroc
          (fun forces => gastroc_risks time_array forces body_weight) ;;
  r3 <- check_group glute (glute_risks time_array) ;;
  r4 <- check_group rectus (rectus_risks time_array) ;;
  Ok (tag hq_type r1 ++ tag gastroc_type r2
      ++ tag glute_type r3 ++ tag rectus_type r4).

End MuscleChecks.

(** ** Counting risks by type, and ranking the overall level *)

Module Counting.
Local Open Scope string_scope.








(** The order of the three levels. *)
Definition level_rank (overall_risk : string) : nat :=
  if String.eqb overall_risk "High" then 2
  else if String.eqb overall_risk "Moderate" then 1
  else 0.

End Counting.

(** ** [check_kinematic_injury_risk] *)

Module KinematicCheck.
Import Sample Report Kinematic.
Local Open Scope string_scope.

(** An entry of the [criteria] dictionary, with its key. *)
Record criterion : Type := mkCriterion {
  risk_name : string;
  coordinate : string;
  measure : string;
  threshold : Q;
  condition : string;
  required_columns : list string
}.

Definition criteria : list criterion :=
  [ mkCriterion "Patellar Tendinopathy" "knee_angle_r" "velocity" 500
                ">" ["knee_angle_r"];
    mkCriterion "Lumbar Shear Stress" "pelvis_rotation" "acceleration" 200
                ">" ["pelvis_rotation"];
    mkCriterion "UCL Tear Risk" "shoulder_r_z" "velocity" 3000
                ">" ["shoulder_r_z"] ].

(** The motion file as the function reads it: the time column and the
    data columns by label. *)
Record storage : Type := mkStorage {
  sto_time : list Q;
  sto_columns : list (string * list Q)
}.

Definition available_columns (sto : storage) : list string :=
  map fst (sto_columns sto).

Fixpoint get_data_column (columns : list (string * list Q)) (label : string)
  : option (list Q) :=
  match columns with
  | [] => None
  | (l, data) :: rest =>
      if String.eqb l label then Some data else get_data_column rest label
  end.

(** [col not in available_columns], over [required_columns]. *)
Definition missing_cols (sto : storage) (c : criterion) : list string :=
  filter (fun col => negb (existsb (String.eqb col) (available_columns sto)))
         (required_columns c).

(** The dictionary appended to [detected_risks]. *)
Record risk_details : Type := mkRisk {
  risk_type : string;
  risk_coordinate : string;
  measured_value : Q;
  risk_threshold : Q;
  risky_times : list Q
}.

(** What can leave the [try] block: an exception of the computation, or a
    failed read of a column. *)
Inductive failure : Type :=
| Raised (e : exn)
| ColumnNotRead.

(** The body of the loop for a criterion whose columns are present, when
    no force file is given: derivatives, peak, the risk test and, at risk,
    the risky times. *)
Definition evaluate (sto : storage) (c : criterion)
  : failure + option risk_details :=
  match get_data_column (sto_columns sto) (coordinate c) with
  | None => inl ColumnNotRead
  | Some angles =>
      match compute_velocity_and_acceleration
              angles (sto_time sto) default_min_data_points with
      | Raise e => inl (Raised e)
      | Ok (velocities, accelerations) =>
          let measure_values :=
            if String.eqb (measure c) "velocity" then velocities
            else accelerations in
          match peak_value measure_values with
          | Raise e => inl (Raised e)
          | Ok peak =>
              let at_risk :=
                if String.eqb (condition c) ">" then Qltb (threshold c) peak
                else Qltb peak (threshold c) in
              if at_risk then
                match take (sto_time sto)
                           (risky_indices (threshold c) measure_values) with
                | Raise e => inl (Raised e)
                | Ok times =>
                    inr (Some (mkRisk (risk_name c) (coordinate c) peak
                                      (threshold c) times))
                end
              else inr None
          end
      end
  end.

(** The two kinds of message appended to ['warnings']:
    ["Missing columns for <risk_name>: <missing_cols>"] and
    ["Processing failed: <exception>"]. *)
Inductive warning : Type :=
| MissingColumns (risk : string) (missing : list string)
| ProcessingFailed (f : failure).

(** ['warnings'], ['detected_risks'] and ['error'] of the result. *)
Record results : Type := mkResults {
  warnings : list warning;
  detected_risks : list risk_details;
  error : option failure
}.

(** [for risk_name, params in criteria.items()] inside the [try]: a
    criterion with a missing column leaves a warning and is skipped; a
    failure ends the loop, keeps what was detected so far and is
    recorded. *)
Fixpoint run_criteria (sto : storage) (cs : list criterion)
         (warned : list warning) (detected : list risk_details) : results :=
  match cs with
  | [] => mkResults warned detected None
  | c :: cs' =>
      match missing_cols sto c with
      | (_ :: _) as missing =>
          run_criteria sto cs'
                       (warned ++ [MissingColumns (risk_name c) missing])
                       detected
      | [] =>
          match evaluate sto c with
          | inl f => mkResults (warned ++ [ProcessingFailed f]) detected
                               (Some f)
          | inr None => run_criteria sto cs' warned detected
          | inr (Some r) => run_criteria sto cs' warned (detected ++ [r])
          end
      end
  end.

Definition check_kinematic_injury_risk (sto : storage) : results :=
  run_criteria sto criteria [] [].

(** Every data column has one row per time stamp. *)
Definition well_formed (sto : storage) : Prop :=
  Forall (fun col => length (snd col) = length (sto_time sto))
         (sto_columns sto).

End KinematicCheck.

(** ** [joint_angle_risk.py] *)

Module JointAngle.
Import Sample Report MuscleChecks.
Local Open Scope string_scope.

(** [peaks[joint]]: the extreme angles and the times at which they occur;
    all four are NaN for a joint that could not be processed. *)
Record peak : Type := mkPeak {
  pk_max : fval;
  pk_min : fval;
  pk_max_time : fval;
  pk_min_time : fval
}.

Definition nan_peak : peak := mkPeak NaN NaN NaN NaN.

(** [np.argmax(a)] and [np.argmin(a)]: the first index of the extreme
    value; an empty array raises [ValueError].  The loop keeps the best
    index [bi] and value [bv] seen so far. *)
Fixpoint argmax_from (a : list Q) (i bi : nat) (bv : Q) : nat :=
  match a with
  | [] => bi
  | v :: a' =>
      if Qltb bv v then argmax_from a' (S i) i v
      else argmax_from a' (S i) bi bv
  end.

Definition np_argmax (a : list Q) : result nat :=
  match a with
  | [] => Raise ValueError
  | v :: a' => Ok (argmax_from a' 1 0 v)
  end.

Fixpoint argmin_from (a : list Q) (i bi : nat) (bv : Q) : nat :=
  match a with
  | [] => bi
  | v :: a' =>
      if Qltb v bv then argmin_from a' (S i) i v
      else argmin_from a' (S i) bi bv
  end.

Definition np_argmin (a : list Q) : result nat :=
  match a with
  | [] => Raise ValueError
  | v :: a' => Ok (argmin_from a' 1 0 v)
  end.

(** The body of the [try] of [get_joint_angles] for one joint whose column
    was read: maximum, minimum and the times of their first occurrence. *)
Definition compute_peak (time angle_data : list Q) : result peak :=
  vmax <- np_max angle_data ;;
  vmin <- np_min angle_data ;;
  imax <- np_argmax angle_data ;;
  tmax <- index time imax ;;
  imin <- np_argmin angle_data ;;
  tmin <- index time imin ;;
  Ok (mkPeak (Fin vmax) (Fin vmin) (Fin tmax) (Fin tmin)).

(** [peaks[joint]] as [get_joint_angles] leaves it: the [except] clause
    replaces a joint that cannot be read ([None]) or whose peak
    computation raises by NaN peaks. *)
Definition joint_peak (time : list Q) (column : option (list Q)) : peak :=
  match column with
  | None => nan_peak
  | Some angle_data =>
      match compute_peak time angle_data with
      | Ok p => p
      | Raise _ => nan_peak
      end
  end.

(** [abs(x)] and Python's [max(a, b)], which returns [b] only when
    [b > a]. *)
Definition fabs (a : fval) : fval :=
  match a with
  | Fin q => Fin (Qabs q)
  | NegInf | PosInf => PosInf
  | NaN => NaN
  end.

Definition fgt2 (a b : fval) : bool :=
  match a, b with
  | NaN, _ | _, NaN => false
  | PosInf, PosInf => false
  | PosInf, _ => true
  | _, PosInf => false
  | NegInf, _ => false
  | Fin _, NegInf => true
  | Fin x, Fin y => Qltb y x
  end.

Definition py_max (a b : fval) : fval := if fgt2 b a then b else a.

(** A value of the [risks] dictionary: ['type'], ['value'] and ['time']
    before formatting, ['threshold'] and the optional ['note']. *)
Record details : Type := mkDetails {
  d_type : string;
  d_value : fval;
  d_time : fval;
  d_threshold : string;
  d_note : option string
}.

(** [risks[key] = value] on a dictionary kept in insertion order. *)
Fixpoint dict_set {V : Type} (d : list (string * V)) (key : string) (v : V)
  : list (string * V) :=
  match d with
  | [] => [(key, v)]
  | (k, v') :: rest =>
      if String.eqb k key then (k, v) :: rest
      else (k, v') :: dict_set rest key v
  end.

(** [if cond: risks[key] = value]. *)
Definition assign_if {V : Type} (cond : bool) (key : string) (v : V)
           (d : list (string * V)) : list (string * V) :=
  if cond then dict_set d key v else d.

Fixpoint dict_lookup {V : Type} (d : list (string * V)) (key : string)
  : option V :=
  match d with
  | [] => None
  | (k, v) :: rest =>
      if String.eqb k key then Some v else dict_lookup rest key
  end.

Definition mem (key : string) (keys : list string) : bool :=
  existsb (String.eqb key) keys.

Section Degrees.
(** [np.rad2deg] on one value. *)
Variable rad2deg : fval -> fval.

Definition peak_deg (p : peak) : peak :=
  mkPeak (rad2deg (pk_max p)) (rad2deg (pk_min p))
         (pk_max_time p) (pk_min_time p).

(** [peaks_deg[joint]]: a missing key raises [KeyError]. *)
Definition peaks_deg (peaks : list (string * peak)) (joint : string)
  : string + peak :=
  match dict_lookup peaks joint with
  | Some p => inr (peak_deg p)
  | None => inl joint
  end.

Definition risk_dict : Type := list (string * details).

(** The knee checks for one side. *)
Definition knee_side (angle_joints : list string)
           (peaks : list (string * peak)) (side : string) (risks : risk_dict)
  : string + risk_dict :=
  let joint := "knee_angle_" ++ side in
  if mem joint angle_joints then
    match peaks_deg peaks joint with
    | inl k => inl k
    | inr p =>
        let risks1 :=
          assign_if (fgt (pk_max p) 10) (joint ++ "_valgus")
                    (mkDetails "ACL injury risk" (pk_max p) (pk_max_time p)
                               ">10°" None) risks in
        let risks2 :=
          assign_if (flt (pk_min p) 30) (joint ++ "_flexion")
                    (mkDetails "Patellar tendon stress" (pk_min p)
                               (pk_min_time p) "<30°" None) risks1 in
        let risks3 :=
          assign_if (flt (pk_min p) (-5)) (joint ++ "_hyperextension")
                    (mkDetails "PCL stress" (pk_min p) (pk_min_time p)
                               ">5° hyperextension" None) risks2 in
        inr risks3
    end
  else inr risks.

(** The hip checks for one side. *)
Definition hip_side (angle_joints : list string)
           (peaks : list (string * peak)) (side : string) (risks : risk_dict)
  : string + risk_dict :=
  let adduction_joint := "hip_adduction_" ++ side in
  let rotation_joint := "hip_rotation_" ++ side in
  match
    (if mem adduction_joint angle_joints then
       match peaks_deg peaks adduction_joint with
       | inl k => inl k
       | inr p =>
           inr (assign_if (fgt (pk_max p) 90) ("hip_flexion_" ++ side)
                          (mkDetails "Lumbar spine compression risk"
                                     (pk_max p) (pk_max_time p) ">90°"
                                     (Some
                                        "Requires torque >2 Nm/kg to confirm risk"))
                          risks)
       end
     else inr risks)
  with
  | inl k => inl k
  | inr risks1 =>
      if mem rotation_joint angle_joints then
        match peaks_deg peaks rotation_joint with
        | inl k => inl k
        | inr p =>
            let max_rotation :=
              py_max (fabs (pk_max p)) (fabs (pk_min p)) in
            inr (assign_if (fgt max_rotation 25) ("hip_rotation_" ++ side)
                           (mkDetails "Labral tear risk" max_rotation
                                      (pk_max_time p) ">25°" None)
                           risks1)
        end
      else inr risks1
  end.

(** The shoulder checks for one side. *)
Definition shoulder_side (angle_joints : list string)
           (peaks : list (string * peak)) (side : string) (risks : risk_dict)
  : string + risk_dict :=
  let adduction_joint := "scapula_abduction_" ++ side in
  let rotation_joint := "scapula_upward_rot_" ++ side in
  match
    (if mem adduction_joint angle_joints then
       match peaks_deg peaks adduction_joint with
       | inl k => inl k
       | inr p =>
           inr (assign_if (fgt (pk_max p) 90) ("scapula_abduction_" ++ side)
                          (mkDetails "Supraspinatus tendon strain"
                                     (pk_max p) (pk_max_time p) ">90°" None)
                          risks)
       end
     else inr risks)
  with
  | inl k => inl k
  | inr risks1 =>
      if mem rotation_joint angle_joints then
        match peaks_deg peaks rotation_joint with
        | inl k => inl k
        | inr p =>
            inr (assign_if (fgt (pk_max p) 25)
                           ("scapula_upward_rot_" ++ side)
                           (mkDetails "Labral tear risk" (pk_max p)
                                      (pk_max_time p) ">25°" None)
                           risks1)
        end
      else inr risks1
  end.

(** The spine check. *)
Definition spine (angle_joints : list string)
           (peaks : list (string * peak)) (risks : risk_dict)
  : string + risk_dict :=
  if mem "lumbar_bending" angle_joints then
    match peaks_deg peaks "lumbar_bending" with
    | inl k => inl k
    | inr p =>
        inr (assign_if (fgt (pk_max p) 45) "lumbar_bending"
                       (mkDetails "Disc herniation risk" (pk_max p)
                                  (pk_max_time p) ">45°"
                                  (Some
                                     "Requires asymmetric load >15% body weight to confirm risk"))
                       risks)
    end
  else inr risks.

(** Sequencing of steps that may raise [KeyError]. *)
Definition and_then (r : string + risk_dict)
           (k : risk_dict -> string + risk_dict) : string + risk_dict :=
  match r with
  | inl key => inl key
  | inr risks => k risks
  end.

(** [check_joint_angles(joint_data)]: [angle_joints] are the keys of
    [joint_data['angles']], [peaks] is [joint_data['peaks']]; the result is
    the [risks] dictionary, or the key of a [KeyError]. *)
Definition check_joint_angles (angle_joints : list string)
           (peaks : list (string * peak)) : string + risk_dict :=
  and_then
    (if mem "knee_angle_r" angle_joints || mem "knee_angle_l" angle_joints
     then and_then (knee_side angle_joints peaks "r" [])
                   (knee_side angle_joints peaks "l")
     else inr [])
    (fun risks =>
       and_then (hip_side angle_joints peaks "r" risks) (fun risks =>
       and_then (hip_side angle_joints peaks "l" risks) (fun risks =>
       and_then (shoulder_side angle_joints peaks "r" risks) (fun risks =>
       and_then (shoulder_side angle_joints peaks "l" risks) (fun risks =>
       spine angle_joints peaks risks))))).
End Degrees.

(** An element of the list [output_risks] returns. *)
Record risk_info : Type := mkInfo {
  risk_detected_in : string;
  info_type : string;
  info_value : fval;
  info_threshold : string;
  info_time : fval;
  info_note : option string
}.

Inductive output : Type :=
| Message (text : string)
| RiskList (risk_results : list risk_info).

Definition output_risks (risks : list (string * details)) : output :=
  match risks with
  | [] => Message "No significant injury risks detected."
  | _ :: _ =>
      RiskList (map (fun kd =>
                       mkInfo (fst kd) (d_type (snd kd)) (d_value (snd kd))
                              (d_threshold (snd kd)) (d_time (snd kd))
                              (d_note (snd kd)))
                    risks)
  end.

(** The checks of [check_joint_angles] read as a table: the joint whose
    peaks are tested, the key under which the risk is stored, and the test
    on the peaks in degrees. *)
Record rule : Type := mkRule {
  r_joint : string;
  r_key : string;
  r_test : peak -> bool
}.

Definition knee_rules (side : string) : list rule :=
  let joint := "knee_angle_" ++ side in
  [ mkRule joint (joint ++ "_valgus") (fun p => fgt (pk_max p) 10);
    mkRule joint (joint ++ "_flexion") (fun p => flt (pk_min p) 30);
    mkRule joint (joint ++ "_hyperextension")
           (fun p => flt (pk_min p) (-5)) ].

Definition hip_rules (side : string) : list rule :=
  [ mkRule ("hip_adduction_" ++ side) ("hip_flexion_" ++ side)
           (fun p => fgt (pk_max p) 90);
    mkRule ("hip_rotation_" ++ side) ("hip_rotation_" ++ side)
           (fun p => fgt (py_max (fabs (pk_max p)) (fabs (pk_min p))) 25) ].

Definition shoulder_rules (side : string) : list rule :=
  [ mkRule ("scapula_abduction_" ++ side) ("scapula_abduction_" ++ side)
           (fun p => fgt (pk_max p) 90);
    mkRule ("scapula_upward_rot_" ++ side) ("scapula_upward_rot_" ++ side)
           (fun p => fgt (pk_max p) 25) ].

Definition spine_rules : list rule :=
  [ mkRule "lumbar_bending" "lumbar_bending" (fun p => fgt (pk_max p) 45) ].

Definition rules : list rule :=
  knee_rules "r" ++ knee_rules "l" ++ hip_rules "r" ++ hip_rules "l"
  ++ shoulder_rules "r" ++ shoulder_rules "l" ++ spine_rules.

(** A rule fires: its joint has angles and peaks, and the peaks in degrees
    pass its test. *)
Definition fires (rad2deg : fval -> fval) (angle_joints : list string)
           (peaks : list (string * peak)) (r : rule) : Prop :=
  mem (r_joint r) angle_joints = true
  /\ exists p, dict_lookup peaks (r_joint r) = Some p
               /\ r_test r (peak_deg rad2deg p) = true.

(** What a step of [check_joint_angles] that starts from [risks] may end
    with: either the old keys plus the keys of the rules of [L] that fire,
    still without repetition, or the [KeyError] of a joint that has angles
    and no peaks. *)
Definition step_ok (rad2deg : fval -> fval) (angle_joints : list string)
           (peaks : list (string * peak)) (risks : list (string * details))
           (L : list rule) (res : string + list (string * details)) : Prop :=
  match res with
  | inr risks' =>
      (NoDup (map fst risks) -> NoDup (map fst risks'))
      /\ (forall k, In k (map fst risks')
                    <-> In k (map fst risks)
                        \/ exists r, In r L /\ r_key r = k
                                     /\ fires rad2deg angle_joints peaks r)
  | inl j => mem j angle_joints = true /\ dict_lookup peaks j = None
  end.

End JointAngle.

(** ** [joint_force_torque_risk.py] *)

Module JointForce.
Import Sample Report JointAngle.
Local Open Scope string_scope.

(** [pat in s] on strings. *)
Fixpoint contains (pat s : string) : bool :=
  prefix pat s
  || match s with
     | EmptyString => false
     | String _ s' => contains pat s'
     end.

(** [s.replace(old, new)] for a non-empty [old]: occurrences are replaced
    from the left and do not overlap; [skip] counts the characters of a
    matched occurrence still to be dropped. *)
Fixpoint replace_from (old new : string) (skip : nat) (s : string) : string :=
  match s with
  | EmptyString => EmptyString
  | String c s' =>
      match skip with
      | S k => replace_from old new k s'
      | O =>
          if prefix old s
          then new ++ replace_from old new (String.length old - 1) s'
          else String c (replace_from old new 0 s')
      end
  end.

Definition replace (old new s : string) : string := replace_from old new 0 s.

(** The two dictionaries built from the column labels: [forces] and
    [torques], keyed by the label without its suffix. *)
Definition add_column (dicts : list (string * list Q) * list (string * list Q))
           (column : string * list Q)
  : list (string * list Q) * list (string * list Q) :=
  let (forces, torques) := dicts in
  let (label, data) := column in
  if contains "_force" label
  then (dict_set forces (replace "_force" "" label) data, torques)
  else if contains "_moment" label
       then (forces, dict_set torques (replace "_moment" "" label) data)
       else (forces, torques).

Definition categorize (table : list (string * list Q))
  : list (string * list Q) * list (string * list Q) :=
  fold_left add_column table ([], []).

(** A value of the [risks] dictionary; ['value'], ['threshold'], ['time']
    and ['note'] are the keys [output_risks] tests for. *)
Record details : Type := mkDetails {
  d_type : string;
  d_value : option Q;
  d_threshold : option string;
  d_time : option string;
  d_note : option string
}.

Definition risk_dict : Type := list (string * details).

(** The checks for one side: the shear force is read from ['pelvis_tz']
    for both sides, the rotation torque from [hip_rotation_<side>]. *)
Definition side_checks (forces torques : list (string * list Q))
           (body_weight : Q) (side : string) (risks : risk_dict)
  : result risk_dict :=
  let bw_newtons := (body_weight * (981 # 100))%Q in
  risks1 <-
    match dict_lookup forces "pelvis_tz" with
    | Some shear =>
        max_shear <- np_max (np_abs shear) ;;
        Ok (assign_if (Qltb ((2 # 10) * bw_newtons) max_shear)
                      ("knee_" ++ side ++ "_shear")
                      (mkDetails "ACL injury risk" (Some max_shear)
                                 (Some ">20% body weight") None None)
                      risks)
    | None => Ok risks
    end ;;
  match dict_lookup torques ("hip_rotation_" ++ side) with
  | Some torque =>
      max_torque <- np_max (np_abs torque) ;;
      Ok (assign_if (Qltb ((15 # 10) * body_weight) max_torque)
                    ("knee_" ++ side ++ "_rotation")
                    (mkDetails "Meniscal stress risk" (Some max_torque)
                               (Some ">1.5 Nm/kg") None None)
                    risks1)
  | None => Ok risks1
  end.

(** [analyze_injury_risks_from_sto], from the table that was read. *)
Definition analyze_injury_risks_from_sto (table : list (string * list Q))
           (body_weight : Q) : result risk_dict :=
  let (forces, torques) := categorize table in
  risks <- side_checks forces torques body_weight "r" [] ;;
  side_checks forces torques body_weight "l" risks.

(** An element of the list [output_risks] returns: the description of a
    risk, or the message about a risk without value or threshold. *)
Inductive entry : Type :=
| Info (risk_detected_in type : string) (value : Q) (threshold : string)
       (time : string) (note : option string)
| Missing (risk_name : string).

Inductive output : Type :=
| Message (text : string)
| RiskList (risk_results : list entry).

Definition output_entry (kd : string * details) : entry :=
  match d_value (snd kd), d_threshold (snd kd) with
  | Some value, Some threshold =>
      Info (fst kd) (d_type (snd kd)) value threshold
           (match d_time (snd kd) with
            | Some t => t
            | None => "N/A"
            end)
           (d_note (snd kd))
  | _, _ => Missing (fst kd)
  end.

Definition output_risks (risks : risk_dict) : output :=
  match map output_entry risks with
  | [] => Message "No significant injury risks detected."
  | risk_results => RiskList risk_results
  end.

End JointForce.

(** ** [run_analysis_pipeline.py]: [remove_non_serializable] *)

Module Pipeline.
Local Open Scope string_scope.

(** The results as [remove_non_serializable] sees them: dictionaries,
    lists, matplotlib figures, and every other value. *)
#[warnings="-register-all"]
Inductive obj : Type :=
| Dict (items : list (string * obj))
| List (items : list obj)
| Figure
| Other.

(** [remove_non_serializable(obj)], returning the object as it is left.

    A dictionary is walked over a copy of its items: nested dictionaries
    and lists are cleaned in place, a figure is deleted.  A list is walked
    with [enumerate] while figures are deleted from it: after
    [del obj[i]] the element that moves to position [i] is never visited,
    so it stays as it is, whatever it is. *)
Fixpoint remove_non_serializable (o : obj) : obj :=
  match o with
  | Dict items =>
      Dict ((fix clean_items (l : list (string * obj))
             : list (string * obj) :=
               match l with
               | [] => []
               | (key, value) :: l' =>
                   match value with
                   | Dict _ | List _ =>
                       (key, remove_non_serializable value) :: clean_items l'
                   | Figure => clean_items l'
                   | Other => (key, value) :: clean_items l'
                   end
               end) items)
  | List items =>
      List ((fix clean_list (l : list obj) : list obj :=
               match l with
               | [] => []
               | item :: rest =>
                   match item with
                   | Dict _ | List _ =>
                       remove_non_serializable item :: clean_list rest
                   | Figure =>
                       match rest with
                       | [] => []
                       | unvisited :: rest' => unvisited :: clean_list rest'
                       end
                   | Other => item :: clean_list rest
                   end
               end) items)
  | Figure => Figure
  | Other => Other
  end.

(** No figure anywhere in the object. *)
Fixpoint figure_free (o : obj) : bool :=
  match o with
  | Dict items =>
      (fix all (l : list (string * obj)) : bool :=
         match l with
         | [] => true
         | (_, value) :: l' => figure_free value && all l'
         end) items
  | List items =>
      (fix all (l : list obj) : bool :=
         match l with
         | [] => true
         | item :: l' => figure_free item && all l'
         end) items
  | Figure => false
  | Other => true
  end.

Definition is_figure (o : obj) : bool :=
  match o with
  | Figure => true
  | _ => false
  end.

(** Figures occur as values of dictionaries only: no list, at any depth,
    has a figure among its elements. *)
Fixpoint figures_in_dicts_only (o : obj) : bool :=
  match o with
  | Dict items =>
      (fix all (l : list (string * obj)) : bool :=
         match l with
         | [] => true
         | (_, value) :: l' => figures_in_dicts_only value && all l'
         end) items
  | List items =>
      (fix all (l : list obj) : bool :=
         match l with
         | [] => true
         | item :: l' =>
             negb (is_figure item) && figures_in_dicts_only item && all l'
         end) items
  | Figure => true
  | Other => true
  end.

End Pipeline.

(** ** The ['Duration'] text and what the summaries read back *)

Module DurationText.
Import Sample JointForce.
Local Open Scope string_scope.

(** The integer nearest to [q], ties to the even one: the rounding of
    Python's float formatting. *)
Definition round_half_even (q : Q) : Z :=
  let n := Qnum q in
  let d := Zpos (Qden q) in
  let z := (n / d)%Z in
  let r := (n mod d)%Z in
  if (2 * r <? d)%Z then z
  else if (d <? 2 * r)%Z then (z + 1)%Z
       else if Z.even z then z else (z + 1)%Z.

(** [q] in hundredths, rounded; and the value with two decimals. *)
Definition hundredths (q : Q) : Z := round_half_even (q * 100)%Q.

Definition round2 (q : Q) : Q := hundredths q # 100.

Definition digit_uint (d : N) (rest : Decimal.uint) : Decimal.uint :=
  match d with
  | 0%N => Decimal.D0 rest
  | 1%N => Decimal.D1 rest
  | 2%N => Decimal.D2 rest
  | 3%N => Decimal.D3 rest
  | 4%N => Decimal.D4 rest
  | 5%N => Decimal.D5 rest
  | 6%N => Decimal.D6 rest
  | 7%N => Decimal.D7 rest
  | 8%N => Decimal.D8 rest
  | _ => Decimal.D9 rest
  end.

(** The two decimals of a number of hundredths below 100. *)
Definition two_digits (f : N) : Decimal.uint :=
  digit_uint (f / 10) (digit_uint (f mod 10) Decimal.Nil).

(** [f'{q:.2f}']: a minus sign for a negative value (also when it rounds
    to zero), the integer part, a point and two decimals. *)
Definition unsigned_text (h : N) : string :=
  NilEmpty.string_of_uint (N.to_uint (h / 100))
  ++ "." ++ NilEmpty.string_of_uint (two_digits (h mod 100)).

Definition format_2f (q : Q) : string :=
  (if Qltb q 0 then "-" else "")
  ++ unsigned_text (Z.abs_N (hundredths q)).

(** [f'{end_time - start_time:.2f}s']. *)
Definition duration_text (d : Q) : string := format_2f d ++ "s".

(** The text before and after its first point. *)
Fixpoint split_at_dot (s : string) : option (string * string) :=
  match s with
  | EmptyString => None
  | String c s' =>
      if Ascii.eqb c "." then Some (EmptyString, s')
      else match split_at_dot s' with
           | Some (a, b) => Some (String c a, b)
           | None => None
           end
  end.

(** [float(text)] for a text made of an optional minus sign, digits and at
    most one point; [None] stands for a text outside this form (for which
    [float] raises [ValueError] or which this model does not cover:
    exponents, infinities, NaN, blanks). *)
Definition parse_float (text : string) : option Q :=
  let (negative, body) :=
    match text with
    | String c rest =>
        if Ascii.eqb c "-" then (true, rest) else (false, text)
    | EmptyString => (false, text)
    end in
  let (int_part, frac_part) :=
    match split_at_dot body with
    | Some p => p
    | None => (body, EmptyString)
    end in
  match int_part, frac_part with
  | EmptyString, EmptyString => None
  | _, _ =>
      match NilEmpty.uint_of_string int_part,
            NilEmpty.uint_of_string frac_part with
      | Some i, Some f =>
          let v := ((Z.of_N (N.of_uint i) # 1)
                    + (Z.of_N (N.of_uint f)
                       # Pos.of_nat (10 ^ String.length frac_part)))%Q in
          Some (if negative then (- v)%Q else v)
      | _, _ => None
      end
  end.

(** [float(risk['Duration'].replace('s', ''))]. *)
Definition read_duration (text : string) : option Q :=
  parse_float (replace "s" "" text).

(** Every character of a string passes a test. *)
Fixpoint all_chars (P : ascii -> bool) (s : string) : bool :=
  match s with
  | EmptyString => true
  | String c s' => P c && all_chars P s'
  end.

Definition is_digit (c : ascii) : bool :=
  (48 <=? nat_of_ascii c)%nat && (nat_of_ascii c <=? 57)%nat.

End DurationText.

(** ** [generate_risk_report] of [muscle_forces_activations_risk.py] *)

Module MuscleReport.
Import Sample Report Muscle MuscleChecks DurationText.
Local Open Scope string_scope.

(** The ['Risk Type'] and ['Duration'] entries of an appended dictionary,
    as the texts the code stores. *)
Definition risk_entry (r : string * Interval fval) : string * string :=
  (fst r, duration_text (duration (snd r))).

(** What [summarize_injury_risks] reads of each dictionary, in order;
    [float] raises [ValueError] on a text that is not a number. *)
Fixpoint read_metrics (risk_metrics : list (string * string))
  : result (list risk) :=
  match risk_metrics with
  | [] => Ok []
  | d :: rest =>
      match read_duration (snd d) with
      | Some q =>
          rs <- read_metrics rest ;;
          Ok (mkRisk (fst d) q :: rs)
      | None => Raise ValueError
      end
  end.

(** [forces_df.index[-1] - forces_df.index[0]]. *)
Definition motion_duration (time_array : list Q) : result Q :=
  match time_array with
  | [] => Raise IndexError
  | t0 :: _ => Ok (last time_array t0 - t0)%Q
  end.

Record report : Type := mkReport {
  motion_duration_s : Q;
  overall_risk_assessment : string;
  detailed_risks : list (string * string)
}.

(** [generate_risk_report] without its file output: the risks, their
    summary, then the report dictionary. *)
Definition generate_risk_report (time_array : list Q)
           (ham_quad : option (list fval * list fval))
           (gastroc glute rectus : option (list fval)) (body_weight : Q)
  : result report :=
  found <- calculate_injury_risks time_array ham_quad gastroc glute rectus
             body_weight ;;
  let risk_metrics := map risk_entry found in
  risks <- read_metrics risk_metrics ;;
  let risk_summary := summarize_injury_risks risks in
  motion <- motion_duration time_array ;;
  Ok (mkReport motion (fst risk_summary) risk_metrics).

(** The same two functions with the addition of
    [sum(float(...) for risk in risk_metrics)] left open: Python adds
    doubles and rounds after each addition, which the exact [py_sum] does
    not follow.  [sum] stands for any way of adding the values read. *)
Definition summarize_injury_risks_with (sum : list Q -> Q)
           (risk_metrics : list risk) : string * nat :=
  match risk_metrics with
  | [] => ("Low", 0%nat)
  | _ :: _ =>
      let total_duration := sum (map duration_s risk_metrics) in
      (overall_risk (length risk_metrics) total_duration,
       length risk_metrics)
  end.

Definition generate_risk_report_with (sum : list Q -> Q)
           (time_array : list Q)
           (ham_quad : option (list fval * list fval))
           (gastroc glute rectus : option (list fval)) (body_weight : Q)
  : result report :=
  found <- calculate_injury_risks time_array ham_quad gastroc glute rectus
             body_weight ;;
  let risk_metrics := map risk_entry found in
  risks <- read_metrics risk_metrics ;;
  let risk_summary := summarize_injury_risks_with sum risks in
  motion <- motion_duration time_array ;;
  Ok (mkReport motion (fst risk_summary) risk_metrics).

End MuscleReport.

(** ** The muscle loading of a kinematic risk ([kinematic_data_risk.py]) *)

Module MuscleLoading.
Import Sample Report JointAngle.
Local Open Scope Q_scope.

(** [np.argmin(np.abs(force_time - t))]. *)
Definition nearest_sample (force_time : list Q) (t : Q) : result nat :=
  np_argmin (np_abs (map (fun ft => ft - t) force_time)).

(** The loop [for t in risky_times] filling [force_values]. *)
Fixpoint force_values (quad_force force_time risky_times : list Q)
  : result (list Q) :=
  match risky_times with
  | [] => Ok []
  | t :: rest =>
      idx <- nearest_sample force_time t ;;
      v <- index quad_force idx ;;
      vs <- force_values quad_force force_time rest ;;
      Ok (v :: vs)
  end.

(** ['peak_force'] and ['values_at_risk_times'] of ['muscle_loading']. *)
Record loading : Type := mkLoading {
  peak_force : Q;
  values_at_risk_times : list Q
}.

Definition muscle_loading (quad_force force_time risky_times : list Q)
  : result loading :=
  values <- force_values quad_force force_time risky_times ;;
  peak <- np_max values ;;
  Ok (mkLoading peak values).

(** A sample of the force file nearest in time to [t], with its force. *)
Definition nearest_force (quad_force force_time : list Q) (t v : Q) : Prop :=
  exists i ft,
    nth_error force_time i = Some ft
    /\ nth_error quad_force i = Some v
    /\ forall ft', In ft' force_time -> Qabs (ft - t) <= Qabs (ft' - t).

End MuscleLoading.

(** * Properties *)

(** ** The grouping loop *)

Module RunsFacts.
Import Runs.

Lemma group_loop_chunk rest : forall prev cur acc,
  group_loop rest prev cur acc = acc ++ chunk prev cur rest.
Proof.
  induction rest as [|r rest IH]; intros prev cur acc; simpl.
  - reflexivity.
  - destruct (r =? prev + 1).
    + apply IH.
    + rewrite IH, <- app_assoc. reflexivity.
Qed.

Lemma group_consecutive_chunk r0 rest :
  group_consecutive (r0 :: rest) = chunk r0 [r0] rest.
Proof. simpl. now rewrite group_loop_chunk. Qed.

Lemma chunk_concat rest : forall prev cur,
  concat (chunk prev cur rest) = cur ++ rest.
Proof.
  induction rest as [|r rest IH]; intros prev cur; simpl.
  - now rewrite app_nil_r.
  - destruct (r =? prev + 1); simpl; rewrite IH.
    + now rewrite <- app_assoc.
    + reflexivity.
Qed.

Lemma group_consecutive_concat risky :
  concat (group_consecutive risky) = risky.
Proof.
  destruct risky as [|r0 rest].
  - reflexivity.
  - rewrite group_consecutive_chunk. apply chunk_concat.
Qed.

(** *** Runs *)

Lemma last_index_snoc p r : last_index (p ++ [r]) = r.
Proof. unfold last_index. apply last_last. Qed.

Lemma first_index_snoc p r :
  p <> [] -> first_index (p ++ [r]) = first_index p.
Proof. destruct p; [congruence|reflexivity]. Qed.

Lemma last_seq a n : last (seq a (S n)) 0 = a + n.
Proof.
  rewrite seq_S. rewrite last_last. reflexivity.
Qed.

Lemma is_run_last p :
  is_run p -> last_index p = first_index p + length p - 1.
Proof.
  intros [Hne Hp]. unfold last_index. rewrite Hp at 1.
  destruct (length p) as [|n] eqn:E.
  - destruct p; [congruence|discriminate].
  - rewrite last_seq. lia.
Qed.

Lemma is_run_single r : is_run [r].
Proof. split; [discriminate|reflexivity]. Qed.

Lemma is_run_snoc p :
  is_run p -> is_run (p ++ [last_index p + 1]).
Proof.
  intros Hrun. pose proof (is_run_last _ Hrun) as Hl.
  destruct Hrun as [Hne Hp]. split.
  - destruct p; discriminate.
  - rewrite first_index_snoc by assumption.
    rewrite length_app.
    replace (length p + length [last_index p + 1]) with (S (length p))
      by (simpl; lia).
    rewrite seq_S, <- Hp. f_equal. f_equal. rewrite Hl.
    destruct p; [congruence|simpl; lia].
Qed.

Lemma is_run_In p i : is_run p -> (In i p <-> in_range p i).
Proof.
  intros Hrun. pose proof (is_run_last _ Hrun) as Hl.
  destruct Hrun as [Hne Hp]. unfold in_range. rewrite Hl.
  rewrite Hp at 1. rewrite in_seq.
  destruct p; [congruence|]. simpl. lia.
Qed.

Lemma chunk_runs rest : forall prev cur,
  is_run cur -> last_index cur = prev ->
  Forall is_run (chunk prev cur rest).
Proof.
  induction rest as [|r rest IH]; intros prev cur Hrun Hlast; simpl.
  - constructor; [assumption|constructor].
  - destruct (Nat.eqb_spec r (prev + 1)) as [->|Hne].
    + apply IH.
      * rewrite <- Hlast. now apply is_run_snoc.
      * apply last_index_snoc.
    + constructor; [assumption|].
      apply IH; [apply is_run_single|reflexivity].
Qed.

Lemma group_consecutive_runs risky :
  Forall is_run (group_consecutive risky).
Proof.
  destruct risky as [|r0 rest].
  - constructor.
  - rewrite group_consecutive_chunk.
    apply chunk_runs; [apply is_run_single|reflexivity].
Qed.

(** *** Separation *)

Lemma chunk_head rest : forall prev cur,
  cur <> [] ->
  exists p ps, chunk prev cur rest = p :: ps
               /\ first_index p = first_index cur.
Proof.
  induction rest as [|r rest IH]; intros prev cur Hne; simpl.
  - now exists cur, [].
  - destruct (r =? prev + 1).
    + destruct (IH r (cur ++ [r])) as (p & ps & E & Hf).
      { destruct cur; discriminate. }
      exists p, ps. split; [assumption|].
      now rewrite Hf, first_index_snoc.
    + now exists cur, (chunk r [r] rest).
Qed.

Lemma chunk_separated rest : forall prev cur,
  cur <> [] -> last_index cur = prev ->
  StronglySorted lt (prev :: rest) ->
  separated (chunk prev cur rest).
Proof.
  induction rest as [|r rest IH]; intros prev cur Hne Hlast Hs; simpl.
  - exact I.
  - inversion Hs as [|? ? Hs' Hall]; subst.
    inversion Hall as [|? ? Hlt _]; subst.
    destruct (Nat.eqb_spec r (last_index cur + 1)) as [E|Hneq].
    + apply IH; [destruct cur; discriminate|apply last_index_snoc|assumption].
    + destruct (chunk_head rest r [r]) as (p & ps & Ec & Hf); [discriminate|].
      assert (Hsep : separated (chunk r [r] rest)).
      { apply IH; [discriminate|reflexivity|assumption]. }
      rewrite Ec in *. simpl. split; [|exact Hsep].
      rewrite Hf. simpl. lia.
Qed.

Lemma group_consecutive_separated risky :
  StronglySorted lt risky -> separated (group_consecutive risky).
Proof.
  destruct risky as [|r0 rest]; intros Hs.
  - exact I.
  - rewrite group_consecutive_chunk.
    apply chunk_separated; [discriminate|reflexivity|assumption].
Qed.

Lemma separated_split l1 : forall p q l2,
  separated (l1 ++ p :: q :: l2) ->
  last_index p + 1 < first_index q.
Proof.
  induction l1 as [|a l1 IH]; intros p q l2 H.
  - simpl in H. tauto.
  - apply (IH p q l2). simpl in H.
    destruct (l1 ++ p :: q :: l2) eqn:E.
    + destruct l1; discriminate.
    + tauto.
Qed.

Lemma sorted_app_lt (a b : list nat) :
  StronglySorted lt (a ++ b) ->
  forall x y, In x a -> In y b -> x < y.
Proof.
  induction a as [|h a IH]; intros Hs x y Hx Hy.
  - destruct Hx.
  - simpl in Hs. inversion Hs as [|? ? Hs' Hall]; subst.
    destruct Hx as [<-|Hx].
    + rewrite Forall_forall in Hall. apply Hall, in_or_app. now right.
    + now apply IH.
Qed.

Lemma sorted_app_r (a b : list nat) :
  StronglySorted lt (a ++ b) -> StronglySorted lt b.
Proof.
  induction a as [|h a IH]; intros Hs; [assumption|].
  simpl in Hs. inversion Hs; subst. now apply IH.
Qed.

Lemma sorted_app_l (a b : list nat) :
  StronglySorted lt (a ++ b) -> StronglySorted lt a.
Proof.
  induction a as [|h a IH]; intros Hs; [constructor|].
  simpl in Hs. inversion Hs as [|? ? Hs' Hall]; subst.
  constructor; [now apply IH|].
  rewrite Forall_forall in *. intros x Hx. apply Hall, in_or_app. now left.
Qed.

End RunsFacts.

(** ** Maximal runs *)

Module MaximalFacts.
Import Runs RunsFacts.

Lemma run_first_In p : is_run p -> In (first_index p) p.
Proof. intros [Hne _]. destruct p; [congruence|now left]. Qed.

Lemma run_last_In p : is_run p -> In (last_index p) p.
Proof.
  intros [Hne _]. unfold last_index.
  destruct (exists_last Hne) as (l & a & ->).
  rewrite last_last. apply in_or_app. right. now left.
Qed.

(** No risky index sits right after or right before a period. *)
Lemma period_maximal risky p :
  StronglySorted lt risky ->
  In p (group_consecutive risky) ->
  ~ In (last_index p + 1) risky
  /\ (forall j, j + 1 = first_index p -> ~ In j risky).
Proof.
  intros Hs Hp.
  pose proof (group_consecutive_runs risky) as Hruns.
  pose proof (group_consecutive_separated _ Hs) as Hsep.
  pose proof (group_consecutive_concat risky) as Hcat.
  destruct (in_split _ _ Hp) as (l1 & l2 & E).
  rewrite E in Hruns, Hsep, Hcat.
  rewrite concat_app in Hcat. simpl in Hcat.
  clear E Hp. subst risky.
  apply Forall_app in Hruns. destruct Hruns as [Hr1 Hr2].
  inversion Hr2 as [|? ? Hrp Hr2']; subst.
  pose proof (sorted_app_r _ _ Hs) as Hs2.
  split.
  - intros Hin.
    apply in_app_or in Hin. destruct Hin as [Hin|Hin].
    + pose proof (sorted_app_lt _ _ Hs _ _ Hin
                    (in_or_app _ _ _ (or_introl (run_last_In _ Hrp)))). lia.
    + apply in_app_or in Hin. destruct Hin as [Hin|Hin].
      * apply (is_run_In _ _ Hrp) in Hin. unfold in_range in Hin. lia.
      * destruct l2 as [|q l2']; [destruct Hin|].
        inversion Hr2' as [|? ? Hrq _]; subst.
        pose proof (separated_split _ _ _ _ Hsep) as Hgap.
        simpl in Hin. apply in_app_or in Hin. destruct Hin as [Hin|Hin].
        -- apply (is_run_In _ _ Hrq) in Hin. unfold in_range in Hin. lia.
        -- pose proof (sorted_app_r _ _ Hs2) as Hs3. simpl in Hs3.
           pose proof (sorted_app_lt _ _ Hs3 _ _ (run_first_In _ Hrq) Hin). lia.
  - intros j Hj Hin.
    apply in_app_or in Hin. destruct Hin as [Hin|Hin].
    + destruct l1 as [|a l1'] using rev_ind; [destruct Hin|]. clear IHl1'.
      apply Forall_app in Hr1. destruct Hr1 as [_ Hra].
      inversion Hra as [|? ? Hrq _]; subst.
      rewrite <- app_assoc in Hsep. simpl in Hsep.
      pose proof (separated_split _ _ _ _ Hsep) as Hgap.
      rewrite concat_app in Hin. simpl in Hin. rewrite app_nil_r in Hin.
      apply in_app_or in Hin. destruct Hin as [Hin|Hin].
      * pose proof (sorted_app_l _ _ Hs) as Hs1.
        rewrite concat_app in Hs1. simpl in Hs1. rewrite app_nil_r in Hs1.
        pose proof (sorted_app_lt _ _ Hs1 _ _ Hin (run_last_In _ Hrq)). lia.
      * apply (is_run_In _ _ Hrq) in Hin. unfold in_range in Hin. lia.
    + apply in_app_or in Hin. destruct Hin as [Hin|Hin].
      * apply (is_run_In _ _ Hrp) in Hin. unfold in_range in Hin. lia.
      * pose proof (sorted_app_lt _ _ Hs2 _ _ (run_first_In _ Hrp) Hin). lia.
Qed.

Lemma np_where_from_In mask : forall s i,
  In i (np_where_from s mask) <-> s <= i /\ nth (i - s) mask false = true.
Proof.
  induction mask as [|b mask IH]; intros s i; simpl.
  - split; [tauto|]. intros [_ H]. destruct (i - s); discriminate.
  - destruct b; simpl; rewrite ?IH.
    + split.
      * intros [<-|[Hle Hn]].
        -- rewrite Nat.sub_diag. split; [lia|reflexivity].
        -- destruct (i - s) as [|k] eqn:E; [lia|].
           replace (i - S s) with k in Hn by lia. split; [lia|exact Hn].
      * intros [Hle Hn]. destruct (i - s) as [|k] eqn:E.
        -- left. lia.
        -- right. replace (i - S s) with k by lia. split; [lia|exact Hn].
    + split.
      * intros [Hle Hn]. destruct (i - s) as [|k] eqn:E; [lia|].
        replace (i - S s) with k in Hn by lia. split; [lia|exact Hn].
      * intros [Hle Hn]. destruct (i - s) as [|k] eqn:E; [discriminate|].
        replace (i - S s) with k by lia. split; [lia|exact Hn].
Qed.

Lemma np_where_In mask i :
  In i (np_where mask) <-> nth i mask false = true.
Proof.
  unfold np_where. rewrite np_where_from_In, Nat.sub_0_r.
  split; [tauto|]. intros H; split; [lia|exact H].
Qed.

Lemma np_where_from_sorted mask : forall s,
  StronglySorted lt (np_where_from s mask).
Proof.
  induction mask as [|b mask IH]; intros s; simpl.
  - constructor.
  - destruct b; [|apply IH].
    constructor; [apply IH|].
    apply Forall_forall. intros j Hj. apply np_where_from_In in Hj. lia.
Qed.

Lemma np_where_sorted mask : StronglySorted lt (np_where mask).
Proof. apply np_where_from_sorted. Qed.

Lemma np_where_bound mask i : In i (np_where mask) -> i < length mask.
Proof.
  intros H. apply np_where_In in H.
  destruct (Nat.lt_ge_cases i (length mask)) as [|Hge]; [assumption|].
  rewrite nth_overflow in H by assumption. discriminate.
Qed.

Lemma not_true_false (b : bool) : b <> true -> b = false.
Proof. destruct b; congruence. Qed.

(** Every index of a period is risky; every risky index is in a period. *)
Lemma period_In_mask mask p i :
  In p (group_consecutive (np_where mask)) -> In i p ->
  nth i mask false = true.
Proof.
  intros Hp Hi. apply np_where_In.
  rewrite <- (group_consecutive_concat (np_where mask)).
  apply in_concat. now exists p.
Qed.

Lemma mask_In_period mask i :
  nth i mask false = true ->
  exists p, In p (group_consecutive (np_where mask)) /\ In i p.
Proof.
  intros H. apply np_where_In in H.
  rewrite <- (group_consecutive_concat (np_where mask)) in H.
  apply in_concat in H. destruct H as (p & Hp & Hi). now exists p.
Qed.

Lemma period_is_run mask p :
  In p (group_consecutive (np_where mask)) -> is_run p.
Proof.
  intros Hp. pose proof (group_consecutive_runs (np_where mask)) as H.
  rewrite Forall_forall in H. now apply H.
Qed.

Lemma period_bounds_false mask p :
  In p (group_consecutive (np_where mask)) ->
  nth (last_index p + 1) mask false = false
  /\ (forall j, j + 1 = first_index p -> nth j mask false = false).
Proof.
  intros Hp.
  destruct (period_maximal _ _ (np_where_sorted mask) Hp) as [Ha Hb].
  split.
  - apply not_true_false. intros H. apply Ha. now apply np_where_In.
  - intros j Hj. apply not_true_false. intros H.
    apply (Hb j Hj). now apply np_where_In.
Qed.

End MaximalFacts.

(** ** The per-period report *)

Module ReportFacts.
Import Runs RunsFacts MaximalFacts Sample Report.

Lemma index_ok {X : Type} (a : list X) i :
  i < length a -> exists x, index a i = Ok x /\ nth_error a i = Some x.
Proof.
  intros H. unfold index. destruct (nth_error a i) as [x|] eqn:E.
  - now exists x.
  - apply nth_error_None in E. lia.
Qed.

Lemma index_raise {X : Type} (a : list X) i :
  length a <= i -> index a i = Raise IndexError.
Proof.
  intros H. unfold index. now rewrite (proj2 (nth_error_None a i) H).
Qed.

Lemma index_inv {X : Type} (a : list X) i x :
  index a i = Ok x -> nth_error a i = Some x.
Proof. unfold index. destruct (nth_error a i); congruence. Qed.

Lemma index_cases {X : Type} (a : list X) i :
  (exists x, index a i = Ok x) \/ index a i = Raise IndexError.
Proof.
  unfold index. destruct (nth_error a i) as [x|]; [left; now exists x|now right].
Qed.

Lemma take_ok {X : Type} (a : list X) period :
  (forall i, In i period -> i < length a) ->
  exists sel, take a period = Ok sel
              /\ Forall2 (fun i x => nth_error a i = Some x) period sel.
Proof.
  induction period as [|i period IH]; intros H; simpl.
  - exists []. split; [reflexivity|constructor].
  - destruct (index_ok a i) as (x & -> & Hx); [apply H; now left|].
    destruct IH as (sel & -> & Hsel); [intros j Hj; apply H; now right|].
    exists (x :: sel). split; [reflexivity|now constructor].
Qed.

Lemma take_inv {X : Type} (a : list X) period : forall sel,
  take a period = Ok sel ->
  Forall2 (fun i x => nth_error a i = Some x) period sel.
Proof.
  induction period as [|i period IH]; intros sel H; simpl in H.
  - injection H as <-. constructor.
  - destruct (index a i) as [x|] eqn:Ei; [|discriminate]. simpl in H.
    destruct (take a period) as [xs|] eqn:Et; [|discriminate]. simpl in H.
    injection H as <-. constructor; [now apply index_inv|now apply IH].
Qed.

Lemma mask_nth {A : Type} (pred : A -> bool) values i :
  nth i (risk_mask pred values) false = true
  <-> exists v, nth_error values i = Some v /\ pred v = true.
Proof.
  unfold risk_mask. split.
  - intros H. destruct (nth_error values i) as [v|] eqn:E.
    + exists v. split; [reflexivity|].
      rewrite <- H. symmetry.
      erewrite nth_indep with (d' := pred v).
      * rewrite map_nth. f_equal. now apply nth_error_nth.
      * rewrite length_map. apply nth_error_Some. congruence.
    + apply nth_error_None in E.
      rewrite nth_overflow in H; [discriminate|now rewrite length_map].
  - intros (v & Hv & Hp).
    erewrite nth_indep with (d' := pred v).
    + rewrite map_nth. now rewrite (nth_error_nth _ _ _ Hv).
    + rewrite length_map. apply nth_error_Some. congruence.
Qed.

Section Extractor.
Context {A P : Type}.
Variable pred : A -> bool.
Variable peak_of : list A -> result P.

Lemma report_period_inv time values period iv :
  report_period peak_of time values period = Ok iv ->
  exists start stop selected peak,
    index time (first_index period) = Ok start
    /\ index time (last_index period) = Ok stop
    /\ take values period = Ok selected
    /\ peak_of selected = Ok peak
    /\ iv = mkInterval start stop (stop - start)%Q peak.
Proof.
  unfold report_period. intros H.
  destruct (index time (first_index period)) as [s|]; [|discriminate].
  destruct (index time (last_index period)) as [e|]; [|discriminate].
  destruct (take values period) as [sel|]; [|discriminate].
  simpl in H. destruct (peak_of sel) as [pk|] eqn:Ep; [|discriminate].
  simpl in H. injection H as <-. now exists s, e, sel, pk.
Qed.

Lemma report_periods_inv time values periods : forall ivs,
  report_periods peak_of time values periods = Ok ivs ->
  Forall2 (fun p iv => report_period peak_of time values p = Ok iv)
          periods ivs.
Proof.
  induction periods as [|p periods IH]; intros ivs H; simpl in H.
  - injection H as <-. constructor.
  - destruct (report_period peak_of time values p) as [iv|] eqn:Ep;
      [|discriminate]. simpl in H.
    destruct (report_periods peak_of time values periods) as [r|];
      [|discriminate]. simpl in H.
    injection H as <-. constructor; [assumption|now apply IH].
Qed.

Lemma report_periods_ok time values periods :
  Forall (fun p => exists iv, report_period peak_of time values p = Ok iv)
         periods ->
  exists ivs, report_periods peak_of time values periods = Ok ivs.
Proof.
  induction 1 as [|p periods (iv & Hiv) _ (ivs & IH)]; simpl.
  - now exists [].
  - rewrite Hiv, IH. now exists (iv :: ivs).
Qed.

Lemma report_periods_raise time values periods e :
  Forall (fun p => (exists iv, report_period peak_of time values p = Ok iv)
                   \/ report_period peak_of time values p = Raise e)
         periods ->
  Exists (fun p => report_period peak_of time values p = Raise e) periods ->
  report_periods peak_of time values periods = Raise e.
Proof.
  induction 1 as [|p periods Hp _ IH]; intros Hex.
  - inversion Hex.
  - simpl. destruct Hp as [(iv & Hiv)|Hr]; [|now rewrite Hr].
    rewrite Hiv. simpl.
    inversion Hex as [? ? Hr|? ? Hr]; subst.
    + congruence.
    + now rewrite (IH Hr).
Qed.

(** Indices of a period address [values]. *)
Lemma period_index_bound values p i :
  In p (risk_periods pred values) -> In i p -> i < length values.
Proof.
  intros Hp Hi. unfold risk_periods in Hp.
  pose proof (period_In_mask _ _ _ Hp Hi) as H.
  apply np_where_In, np_where_bound in H.
  unfold risk_mask in H. now rewrite length_map in H.
Qed.

Lemma period_nonempty values p :
  In p (risk_periods pred values) -> p <> [].
Proof. intros Hp. now destruct (period_is_run _ _ Hp). Qed.

Hypothesis peak_total :
  forall selected, selected <> [] -> exists pk, peak_of selected = Ok pk.

Lemma report_period_cases time values p :
  In p (risk_periods pred values) ->
  (exists iv, report_period peak_of time values p = Ok iv)
  \/ report_period peak_of time values p = Raise IndexError.
Proof.
  intros Hp. unfold report_period.
  destruct (index_cases time (first_index p)) as [(s & ->)| ->];
    [|now right].
  destruct (index_cases time (last_index p)) as [(e & ->)| ->];
    [|now right].
  destruct (take_ok values p) as (sel & -> & Hsel).
  { intros i Hi. eapply period_index_bound; eassumption. }
  destruct (peak_total sel) as (pk & Hpk).
  { intros ->. inversion Hsel; subst.
    now apply (period_nonempty values []). }
  simpl. rewrite Hpk. left. eexists. reflexivity.
Qed.

(** With every risky index inside [time], every period is reported. *)
Lemma extract_intervals_ok time values :
  (forall i, In i (np_where (risk_mask pred values)) -> i < length time) ->
  exists ivs, extract_intervals pred peak_of time values = Ok ivs.
Proof.
  intros Hb. unfold extract_intervals. apply report_periods_ok.
  apply Forall_forall. intros p Hp.
  assert (Hin : forall i, In i p -> i < length time).
  { intros i Hi. apply Hb, np_where_In.
    exact (period_In_mask _ _ _ Hp Hi). }
  pose proof (period_is_run _ _ Hp) as Hrun.
  unfold report_period.
  destruct (index_ok time (first_index p)) as (s & -> & _).
  { apply Hin. now apply run_first_In. }
  destruct (index_ok time (last_index p)) as (e & -> & _).
  { apply Hin. now apply run_last_In. }
  destruct (take_ok values p) as (sel & -> & Hsel).
  { intros i Hi. eapply period_index_bound; eassumption. }
  destruct (peak_total sel) as (pk & Hpk).
  { intros ->. inversion Hsel; subst. now destruct Hrun. }
  simpl. rewrite Hpk. eexists. reflexivity.
Qed.

(** With a risky index beyond [time], the lookup raises. *)
Lemma extract_intervals_raise time values i :
  In i (np_where (risk_mask pred values)) -> length time <= i ->
  extract_intervals pred peak_of time values = Raise IndexError.
Proof.
  intros Hi Hle. unfold extract_intervals.
  apply report_periods_raise.
  - apply Forall_forall. intros p Hp. now apply report_period_cases.
  - apply np_where_In in Hi.
    destruct (mask_In_period _ _ Hi) as (p & Hp & Hip).
    apply Exists_exists. exists p. split; [exact Hp|].
    pose proof (period_is_run _ _ Hp) as Hrun.
    apply (is_run_In _ _ Hrun) in Hip. unfold in_range in Hip.
    unfold report_period.
    destruct (index_cases time (first_index p)) as [(s & ->)| ->];
      [|reflexivity].
    rewrite (index_raise time (last_index p)) by lia. reflexivity.
Qed.

End Extractor.

End ReportFacts.

(** ** Coverage, maximality and order of the risk periods *)

Module PeriodClaims.
Import Runs RunsFacts MaximalFacts Sample Report ReportFacts.

(** C1.  For every boolean risk mask, an index lies in the index range
    [period[0] .. period[-1]] of some period built by the grouping loop
    exactly when the mask holds there, so the union of the ranges is the
    set of risky indices and no range contains an index where the mask is
    false; for a routine that builds its mask from a threshold test [pred],
    these are exactly the indices whose sample satisfies [pred]. *)
Theorem risk_intervals_cover_exactly :
  (forall (mask : list bool) (i : nat),
      (exists p, In p (group_consecutive (np_where mask)) /\ in_range p i)
      <-> nth i mask false = true)
  /\ (forall (mask : list bool) (p : list nat) (i : nat),
         In p (group_consecutive (np_where mask)) -> in_range p i ->
         nth i mask false <> false)
  /\ (forall (A : Type) (pred : A -> bool) (values : list A) (i : nat),
         (exists p, In p (risk_periods pred values) /\ in_range p i)
         <-> exists v, nth_error values i = Some v /\ pred v = true).
Proof.
  assert (H1 : forall mask i,
             (exists p, In p (group_consecutive (np_where mask))
                        /\ in_range p i)
             <-> nth i mask false = true).
  { intros mask i. split.
    - intros (p & Hp & Hr).
      apply (period_In_mask mask p i Hp).
      now apply (is_run_In p i (period_is_run mask p Hp)).
    - intros H. destruct (mask_In_period mask i H) as (p & Hp & Hi).
      exists p. split; [exact Hp|].
      now apply (is_run_In p i (period_is_run mask p Hp)). }
  split; [exact H1|]. split.
  - intros mask p i Hp Hr Hf.
    assert (Ht : nth i mask false = true) by (apply H1; now exists p).
    congruence.
  - intros A pred values i. unfold risk_periods.
    rewrite H1. apply mask_nth.
Qed.

(** C2.  The periods built from a mask are runs of consecutive indices;
    two adjacent risky indices fall in the same period; consecutive periods
    are separated by an index where the mask is false, and the index right
    after and right before each period is not risky (maximality); every
    index between two indices of a period is in that period and risky, so a
    false index always lies between two different periods; their
    concatenation, in the order returned, is the strictly ascending list of
    risky indices (no overlap, scan order).  The grouping reads indices
    only: the reported intervals are the periods in order, each with its
    times looked up at the first and last index of the period. *)
Theorem risk_periods_maximal_disjoint_ordered :
  (forall mask : list bool,
      Forall is_run (group_consecutive (np_where mask)))
  /\ (forall (mask : list bool) (i : nat),
         nth i mask false = true -> nth (S i) mask false = true ->
         exists p, In p (group_consecutive (np_where mask))
                   /\ In i p /\ In (S i) p)
  /\ (forall (mask : list bool) l1 p q l2,
         group_consecutive (np_where mask) = l1 ++ p :: q :: l2 ->
         last_index p + 1 < first_index q
         /\ nth (last_index p + 1) mask false = false)
  /\ (forall (mask : list bool) p,
         In p (group_consecutive (np_where mask)) ->
         nth (last_index p + 1) mask false = false
         /\ (forall j, j + 1 = first_index p -> nth j mask false = false))
  /\ (forall (mask : list bool) p i j k,
         In p (group_consecutive (np_where mask)) ->
         In i p -> In k p -> i <= j <= k ->
         In j p /\ nth j mask false = true)
  /\ (forall mask : list bool,
         concat (group_consecutive (np_where mask)) = np_where mask
         /\ StronglySorted lt (concat (group_consecutive (np_where mask))))
  /\ (forall (A P : Type) (pred : A -> bool) (peak_of : list A -> result P)
             (time : list Q) (values : list A) ivs,
         extract_intervals pred peak_of time values = Ok ivs ->
         Forall2 (fun p iv =>
                    nth_error time (first_index p) = Some (start_time iv)
                    /\ nth_error time (last_index p) = Some (end_time iv))
                 (risk_periods pred values) ivs).
Proof.
  split; [intros mask; apply group_consecutive_runs|].
  split.
  { intros mask i Hi Hsi.
    destruct (mask_In_period mask i Hi) as (p & Hp & Hip).
    exists p. split; [exact Hp|]. split; [exact Hip|].
    pose proof (period_is_run mask p Hp) as Hrun.
    destruct (period_bounds_false mask p Hp) as [Hafter _].
    apply (is_run_In p i Hrun) in Hip.
    apply (is_run_In p (S i) Hrun). unfold in_range in *.
    destruct (Nat.eq_dec i (last_index p)) as [->|Hne].
    - rewrite Nat.add_1_r in Hafter. congruence.
    - lia. }
  split.
  { intros mask l1 p q l2 E.
    pose proof (group_consecutive_separated _ (np_where_sorted mask)) as Hs.
    rewrite E in Hs. split; [exact (separated_split _ _ _ _ Hs)|].
    refine (proj1 (period_bounds_false mask p _)).
    rewrite E. apply in_or_app. right. now left. }
  split; [intros mask p; apply period_bounds_false|].
  split.
  { intros mask p i j k Hp Hi Hk Hj.
    pose proof (period_is_run mask p Hp) as Hrun.
    apply (is_run_In p i Hrun) in Hi. apply (is_run_In p k Hrun) in Hk.
    assert (Hjp : In j p).
    { apply (is_run_In p j Hrun). unfold in_range in *. lia. }
    split; [exact Hjp|exact (period_In_mask mask p j Hp Hjp)]. }
  split.
  { intros mask. rewrite group_consecutive_concat.
    split; [reflexivity|apply np_where_sorted]. }
  intros A P pred peak_of time values ivs H.
  unfold extract_intervals in H. apply report_periods_inv in H.
  eapply Forall2_impl; [|exact H].
  intros p iv Hr. simpl in Hr.
  apply report_period_inv in Hr.
  destruct Hr as (s & e & sel & pk & Hs & He & _ & _ & ->). simpl.
  split; now apply index_inv.
Qed.

End PeriodClaims.

(** ** Peak values *)

Module PeakFacts.
Import Runs RunsFacts MaximalFacts Sample Report ReportFacts Peak.
Local Open Scope Q_scope.

Lemma qmax_cases a b : qmax a b = a \/ qmax a b = b.
Proof. unfold qmax. destruct (Qle_bool a b); auto. Qed.

Lemma qmax_ge a b : a <= qmax a b /\ b <= qmax a b.
Proof.
  unfold qmax. destruct (Qle_bool a b) eqn:E.
  - apply Qle_bool_iff in E. split; [exact E|apply Qle_refl].
  - split; [apply Qle_refl|].
    destruct (Qlt_le_dec a b) as [Hlt|Hle]; [|exact Hle].
    apply Qlt_le_weak, Qle_bool_iff in Hlt. congruence.
Qed.

Lemma qmin_cases a b : qmin a b = a \/ qmin a b = b.
Proof. unfold qmin. destruct (Qle_bool a b); auto. Qed.

Lemma qmin_le a b : qmin a b <= a /\ qmin a b <= b.
Proof.
  unfold qmin. destruct (Qle_bool a b) eqn:E.
  - apply Qle_bool_iff in E. split; [apply Qle_refl|exact E].
  - split; [|apply Qle_refl].
    destruct (Qlt_le_dec a b) as [Hlt|Hle]; [|exact Hle].
    apply Qlt_le_weak, Qle_bool_iff in Hlt. congruence.
Qed.

Lemma fold_qmax_In l : forall v, In (fold_left qmax l v) (v :: l).
Proof.
  induction l as [|x l IH]; intros v; simpl.
  - now left.
  - destruct (IH (qmax v x)) as [H|H].
    + rewrite <- H.
      destruct (qmax_cases v x) as [E|E]; rewrite E; [left|right; left];
        reflexivity.
    + right. right. exact H.
Qed.

Lemma fold_qmax_ge l : forall v x,
  In x (v :: l) -> x <= fold_left qmax l v.
Proof.
  induction l as [|y l IH]; intros v x Hx; simpl.
  - destruct Hx as [<-|[]]. apply Qle_refl.
  - destruct (qmax_ge v y) as [Hv Hy].
    destruct Hx as [<-|[<-|Hx]].
    + eapply Qle_trans; [exact Hv|]. apply IH. now left.
    + eapply Qle_trans; [exact Hy|]. apply IH. now left.
    + apply IH. now right.
Qed.

Lemma fold_qmin_In l : forall v, In (fold_left qmin l v) (v :: l).
Proof.
  induction l as [|x l IH]; intros v; simpl.
  - now left.
  - destruct (IH (qmin v x)) as [H|H].
    + rewrite <- H.
      destruct (qmin_cases v x) as [E|E]; rewrite E; [left|right; left];
        reflexivity.
    + right. right. exact H.
Qed.

Lemma fold_qmin_le l : forall v x,
  In x (v :: l) -> fold_left qmin l v <= x.
Proof.
  induction l as [|y l IH]; intros v x Hx; simpl.
  - destruct Hx as [<-|[]]. apply Qle_refl.
  - destruct (qmin_le v y) as [Hv Hy].
    destruct Hx as [<-|[<-|Hx]].
    + eapply Qle_trans; [|exact Hv]. apply IH. now left.
    + eapply Qle_trans; [|exact Hy]. apply IH. now left.
    + apply IH. now right.
Qed.

Lemma np_max_spec a pk :
  np_max a = Ok pk -> In pk a /\ (forall x, In x a -> x <= pk).
Proof.
  destruct a as [|v a]; simpl; [discriminate|].
  intros H. injection H as <-. split.
  - apply fold_qmax_In.
  - intros x Hx. now apply fold_qmax_ge.
Qed.

Lemma np_min_spec a pk :
  np_min a = Ok pk -> In pk a /\ (forall x, In x a -> pk <= x).
Proof.
  destruct a as [|v a]; simpl; [discriminate|].
  intros H. injection H as <-. split.
  - apply fold_qmin_In.
  - intros x Hx. now apply fold_qmin_le.
Qed.

Lemma np_max_total a : a <> [] -> exists pk, np_max a = Ok pk.
Proof. destruct a; [congruence|]. intros _. eexists. reflexivity. Qed.

Lemma np_min_total a : a <> [] -> exists pk, np_min a = Ok pk.
Proof. destruct a; [congruence|]. intros _. eexists. reflexivity. Qed.

Lemma max_abs_total a : a <> [] -> exists pk, Posture.max_abs a = Ok pk.
Proof. destruct a; [congruence|]. intros _. eexists. reflexivity. Qed.

Lemma selected_In_r {X : Type} (values : list X) p sel x :
  Forall2 (fun i y => nth_error values i = Some y) p sel ->
  In x sel -> exists i, In i p /\ nth_error values i = Some x.
Proof.
  induction 1 as [|i y p sel Hy _ IH]; intros Hx.
  - destruct Hx.
  - destruct Hx as [<-|Hx].
    + exists i. split; [now left|exact Hy].
    + destruct (IH Hx) as (j & Hj & Hv). exists j. split; [now right|exact Hv].
Qed.

Lemma selected_In_l {X : Type} (values : list X) p sel i v :
  Forall2 (fun i y => nth_error values i = Some y) p sel ->
  In i p -> nth_error values i = Some v -> In v sel.
Proof.
  induction 1 as [|k y p sel Hy _ IH]; intros Hi Hv.
  - destruct Hi.
  - destruct Hi as [->|Hi].
    + left. congruence.
    + right. now apply IH.
Qed.

(** The intervals are the periods in order, each with the peak of its own
    samples. *)
Lemma extract_intervals_peaks {A P : Type} (pred : A -> bool)
      (peak_of : list A -> result P) time values ivs :
  extract_intervals pred peak_of time values = Ok ivs ->
  Forall2 (fun p iv =>
             exists sel,
               Forall2 (fun i x => nth_error values i = Some x) p sel
               /\ peak_of sel = Ok (peak_value iv))
          (risk_periods pred values) ivs.
Proof.
  intros H. unfold extract_intervals in H. apply report_periods_inv in H.
  eapply Forall2_impl; [|exact H].
  intros p iv Hr. simpl in Hr. apply report_period_inv in Hr.
  destruct Hr as (s & e & sel & pk & _ & _ & Hsel & Hpk & ->). simpl.
  exists sel. split; [now apply take_inv|exact Hpk].
Qed.

Lemma max_signed_of values p sel pk :
  Forall2 (fun i x => nth_error values i = Some x) p sel ->
  np_max sel = Ok pk -> max_signed values p pk.
Proof.
  intros Hsel Hpk. apply np_max_spec in Hpk. destruct Hpk as [Hin Hub].
  split.
  - exact (selected_In_r values p sel pk Hsel Hin).
  - intros j v Hj Hv. apply Hub. exact (selected_In_l values p sel j v Hsel Hj Hv).
Qed.

Lemma min_signed_of values p sel pk :
  Forall2 (fun i x => nth_error values i = Some x) p sel ->
  np_min sel = Ok pk -> min_signed values p pk.
Proof.
  intros Hsel Hpk. apply np_min_spec in Hpk. destruct Hpk as [Hin Hlb].
  split.
  - exact (selected_In_r values p sel pk Hsel Hin).
  - intros j v Hj Hv. apply Hlb. exact (selected_In_l values p sel j v Hsel Hj Hv).
Qed.

Lemma max_magnitude_of values p sel pk :
  Forall2 (fun i x => nth_error values i = Some x) p sel ->
  Posture.max_abs sel = Ok pk -> max_magnitude values p pk.
Proof.
  intros Hsel Hpk. unfold Posture.max_abs, np_abs in Hpk.
  apply np_max_spec in Hpk. destruct Hpk as [Hin Hub].
  apply in_map_iff in Hin. destruct Hin as (v & <- & Hv).
  split.
  - destruct (selected_In_r values p sel v Hsel Hv) as (j & Hj & Hjv).
    now exists j, v.
  - intros j w Hj Hw. apply Hub, in_map.
    exact (selected_In_l values p sel j w Hsel Hj Hw).
Qed.

End PeakFacts.

(** ** Reported intervals *)

Module IntervalClaims.
Import Runs RunsFacts MaximalFacts Sample Report ReportFacts Peak PeakFacts.
Import Posture.
Local Open Scope Q_scope.

(** C3, as stated, fails on the magnitude rules.  A trunk lean of -20
    degrees at the only sample is one risk period whose reported peak is
    20: [np.max(np.abs(...))] returns the magnitude, the sign of the sample
    is gone. *)
Lemma trunk_lean_peak_drops_sign :
  trunk_lean_risks [0] [-20] = Ok [mkInterval 0 0 0 20]
  /\ risk_periods (abs_gt lean_threshold) [-20] = [[0%nat]]
  /\ ~ max_magnitude_signed [-20] [0%nat] 20.
Proof.
  split; [reflexivity|]. split; [reflexivity|].
  intros (j & v & Hj & Hv & Heq & _).
  destruct Hj as [<-|[]]. simpl in Hv. injection Hv as <-.
  discriminate Heq.
Qed.

(** C3, amended.  For a magnitude rule (trunk lean, foot pronation, pelvic
    tilt) the peak reported for each risk interval is the largest absolute
    value among the samples of the interval; for the greater-than rule
    (knee valgus) it is the largest signed sample and for the less-than rule
    (knee varus) the smallest signed sample of the interval.  The kinematic
    check reports the largest absolute value of the whole series. *)
Theorem reported_peak_is_extremum :
  (forall time values ivs,
      trunk_lean_risks time values = Ok ivs ->
      Forall2 (fun p iv => max_magnitude values p (peak_value iv))
              (risk_periods (abs_gt lean_threshold) values) ivs)
  /\ (forall time values ivs,
         foot_pronation_risks time values = Ok ivs ->
         Forall2 (fun p iv => max_magnitude values p (peak_value iv))
                 (risk_periods (abs_gt pronation_threshold) values) ivs)
  /\ (forall time values ivs,
         pelvic_tilt_risks time values = Ok ivs ->
         Forall2 (fun p iv => max_magnitude values p (peak_value iv))
                 (risk_periods (abs_gt tilt_threshold) values) ivs)
  /\ (forall time values ivs,
         knee_valgus_risks time values = Ok ivs ->
         Forall2 (fun p iv => max_signed values p (peak_value iv))
                 (risk_periods (gt valgus_threshold) values) ivs)
  /\ (forall time values ivs,
         knee_varus_risks time values = Ok ivs ->
         Forall2 (fun p iv => min_signed values p (peak_value iv))
                 (risk_periods (lt varus_threshold) values) ivs)
  /\ (forall measure_values pk,
         Kinematic.peak_value measure_values = Ok pk ->
         (exists v, In v measure_values /\ pk = Qabs v)
         /\ (forall v, In v measure_values -> Qabs v <= pk)).
Proof.
  assert (Habs : forall t time values ivs,
             extract_intervals (abs_gt t) max_abs time values = Ok ivs ->
             Forall2 (fun p iv => max_magnitude values p (peak_value iv))
                     (risk_periods (abs_gt t) values) ivs).
  { intros t time values ivs H. apply extract_intervals_peaks in H.
    eapply Forall2_impl; [|exact H].
    intros p iv (sel & Hsel & Hpk). now apply (max_magnitude_of values p sel). }
  split; [apply Habs|]. split; [apply Habs|]. split; [apply Habs|].
  split.
  { intros time values ivs H. apply extract_intervals_peaks in H.
    eapply Forall2_impl; [|exact H].
    intros p iv (sel & Hsel & Hpk). now apply (max_signed_of values p sel). }
  split.
  { intros time values ivs H. apply extract_intervals_peaks in H.
    eapply Forall2_impl; [|exact H].
    intros p iv (sel & Hsel & Hpk). now apply (min_signed_of values p sel). }
  intros mv pk H. unfold Kinematic.peak_value, np_abs in H.
  apply np_max_spec in H. destruct H as [Hin Hub]. split.
  - apply in_map_iff in Hin. destruct Hin as (v & <- & Hv). now exists v.
  - intros v Hv. apply Hub. now apply in_map.
Qed.

(** C5.  The worked example of the greater-than rule: with the knee valgus
    threshold of 10 the samples 1, 2, 11, 12, 13, 2, 1 at times 0..6 give one
    interval, from 2 to 4, of duration 2 and peak 13. *)
Theorem example_greater_than_one_interval :
  knee_valgus_risks [0; 1; 2; 3; 4; 5; 6] [1; 2; 11; 12; 13; 2; 1]
  = Ok [mkInterval 2 4 2 13]
  /\ extract_intervals (gt 10) np_max
                       [0; 1; 2; 3; 4; 5; 6] [1; 2; 11; 12; 13; 2; 1]
     = Ok [mkInterval 2 4 2 13].
Proof. split; reflexivity. Qed.

(** A risky index with no risky neighbour is a period of its own. *)
Lemma isolated_index_period mask i :
  nth i mask false = true ->
  (forall j, j + 1 = i -> nth j mask false = false)%nat ->
  nth (i + 1) mask false = false ->
  In [i] (group_consecutive (np_where mask)).
Proof.
  intros Hi Hbefore Hafter.
  destruct (mask_In_period mask i Hi) as (p & Hp & Hip).
  pose proof (period_is_run mask p Hp) as Hrun.
  pose proof (is_run_last p Hrun) as Hl.
  assert (Hmem : forall k, in_range p k -> nth k mask false = true).
  { intros k Hk. apply (period_In_mask mask p k Hp).
    now apply (is_run_In p k Hrun). }
  apply (is_run_In p i Hrun) in Hip. unfold in_range in *.
  assert (Hf : first_index p = i).
  { destruct (Nat.eq_dec (first_index p) i) as [E|Hne]; [exact E|].
    assert (Hk : nth (i - 1) mask false = true) by (apply Hmem; lia).
    rewrite Hbefore in Hk by lia. discriminate. }
  assert (Hla : last_index p = i).
  { destruct (Nat.eq_dec (last_index p) i) as [E|Hne]; [exact E|].
    assert (Hk : nth (i + 1) mask false = true) by (apply Hmem; lia).
    congruence. }
  destruct Hrun as [Hne Hseq].
  assert (Hlen : length p = 1%nat).
  { destruct p; [congruence|simpl in *; lia]. }
  rewrite Hseq, Hf, Hlen in Hp. exact Hp.
Qed.

(** C6.  The worked example of the less-than rule: the samples -20, -5, -15
    at times 0, 1, 2 under [v < -10] (and under the knee varus threshold of
    -8) give two single-sample intervals with peaks -20 and -15.  In
    general a risky sample without risky neighbours is a period of length
    one, and a period of length one is reported with equal start and end
    time, a duration equal to 0 and the sample itself as peak. *)
Theorem example_less_than_single_sample_runs :
  extract_intervals (lt (-10)) np_min [0; 1; 2] [-20; -5; -15]
  = Ok [mkInterval 0 0 0 (-20); mkInterval 2 2 0 (-15)]
  /\ knee_varus_risks [0; 1; 2] [-20; -5; -15]
     = Ok [mkInterval 0 0 0 (-20); mkInterval 2 2 0 (-15)]
  /\ (forall (mask : list bool) (i : nat),
         nth i mask false = true ->
         (forall j, j + 1 = i -> nth j mask false = false)%nat ->
         nth (i + 1) mask false = false ->
         In [i] (group_consecutive (np_where mask)))
  /\ (forall (time values : list Q) (i : nat) (t v : Q),
         nth_error time i = Some t -> nth_error values i = Some v ->
         exists iv,
           report_period np_min time values [i] = Ok iv
           /\ report_period np_max time values [i] = Ok iv
           /\ start_time iv = t /\ end_time iv = t
           /\ duration iv == 0 /\ peak_value iv = v).
Proof.
  split; [reflexivity|]. split; [reflexivity|].
  split; [exact isolated_index_period|].
  intros time values i t v Ht Hv.
  exists (mkInterval t t (t - t) v).
  assert (Hsel : take values [i] = Ok [v]).
  { simpl. unfold index. now rewrite Hv. }
  unfold report_period. rewrite Hsel.
  unfold first_index, last_index, index. simpl. rewrite Ht. simpl.
  repeat split; try reflexivity.
  unfold Qminus. apply Qplus_opp_r.
Qed.

Lemma np_where_from_all_false mask : forall s,
  (forall b, In b mask -> b = false) -> np_where_from s mask = [].
Proof.
  induction mask as [|b mask IH]; intros s H; simpl.
  - reflexivity.
  - rewrite (H b) by now left. apply IH. intros c Hc. apply H. now right.
Qed.

(** C7.  When no sample satisfies the threshold test, and in particular
    when the series is empty, extraction returns the empty list of
    intervals and raises nothing, whatever the time sequence is. *)
Theorem no_violation_no_interval :
  forall (A P : Type) (pred : A -> bool) (peak_of : list A -> result P)
         (time : list Q) (values : list A),
    (forall v, In v values -> pred v = false) ->
    extract_intervals pred peak_of time values = Ok [].
Proof.
  intros A P pred peak_of time values H.
  unfold extract_intervals, risk_periods, np_where.
  rewrite np_where_from_all_false; [reflexivity|].
  intros b Hb. unfold risk_mask in Hb. apply in_map_iff in Hb.
  destruct Hb as (v & <- & Hv). now apply H.
Qed.

Lemma no_violation_no_interval_witness :
  trunk_lean_risks [0; 1; 2] [3; -14; 15] = Ok []
  /\ knee_varus_risks [] [] = Ok []
  /\ Muscle.hq_risks [0] [Fin (7 # 10); NaN] [Fin 1; Fin 0] = Ok [].
Proof.
  split; [|split].
  - apply (no_violation_no_interval Q Q (abs_gt lean_threshold) max_abs).
    intros v [<-|[<-|[<-|[]]]]; reflexivity.
  - apply (no_violation_no_interval Q Q (lt varus_threshold) np_min).
    intros v [].
  - apply (no_violation_no_interval fval fval
             (fun r => flt r Muscle.hq_threshold)
             (fun selected => Ok (series_min selected))).
    intros v [<-|[<-|[]]]; reflexivity.
Defined.

End IntervalClaims.

(** ** The hamstring/quadriceps check *)

Module MuscleClaims.
Import Runs RunsFacts MaximalFacts Sample Report ReportFacts.
Import Muscle.
Local Open Scope Q_scope.

(** C4, as stated, fails.  With two time stamps for one sample, and with
    one time stamp for two samples of which only the first is risky, the
    check returns an interval and raises nothing. *)
Lemma mismatched_lengths_not_signaled :
  (length [0; 1] <> length [Fin (1 # 10)]
   /\ hq_risks [0; 1] [Fin (1 # 10)] [Fin 1]
      = Ok [mkInterval 0 0 0 (Fin (1 # 10))])
  /\ (length [0] <> length [Fin (1 # 10); Fin 1]
      /\ hq_risks [0] [Fin (1 # 10); Fin 1] [Fin 1; Fin 1]
         = Ok [mkInterval 0 0 0 (Fin (1 # 10))]).
Proof.
  split; (split; [discriminate|reflexivity]).
Qed.

Lemma series_div_nth a : forall b i v,
  nth_error (series_div a b) i = Some v ->
  exists x y, nth_error a i = Some x /\ nth_error b i = Some y
              /\ v = fdiv x y.
Proof.
  induction a as [|x a IH]; intros b i v H.
  - destruct i; discriminate.
  - destruct b as [|y b]; [destruct i; discriminate|].
    destruct i as [|i]; simpl in *.
    + injection H as <-. now exists x, y.
    + now apply IH.
Qed.

Lemma fdiv_nan_r x : fdiv x NaN = NaN.
Proof. destruct x; reflexivity. Qed.

Lemma replace_zero_nan_nth quad i d :
  nth_error quad i = Some d ->
  nth_error (replace_zero_nan quad) i
  = Some (if is_zero d then NaN else d).
Proof.
  intros H. unfold replace_zero_nan.
  now rewrite nth_error_map, H.
Qed.

(** C10.  A sample whose mean quadriceps activation is zero is NaN in the
    divisor, the divisor series holds no zero at all, the ratio at that
    sample is NaN, and the sample lies in the index range of no risk
    period. *)
Theorem zero_quadriceps_never_at_risk :
  forall (ham quad : list fval) (i : nat) (q : Q),
    nth_error quad i = Some (Fin q) -> q == 0 ->
    nth_error (replace_zero_nan quad) i = Some NaN
    /\ Forall (fun d => is_zero d = false) (replace_zero_nan quad)
    /\ (forall r, nth_error (hq_ratio ham quad) i = Some r -> r = NaN)
    /\ (forall p,
           In p (risk_periods (fun r => flt r hq_threshold)
                              (hq_ratio ham quad)) ->
           ~ in_range p i).
Proof.
  intros ham quad i q Hq Hz.
  assert (Hrep : nth_error (replace_zero_nan quad) i = Some NaN).
  { rewrite (replace_zero_nan_nth quad i (Fin q) Hq). simpl.
    now rewrite (proj2 (Qeq_bool_iff q 0) Hz). }
  assert (Hnan : forall r, nth_error (hq_ratio ham quad) i = Some r ->
                           r = NaN).
  { intros r Hr. unfold hq_ratio in Hr. apply series_div_nth in Hr.
    destruct Hr as (x & y & _ & Hy & ->).
    rewrite Hrep in Hy. injection Hy as <-. apply fdiv_nan_r. }
  split; [exact Hrep|]. split.
  - unfold replace_zero_nan. apply Forall_forall. intros d Hd.
    apply in_map_iff in Hd. destruct Hd as (v & <- & _).
    destruct (is_zero v) eqn:E; [reflexivity|exact E].
  - split; [exact Hnan|].
    intros p Hp Hr.
    pose proof (period_is_run _ p Hp) as Hrun.
    apply (is_run_In p i Hrun) in Hr.
    pose proof (period_In_mask _ p i Hp Hr) as Hm.
    apply mask_nth in Hm. destruct Hm as (r & Er & Hlt).
    rewrite (Hnan r Er) in Hlt. discriminate.
Qed.

Lemma zero_quadriceps_never_at_risk_witness :
  nth_error (replace_zero_nan [Fin (1 # 2); Fin 0]) 1 = Some NaN
  /\ Forall (fun d => is_zero d = false)
            (replace_zero_nan [Fin (1 # 2); Fin 0])
  /\ (forall r,
         nth_error (hq_ratio [Fin (1 # 10); Fin (1 # 10)]
                             [Fin (1 # 2); Fin 0]) 1 = Some r ->
         r = NaN)
  /\ (forall p,
         In p (risk_periods (fun r => flt r hq_threshold)
                            (hq_ratio [Fin (1 # 10); Fin (1 # 10)]
                                      [Fin (1 # 2); Fin 0])) ->
         ~ in_range p 1).
Proof.
  apply (zero_quadriceps_never_at_risk
           [Fin (1 # 10); Fin (1 # 10)] [Fin (1 # 2); Fin 0] 1%nat 0).
  - reflexivity.
  - reflexivity.
Defined.

End MuscleClaims.

(** ** The overall risk level *)

Module SummaryClaims.
Import Sample Spec.
Local Open Scope Q_scope.

Lemma muscle_overall_risk_spec count d :
  Muscle.overall_risk count d = level_name (risk_level count d).
Proof.
  unfold Muscle.overall_risk, risk_level.
  destruct (5 <? count)%nat, (Qltb 2 d), (2 <? count)%nat, (Qltb 1 d);
    reflexivity.
Qed.

Lemma posture_overall_risk_spec count d :
  Posture.overall_risk count d = level_name (risk_level count d).
Proof.
  unfold Posture.overall_risk, risk_level.
  destruct (5 <? count)%nat, (Qltb 2 d), (2 <? count)%nat, (Qltb 1 d);
    reflexivity.
Qed.

Lemma filter_valid_entries rs :
  filter Posture.is_valid (map as_entry rs) = map as_entry rs.
Proof.
  induction rs as [|r rs IH]; simpl; [reflexivity|now rewrite IH].
Qed.

Lemma durations_entries rs :
  Posture.durations (map as_entry rs) = map Muscle.duration_s rs.
Proof.
  induction rs as [|r rs IH]; simpl; [reflexivity|now rewrite IH].
Qed.

(** C8.  The two [if]/[elif] chains compute the claimed classification of
    (count, total duration); [summarize_injury_risks] applies it to the
    number of risks and the sum of their durations, the summary section of
    [extract_motion_risk] to the number and the summed durations of the
    entries without an error; on the same risks both return the same level
    and count, the empty list included. *)
Theorem overall_risk_level_same_function :
  (forall count d,
      Muscle.overall_risk count d = level_name (risk_level count d)
      /\ Posture.overall_risk count d = level_name (risk_level count d))
  /\ (forall risk_metrics,
         Muscle.summarize_injury_risks risk_metrics
         = (level_name (risk_level
                          (length risk_metrics)
                          (Muscle.py_sum
                             (map Muscle.duration_s risk_metrics))),
            length risk_metrics))
  /\ (forall risks,
         Posture.summary risks
         = (level_name (risk_level
                          (length (filter Posture.is_valid risks))
                          (Posture.py_sum
                             (Posture.durations
                                (filter Posture.is_valid risks)))),
            length (filter Posture.is_valid risks)))
  /\ (forall risk_metrics,
         Muscle.summarize_injury_risks risk_metrics
         = Posture.summary (map as_entry risk_metrics)).
Proof.
  assert (Hm : forall risk_metrics,
             Muscle.summarize_injury_risks risk_metrics
             = (level_name (risk_level
                              (length risk_metrics)
                              (Muscle.py_sum
                                 (map Muscle.duration_s risk_metrics))),
                length risk_metrics)).
  { intros [|r rs]; [reflexivity|].
    unfold Muscle.summarize_injury_risks.
    now rewrite muscle_overall_risk_spec. }
  assert (Hp : forall risks,
             Posture.summary risks
             = (level_name (risk_level
                              (length (filter Posture.is_valid risks))
                              (Posture.py_sum
                                 (Posture.durations
                                    (filter Posture.is_valid risks)))),
                length (filter Posture.is_valid risks))).
  { intros risks. unfold Posture.summary.
    destruct (filter Posture.is_valid risks) as [|e es]; [reflexivity|].
    now rewrite posture_overall_risk_spec. }
  split.
  { intros count d. split;
      [apply muscle_overall_risk_spec|apply posture_overall_risk_spec]. }
  split; [exact Hm|]. split; [exact Hp|].
  intros rs. rewrite Hm, Hp.
  rewrite filter_valid_entries, durations_entries, length_map.
  reflexivity.
Qed.

End SummaryClaims.

(** ** Velocity and acceleration *)

Module KinematicClaims.
Import Sample Kinematic.
Local Open Scope Q_scope.

Lemma np_diff_length x : length (np_diff x) = (length x - 1)%nat.
Proof.
  induction x as [|a x IH]; [reflexivity|].
  destruct x as [|b x]; [reflexivity|].
  change (np_diff (a :: b :: x)) with ((b - a) :: np_diff (b :: x)).
  simpl length in *. rewrite IH. lia.
Qed.

Lemma interior_uniform_length f dx :
  length (interior_uniform f dx) = (length f - 2)%nat.
Proof.
  induction f as [|f0 f IH]; [reflexivity|].
  destruct f as [|f1 [|f2 f]]; [reflexivity|reflexivity|].
  change (interior_uniform (f0 :: f1 :: f2 :: f) dx)
    with (((f2 - f0) / (2 * dx)) :: interior_uniform (f1 :: f2 :: f) dx).
  simpl length in *. rewrite IH. lia.
Qed.

Lemma interior_nonuniform_step f0 f1 f2 f dx1 dx2 d :
  interior_nonuniform (f0 :: f1 :: f2 :: f) (dx1 :: dx2 :: d)
  = (- dx2 / (dx1 * (dx1 + dx2)) * f0 + (dx2 - dx1) / (dx1 * dx2) * f1
     + dx1 / (dx2 * (dx1 + dx2)) * f2)
      :: interior_nonuniform (f1 :: f2 :: f) (dx2 :: d).
Proof. reflexivity. Qed.

Lemma interior_nonuniform_length f : forall d,
  length d = (length f - 1)%nat ->
  length (interior_nonuniform f d) = (length f - 2)%nat.
Proof.
  induction f as [|f0 f IH]; intros d Hd; [reflexivity|].
  destruct f as [|f1 [|f2 f]]; [reflexivity|reflexivity|].
  destruct d as [|dx1 [|dx2 d]]; [discriminate|discriminate|].
  rewrite interior_nonuniform_step.
  change (length (?h :: ?t)) with (S (length t)).
  rewrite (IH (dx2 :: d)); simpl length in *; lia.
Qed.

Lemma np_gradient_ok f x :
  length x = length f -> (2 <= length f)%nat ->
  exists g, np_gradient f x = Ok g /\ length g = length f.
Proof.
  intros Hlen H2. unfold np_gradient.
  rewrite Hlen, Nat.eqb_refl. simpl negb. cbv iota.
  pose proof (np_diff_length x) as Hd.
  destruct (np_diff x) as [|d0 d] eqn:Ed; [simpl in Hd; lia|].
  destruct f as [|f0 [|f1 f]]; [simpl in H2; lia|simpl in H2; lia|].
  destruct (forallb (Qeq_bool d0) (d0 :: d)).
  - eexists. split; [reflexivity|].
    change (length (?h :: ?t)) with (S (length t)).
    rewrite length_app, interior_uniform_length. simpl. lia.
  - eexists. split; [reflexivity|].
    change (length (?h :: ?t)) with (S (length t)).
    rewrite length_app, interior_nonuniform_length; simpl length in *; lia.
Qed.

Lemma np_gradient_mismatch f x :
  length x <> length f -> np_gradient f x = Raise ValueError.
Proof.
  intros H. unfold np_gradient.
  now rewrite (proj2 (Nat.eqb_neq _ _) H).
Qed.

(** C9, as stated, fails.  Three angles with two time stamps pass the
    length test of the function, and [np.gradient] then raises
    [ValueError]. *)
Lemma three_points_still_value_error :
  (3 <= length [0; 1; 2])%nat
  /\ compute_velocity_and_acceleration [0; 1; 2] [0; 1]
                                       default_min_data_points
     = Raise ValueError.
Proof. split; [apply Nat.le_refl|reflexivity]. Qed.

(** C9, amended.  With the default [min_data_points] of 3 the function
    raises [ValueError] when it has fewer than 3 angles, and also when it
    has at least 3 and the time sequence has another length; for at least 3
    angles and a time sequence of the same length it returns velocities
    and accelerations, each as long as the input. *)
Theorem value_error_iff_short_or_mismatched :
  (forall angles time,
      (length angles < 3)%nat ->
      compute_velocity_and_acceleration angles time default_min_data_points
      = Raise ValueError)
  /\ (forall angles time,
         (3 <= length angles)%nat -> length time <> length angles ->
         compute_velocity_and_acceleration angles time
                                           default_min_data_points
         = Raise ValueError)
  /\ (forall angles time,
         (3 <= length angles)%nat -> length time = length angles ->
         exists velocities accelerations,
           compute_velocity_and_acceleration angles time
                                             default_min_data_points
           = Ok (velocities, accelerations)
           /\ length velocities = length angles
           /\ length accelerations = length angles).
Proof.
  unfold compute_velocity_and_acceleration, default_min_data_points.
  split; [|split].
  - intros angles time H.
    now rewrite (proj2 (Nat.ltb_lt _ _) H).
  - intros angles time H3 Hne.
    rewrite (proj2 (Nat.ltb_ge _ _) H3).
    now rewrite (np_gradient_mismatch angles time Hne).
  - intros angles time H3 Heq.
    rewrite (proj2 (Nat.ltb_ge _ _) H3).
    destruct (np_gradient_ok angles time Heq) as (v & Ev & Hv); [lia|].
    destruct (np_gradient_ok v time) as (a & Ea & Ha); [lia|lia|].
    rewrite Ev. simpl. rewrite Ea. simpl.
    exists v, a. repeat split; lia.
Qed.

End KinematicClaims.

(** ** Every reported interval violates its threshold, in time order *)

Module ExtractorFacts.
Import Runs RunsFacts MaximalFacts Sample Report ReportFacts Peak PeakFacts.
Local Open Scope Q_scope.

Lemma Qltb_lt x y : Qltb x y = true <-> x < y.
Proof.
  unfold Qltb. rewrite negb_true_iff. split.
  - intros H. apply Qnot_le_lt. intros Hle.
    apply Qle_bool_iff in Hle. congruence.
  - intros H. destruct (Qle_bool y x) eqn:E; [|reflexivity].
    apply Qle_bool_iff in E. exfalso. exact (Qlt_not_le _ _ H E).
Qed.

Lemma Forall2_with_In {X Y : Type} (R : X -> Y -> Prop) l1 l2 :
  Forall2 R l1 l2 -> Forall2 (fun a b => In a l1 /\ R a b) l1 l2.
Proof.
  induction 1 as [|a b l1 l2 Hab _ IH]; constructor.
  - split; [now left|exact Hab].
  - eapply Forall2_impl; [|exact IH].
    intros x y [Hx Hxy]. split; [now right|exact Hxy].
Qed.

Lemma Forall2_right {X Y : Type} (Q0 : Y -> Prop) (R : X -> Y -> Prop) l1 l2 :
  (forall a b, R a b -> Q0 b) -> Forall2 R l1 l2 -> Forall Q0 l2.
Proof.
  intros HR. induction 1 as [|a b l1 l2 Hab _ IH]; constructor.
  - exact (HR a b Hab).
  - exact IH.
Qed.

(** The samples selected for a period all pass the threshold test. *)
Lemma selected_pass {A : Type} (pred : A -> bool) values p sel :
  In p (risk_periods pred values) ->
  Forall2 (fun i x => nth_error values i = Some x) p sel ->
  sel <> [] /\ Forall (fun x => pred x = true) sel.
Proof.
  intros Hp Hsel. split.
  - intros ->. inversion Hsel; subst.
    now apply (period_nonempty pred values []).
  - apply Forall_forall. intros x Hx.
    destruct (selected_In_r values p sel x Hsel Hx) as (i & Hi & Hv).
    unfold risk_periods in Hp.
    pose proof (period_In_mask _ p i Hp Hi) as Hm.
    apply mask_nth in Hm. destruct Hm as (v & Hv' & Hpv).
    congruence.
Qed.

(** Each interval comes from a period whose selected samples pass the test
    and give its peak. *)
Lemma extract_intervals_selected {A P : Type} (pred : A -> bool)
      (peak_of : list A -> result P) time values ivs :
  extract_intervals pred peak_of time values = Ok ivs ->
  Forall (fun iv => exists sel,
              sel <> [] /\ Forall (fun x => pred x = true) sel
              /\ peak_of sel = Ok (peak_value iv)) ivs.
Proof.
  intros H. apply extract_intervals_peaks in H.
  apply Forall2_with_In in H.
  eapply Forall2_right; [|exact H].
  intros p iv (Hp & sel & Hsel & Hpk). simpl in *.
  destruct (selected_pass pred values p sel Hp Hsel) as [Hne Hall].
  now exists sel.
Qed.

Lemma fmin_pass t a b :
  flt b t = true -> (a = NaN \/ flt a t = true) -> flt (fmin a b) t = true.
Proof.
  intros Hb [->|Ha]; [exact Hb|].
  destruct a as [| | |x], b as [| | |y]; simpl in *; try congruence.
  unfold qmin. destruct (Qle_bool x y); assumption.
Qed.

Lemma series_min_pass t sel : forall a,
  Forall (fun x => flt x t = true) sel ->
  (a = NaN /\ sel <> [] \/ flt a t = true) ->
  flt (fold_left fmin sel a) t = true.
Proof.
  induction sel as [|x sel IH]; intros a Hall Ha; simpl.
  - destruct Ha as [[_ Hne]|Ha]; [congruence|exact Ha].
  - inversion Hall as [|? ? Hx Hall']; subst.
    apply IH; [exact Hall'|]. right.
    apply fmin_pass; [exact Hx|]. destruct Ha as [[-> _]|Ha]; auto.
Qed.

Lemma nth_error_sorted_lt time : forall i j a b,
  StronglySorted Qlt time ->
  nth_error time i = Some a -> nth_error time j = Some b ->
  (i < j)%nat -> a < b.
Proof.
  induction time as [|t time IH]; intros i j a b Hs Hi Hj Hij.
  - destruct i; discriminate.
  - inversion Hs as [|? ? Hs' Hall]; subst.
    destruct j as [|j]; [lia|]. simpl in Hj.
    destruct i as [|i]; simpl in Hi.
    + injection Hi as <-. rewrite Forall_forall in Hall.
      apply Hall. eapply nth_error_In. exact Hj.
    + apply (IH i j a b Hs' Hi Hj). lia.
Qed.

Lemma nth_error_sorted_le time i j a b :
  StronglySorted Qlt time ->
  nth_error time i = Some a -> nth_error time j = Some b ->
  (i <= j)%nat -> a <= b.
Proof.
  intros Hs Hi Hj Hij.
  destruct (Nat.eq_dec i j) as [->|Hne].
  - rewrite Hi in Hj. injection Hj as <-. apply Qle_refl.
  - apply Qlt_le_weak.
    apply (nth_error_sorted_lt time i j a b Hs Hi Hj). lia.
Qed.

Lemma run_first_le_last p : is_run p -> (first_index p <= last_index p)%nat.
Proof.
  intros Hrun.
  pose proof (run_first_In p Hrun) as H.
  apply (is_run_In p _ Hrun) in H. unfold in_range in H. lia.
Qed.

(** With [k] separated runs starting at or after [s], the last index is at
    least [s + 2 (k - 1)]. *)
Lemma separated_runs_spread ps : forall s p0,
  Forall is_run (p0 :: ps) -> separated (p0 :: ps) ->
  (s <= first_index p0)%nat ->
  exists q, In q (p0 :: ps) /\ (s + 2 * length ps <= last_index q)%nat.
Proof.
  induction ps as [|p1 ps IH]; intros s p0 Hruns Hsep Hs.
  - exists p0. split; [now left|].
    inversion Hruns as [|? ? Hr0 _]; subst.
    pose proof (run_first_le_last p0 Hr0). simpl. lia.
  - inversion Hruns as [|? ? Hr0 Hruns']; subst.
    destruct Hsep as [Hgap Hsep'].
    pose proof (run_first_le_last p0 Hr0) as H0.
    destruct (IH (s + 2)%nat p1 Hruns' Hsep') as (q & Hq & Hl); [lia|].
    exists q. split; [now right|]. simpl length. lia.
Qed.

End ExtractorFacts.

Module ExtractorExtras.
Import Runs RunsFacts MaximalFacts Sample Report ReportFacts Peak PeakFacts.
Import ExtractorFacts Posture.
Local Open Scope Q_scope.

(** X1.  The value reported for a risk interval always violates the
    threshold of its rule: above the limit for trunk lean, foot pronation,
    pelvic tilt and knee valgus, below it for knee varus and for the
    hamstring/quadriceps ratio. *)
Theorem reported_peak_violates_threshold :
  (forall time values ivs,
      trunk_lean_risks time values = Ok ivs ->
      Forall (fun iv => lean_threshold < peak_value iv) ivs)
  /\ (forall time values ivs,
         foot_pronation_risks time values = Ok ivs ->
         Forall (fun iv => pronation_threshold < peak_value iv) ivs)
  /\ (forall time values ivs,
         pelvic_tilt_risks time values = Ok ivs ->
         Forall (fun iv => tilt_threshold < peak_value iv) ivs)
  /\ (forall time values ivs,
         knee_valgus_risks time values = Ok ivs ->
         Forall (fun iv => valgus_threshold < peak_value iv) ivs)
  /\ (forall time values ivs,
         knee_varus_risks time values = Ok ivs ->
         Forall (fun iv => peak_value iv < varus_threshold) ivs)
  /\ (forall time_array ham quad ivs,
         Muscle.hq_risks time_array ham quad = Ok ivs ->
         Forall (fun iv => flt (peak_value iv) Muscle.hq_threshold = true)
                ivs).
Proof.
  assert (Habs : forall t time values ivs,
             extract_intervals (abs_gt t) max_abs time values = Ok ivs ->
             Forall (fun iv => t < peak_value iv) ivs).
  { intros t time values ivs H. apply extract_intervals_selected in H.
    eapply Forall_impl; [|exact H].
    intros iv (sel & _ & Hall & Hpk). unfold max_abs, np_abs in Hpk.
    apply np_max_spec in Hpk. destruct Hpk as [Hin _].
    apply in_map_iff in Hin. destruct Hin as (v & <- & Hv).
    rewrite Forall_forall in Hall. apply Qltb_lt. exact (Hall v Hv). }
  split; [apply Habs|]. split; [apply Habs|]. split; [apply Habs|].
  split.
  { intros time values ivs H. apply extract_intervals_selected in H.
    eapply Forall_impl; [|exact H].
    intros iv (sel & _ & Hall & Hpk).
    apply np_max_spec in Hpk. destruct Hpk as [Hin _].
    rewrite Forall_forall in Hall. apply Qltb_lt. exact (Hall _ Hin). }
  split.
  { intros time values ivs H. apply extract_intervals_selected in H.
    eapply Forall_impl; [|exact H].
    intros iv (sel & _ & Hall & Hpk).
    apply np_min_spec in Hpk. destruct Hpk as [Hin _].
    rewrite Forall_forall in Hall. apply Qltb_lt. exact (Hall _ Hin). }
  intros time ham quad ivs H. unfold Muscle.hq_risks in H.
  apply extract_intervals_selected in H.
  eapply Forall_impl; [|exact H].
  intros iv (sel & Hne & Hall & Hpk). simpl in Hpk.
  injection Hpk as <-. unfold series_min.
  apply series_min_pass; [exact Hall|]. left. now split.
Qed.

(** X2.  When the time stamps are strictly increasing, every reported
    interval has its start no later than its end and a duration that is
    not negative, and each interval ends strictly before the next one
    starts. *)
Theorem intervals_ascend_in_time :
  forall (A P : Type) (pred : A -> bool) (peak_of : list A -> result P)
         (time : list Q) (values : list A) ivs,
    StronglySorted Qlt time ->
    extract_intervals pred peak_of time values = Ok ivs ->
    Forall (fun iv => start_time iv <= end_time iv
                      /\ duration iv = end_time iv - start_time iv
                      /\ 0 <= duration iv) ivs
    /\ (forall l1 a b l2,
           ivs = l1 ++ a :: b :: l2 -> end_time a < start_time b).
Proof.
  intros A P pred peak_of time values ivs Hs H.
  unfold extract_intervals in H. apply report_periods_inv in H.
  assert (HR : Forall2
                 (fun p iv =>
                    In p (risk_periods pred values)
                    /\ nth_error time (first_index p) = Some (start_time iv)
                    /\ nth_error time (last_index p) = Some (end_time iv)
                    /\ duration iv = end_time iv - start_time iv)
                 (risk_periods pred values) ivs).
  { apply Forall2_with_In in H. eapply Forall2_impl; [|exact H].
    intros p iv [Hp Hr]. simpl in Hr. apply report_period_inv in Hr.
    destruct Hr as (s & e & sel & pk & Hst & He & _ & _ & ->). simpl.
    split; [exact Hp|]. split; [now apply index_inv|].
    split; [now apply index_inv|reflexivity]. }
  split.
  - eapply Forall2_right; [|exact HR].
    intros p iv (Hp & Hst & He & Hd). simpl in *.
    pose proof (run_first_le_last p (period_is_run _ p Hp)) as Hle.
    pose proof (nth_error_sorted_le time _ _ _ _ Hs Hst He Hle) as Hse.
    split; [exact Hse|]. split; [exact Hd|].
    rewrite Hd. unfold Qminus. rewrite <- Qle_minus_iff. exact Hse.
  - intros l1 a b l2 E. rewrite E in HR.
    apply Forall2_app_inv_r in HR.
    destruct HR as (la & lb & _ & Hb & Eps).
    inversion Hb as [|pa ? lb1 ? Ha Hb1]; subst.
    inversion Hb1 as [|pb ? lb2 ? Hbb _]; subst.
    pose proof (group_consecutive_separated
                  _ (np_where_sorted (risk_mask pred values))) as Hsep.
    unfold risk_periods in Eps. rewrite Eps in Hsep.
    apply separated_split in Hsep.
    destruct Ha as (_ & _ & Hea & _). destruct Hbb as (_ & Hsb & _).
    simpl in *.
    apply (nth_error_sorted_lt time _ _ _ _ Hs Hea Hsb). lia.
Qed.

Lemma intervals_ascend_in_time_witness :
  Forall (fun iv => start_time iv <= end_time iv
                    /\ duration iv = end_time iv - start_time iv
                    /\ 0 <= duration iv)
         [mkInterval 0 (1 # 2) (1 # 2) 12; mkInterval 2 2 0 20]
  /\ (forall l1 a b l2,
         [mkInterval 0 (1 # 2) (1 # 2) 12; mkInterval 2 2 0 20]
         = l1 ++ a :: b :: l2 ->
         end_time a < start_time b).
Proof.
  apply (intervals_ascend_in_time Q Q (gt valgus_threshold) np_max
           [0; 1 # 2; 1; 2] [11; 12; 3; 20]).
  - repeat constructor.
  - reflexivity.
Defined.

Lemma np_where_length {A : Type} (pred : A -> bool) values :
  length (np_where (risk_mask pred values)) = length (filter pred values).
Proof.
  unfold np_where. generalize 0%nat.
  induction values as [|v values IH]; intros s; simpl; [reflexivity|].
  destruct (pred v); simpl; now rewrite IH.
Qed.

(** X3.  A series of [n] samples yields at most [(n + 1) / 2] risk
    intervals, and never more intervals than it has violating samples. *)
Theorem interval_count_bounded :
  forall (A P : Type) (pred : A -> bool) (peak_of : list A -> result P)
         (time : list Q) (values : list A) ivs,
    extract_intervals pred peak_of time values = Ok ivs ->
    (2 * length ivs <= length values + 1)%nat
    /\ (length ivs <= length (filter pred values))%nat.
Proof.
  intros A P pred peak_of time values ivs H.
  unfold extract_intervals in H. apply report_periods_inv in H.
  rewrite <- (Forall2_length H). clear H.
  pose proof (group_consecutive_runs (np_where (risk_mask pred values)))
    as Hruns.
  pose proof (group_consecutive_separated
                _ (np_where_sorted (risk_mask pred values))) as Hsep.
  pose proof (group_consecutive_concat (np_where (risk_mask pred values)))
    as Hcat.
  fold (risk_periods pred values) in Hruns, Hsep, Hcat.
  split.
  - destruct (risk_periods pred values) as [|p0 ps] eqn:E; [simpl; lia|].
    destruct (separated_runs_spread ps 0%nat p0 Hruns Hsep) as (q & Hq & Hl);
      [lia|].
    assert (Hqr : is_run q) by (rewrite Forall_forall in Hruns; auto).
    assert (Hb : (last_index q < length values)%nat).
    { apply (period_index_bound pred values q).
      - rewrite E. exact Hq.
      - now apply run_last_In. }
    simpl length. lia.
  - rewrite <- (np_where_length pred values), <- Hcat.
    clear Hsep Hcat.
    induction Hruns as [|p ps Hp _ IH]; simpl; [lia|].
    rewrite length_app. destruct Hp as [Hne _].
    destruct p; [congruence|simpl; lia].
Qed.

Lemma interval_count_bounded_witness :
  (2 * length ([mkInterval 0 0 0 20; mkInterval 2 2 0 15]%Q)
   <= length ([-20; -5; -15]%Q) + 1)%nat
  /\ (length ([mkInterval 0 0 0 20; mkInterval 2 2 0 15]%Q)
      <= length (filter (abs_gt 10) ([-20; -5; -15]%Q)))%nat.
Proof.
  apply (interval_count_bounded Q Q (abs_gt 10) max_abs
           [0; 1; 2] [-20; -5; -15]).
  reflexivity.
Defined.

End ExtractorExtras.

(** ** The windowed checks and the whole of [calculate_injury_risks] *)

Module MuscleChecksFacts.
Import Runs RunsFacts MaximalFacts Sample Report ReportFacts Peak PeakFacts.
Import ExtractorFacts MuscleChecks.
Local Open Scope Q_scope.

Lemma bool_select_seq mask : forall s,
  bool_select (seq s (length mask)) mask = np_where_from s mask.
Proof.
  induction mask as [|b mask IH]; intros s; simpl; [reflexivity|].
  now rewrite IH.
Qed.

Lemma take_length {X : Type} (a : list X) p sel :
  take a p = Ok sel -> length sel = length p.
Proof.
  intros H. apply take_inv in H. symmetry. exact (Forall2_length H).
Qed.

Lemma take_cases {X : Type} (a : list X) p :
  (exists sel, take a p = Ok sel) \/ take a p = Raise IndexError.
Proof.
  induction p as [|i p IH]; simpl.
  - left. now exists [].
  - destruct (index_cases a i) as [(x & ->)| ->]; [|now right]. simpl.
    destruct IH as [(sel & ->)| ->]; [|now right].
    left. eexists. reflexivity.
Qed.

Lemma take_raise {X : Type} (a : list X) p i :
  In i p -> (length a <= i)%nat -> take a p = Raise IndexError.
Proof.
  intros Hi Hle. destruct (take_cases a p) as [(sel & H)|H]; [|exact H].
  apply take_inv in H. exfalso.
  induction H as [|j x p sel Hj _ IH].
  - destruct Hi.
  - destruct Hi as [->|Hi]; [|now apply IH].
    apply nth_error_None in Hle. congruence.
Qed.

Lemma take_seq_nth {X : Type} (a : list X) k : forall s sel j x,
  Forall2 (fun i y => nth_error a i = Some y) (seq s k) sel ->
  nth_error sel j = Some x -> nth_error a (s + j) = Some x.
Proof.
  induction k as [|k IH]; intros s sel j x H Hj; simpl in H.
  - inversion H; subst. destruct j; discriminate.
  - inversion H as [|? y ? sel' Hy Hrest]; subst.
    destruct j as [|j]; simpl in Hj.
    + injection Hj as <-. now rewrite Nat.add_0_r.
    + rewrite <- Nat.add_succ_comm. now apply (IH (S s) sel').
Qed.

Lemma group_In risky p i :
  In p (group_consecutive risky) -> In i p -> In i risky.
Proof.
  intros Hp Hi. rewrite <- (group_consecutive_concat risky).
  apply in_concat. now exists p.
Qed.

Lemma group_is_run risky p : In p (group_consecutive risky) -> is_run p.
Proof.
  intros Hp. pose proof (group_consecutive_runs risky) as H.
  rewrite Forall_forall in H. now apply H.
Qed.

Section Window.
Variable pred : fval -> bool.
Variable peak_of : list fval -> result fval.
Variables s k : nat.

(** The risky indices of a window [s .. s+k-1] lie in the window, and the
    series passes the test there. *)
Lemma window_risky series sel i :
  take series (seq s k) = Ok sel ->
  In i (bool_select (seq s k) (map pred sel)) ->
  (s <= i < s + k)%nat
  /\ exists x, nth_error series i = Some x /\ pred x = true.
Proof.
  intros Ht Hi.
  pose proof (take_length _ _ _ Ht) as Hlen. rewrite length_seq in Hlen.
  pose proof (take_inv _ _ _ Ht) as Hsel.
  rewrite <- Hlen, <- (length_map pred sel), bool_select_seq in Hi.
  apply np_where_from_In in Hi. destruct Hi as [Hle Hm].
  assert (Hlt : (i - s < length sel)%nat).
  { destruct (Nat.lt_ge_cases (i - s) (length sel)) as [|Hge]; [assumption|].
    rewrite nth_overflow in Hm; [discriminate|now rewrite length_map]. }
  split; [lia|].
  destruct (nth_error sel (i - s)) as [x|] eqn:Ex;
    [|apply nth_error_None in Ex; lia].
  exists x. split.
  - replace i with (s + (i - s))%nat by lia.
    exact (take_seq_nth series k s sel (i - s) x Hsel Ex).
  - rewrite (nth_indep _ false (pred x)) in Hm by now rewrite length_map.
    rewrite map_nth in Hm. now rewrite (nth_error_nth _ _ _ Ex) in Hm.
Qed.

Hypothesis peak_total :
  forall selected, selected <> [] -> exists pk, peak_of selected = Ok pk.

Lemma windowed_ok time series :
  (s + k <= length series)%nat -> (s + k <= length time)%nat ->
  exists ivs, windowed_intervals pred peak_of (seq s k) time series = Ok ivs.
Proof.
  intros Hser Htime. unfold windowed_intervals.
  destruct (take_ok series (seq s k)) as (sel & Ht & _).
  { intros i Hi. apply in_seq in Hi. lia. }
  rewrite Ht. simpl.
  apply report_periods_ok. apply Forall_forall. intros p Hp.
  pose proof (group_is_run _ p Hp) as Hrun.
  assert (Hin : forall i, In i p -> (s <= i < s + k)%nat).
  { intros i Hi. pose proof (group_In _ p i Hp Hi) as Hr.
    now destruct (window_risky series sel i Ht Hr). }
  unfold report_period.
  destruct (index_ok time (first_index p)) as (a & -> & _).
  { pose proof (Hin _ (run_first_In p Hrun)). lia. }
  destruct (index_ok time (last_index p)) as (b & -> & _).
  { pose proof (Hin _ (run_last_In p Hrun)). lia. }
  destruct (take_ok series p) as (selp & -> & Hselp).
  { intros i Hi. pose proof (Hin i Hi). lia. }
  destruct (peak_total selp) as (pk & Hpk).
  { intros ->. inversion Hselp; subst. now destruct Hrun. }
  simpl. rewrite Hpk. eexists. reflexivity.
Qed.

Lemma windowed_raise time series :
  (0 < k)%nat -> (length series < s + k)%nat ->
  windowed_intervals pred peak_of (seq s k) time series = Raise IndexError.
Proof.
  intros Hk Hlen. unfold windowed_intervals.
  rewrite (take_raise series (seq s k) (s + k - 1)); [reflexivity| |lia].
  apply in_seq. lia.
Qed.

Lemma windowed_inv time series ivs :
  windowed_intervals pred peak_of (seq s k) time series = Ok ivs ->
  Forall (fun iv =>
            (exists i j, (s <= i <= j /\ j < s + k)%nat
                         /\ nth_error time i = Some (start_time iv)
                         /\ nth_error time j = Some (end_time iv))
            /\ exists selected,
                selected <> []
                /\ Forall (fun x => pred x = true) selected
                /\ peak_of selected = Ok (peak_value iv)) ivs.
Proof.
  unfold windowed_intervals. intros H.
  destruct (take series (seq s k)) as [sel|] eqn:Ht; [|discriminate].
  simpl in H. apply report_periods_inv in H.
  apply Forall2_with_In in H.
  eapply Forall2_right; [|exact H].
  intros p iv [Hp Hr]. simpl in Hr. apply report_period_inv in Hr.
  destruct Hr as (a & b & selp & pk & Ha & Hb & Hselp & Hpk & ->). simpl.
  pose proof (group_is_run _ p Hp) as Hrun.
  assert (Hin : forall i, In i p ->
                          (s <= i < s + k)%nat
                          /\ exists x, nth_error series i = Some x
                                       /\ pred x = true).
  { intros i Hi. pose proof (group_In _ p i Hp Hi) as Hr.
    exact (window_risky series sel i Ht Hr). }
  split.
  - exists (first_index p), (last_index p).
    pose proof (run_first_le_last p Hrun).
    destruct (Hin _ (run_first_In p Hrun)) as [? _].
    destruct (Hin _ (run_last_In p Hrun)) as [? _].
    split; [lia|]. split; now apply index_inv.
  - exists selp. apply take_inv in Hselp. split.
    + intros ->. inversion Hselp; subst. now destruct Hrun.
    + split; [|exact Hpk]. apply Forall_forall. intros x Hx.
      destruct (selected_In_r series p selp x Hselp Hx) as (i & Hi & Hv).
      destruct (Hin i Hi) as (_ & y & Hy & Hpy). congruence.
Qed.

End Window.

Lemma fmax_pass t a b :
  fgt b t = true -> (a = NaN \/ fgt a t = true) -> fgt (fmax a b) t = true.
Proof.
  intros Hb [->|Ha]; [exact Hb|].
  destruct a as [| | |x], b as [| | |y]; simpl in *; try congruence.
  unfold qmax. destruct (Qle_bool x y); assumption.
Qed.

Lemma series_max_pass t sel : forall a,
  Forall (fun x => fgt x t = true) sel ->
  (a = NaN /\ sel <> [] \/ fgt a t = true) ->
  fgt (fold_left fmax sel a) t = true.
Proof.
  induction sel as [|x sel IH]; intros a Hall Ha; simpl.
  - destruct Ha as [[_ Hne]|Ha]; [congruence|exact Ha].
  - inversion Hall as [|? ? Hx Hall']; subst.
    apply IH; [exact Hall'|]. right.
    apply fmax_pass; [exact Hx|]. destruct Ha as [[-> _]|Ha]; auto.
Qed.

Lemma late_swing_start_le time : (late_swing_start time <= length time)%nat.
Proof.
  unfold late_swing_start.
  apply Nat.Div0.div_le_upper_bound. lia.
Qed.

Lemma series_div_length a : forall b,
  length (series_div a b) = Nat.min (length a) (length b).
Proof.
  induction a as [|x a IH]; intros [|y b]; simpl; try reflexivity.
  now rewrite IH.
Qed.

End MuscleChecksFacts.

(** ** Series and time index of different lengths *)

Module MismatchClaims.
Import Runs RunsFacts MaximalFacts Sample Report ReportFacts.
Import Muscle MuscleChecks MuscleChecksFacts.
Local Open Scope Q_scope.

(** C4, amended.  No block of [calculate_injury_risks] compares the length
    of its series with the length of the time index.  The H:Q and the
    gastrocnemius block, which scan the whole series, raise [IndexError]
    when some risky index lies at or beyond the end of the time index, and
    return their intervals, one per risk period, whenever every risky index
    is inside it, also when the lengths differ.  The gluteus medius block
    raises [IndexError] when the series has fewer rows than half the time
    index and returns otherwise; the rectus femoris block raises
    [IndexError] when the series has fewer rows than the time index and
    returns otherwise; for these two no risky sample is needed. *)
Theorem index_error_only_from_out_of_range_index :
  (forall time ham quad i,
      In i (np_where (risk_mask (fun r => flt r hq_threshold)
                                (hq_ratio ham quad))) ->
      (length time <= i)%nat ->
      hq_risks time ham quad = Raise IndexError)
  /\ (forall time ham quad,
         (forall i,
             In i (np_where (risk_mask (fun r => flt r hq_threshold)
                                       (hq_ratio ham quad))) ->
             (i < length time)%nat) ->
         exists ivs, hq_risks time ham quad = Ok ivs
                     /\ length ivs
                        = length (risk_periods (fun r => flt r hq_threshold)
                                               (hq_ratio ham quad)))
  /\ (forall time forces body_weight i,
         In i (np_where (risk_mask (fun v => fgt v (3 * body_weight))
                                   forces)) ->
         (length time <= i)%nat ->
         gastroc_risks time forces body_weight = Raise IndexError)
  /\ (forall time forces body_weight,
         (forall i,
             In i (np_where (risk_mask (fun v => fgt v (3 * body_weight))
                                       forces)) ->
             (i < length time)%nat) ->
         exists ivs,
           gastroc_risks time forces body_weight = Ok ivs
           /\ length ivs
              = length (risk_periods (fun v => fgt v (3 * body_weight))
                                     forces))
  /\ (forall time activation,
         (length activation < length time / 2)%nat ->
         glute_risks time activation = Raise IndexError)
  /\ (forall time activation,
         (length time / 2 <= length activation)%nat ->
         exists ivs, glute_risks time activation = Ok ivs)
  /\ (forall time activation,
         (length activation < length time)%nat ->
         rectus_risks time activation = Raise IndexError)
  /\ (forall time activation,
         (length time <= length activation)%nat ->
         exists ivs, rectus_risks time activation = Ok ivs).
Proof.
  assert (Hmin : forall selected : list fval,
             selected <> [] ->
             exists pk, (fun s => Ok (series_min s)) selected = Ok pk).
  { intros sel _. eexists. reflexivity. }
  assert (Hmax : forall selected : list fval,
             selected <> [] ->
             exists pk, (fun s => Ok (series_max s)) selected = Ok pk).
  { intros sel _. eexists. reflexivity. }
  assert (Hscan : forall (pred : fval -> bool) peak_of time values,
             (forall selected : list fval,
                 selected <> [] -> exists pk, peak_of selected = Ok pk) ->
             (forall i, In i (np_where (risk_mask pred values)) ->
                        (i < length time)%nat) ->
             exists ivs : list (Interval fval),
               extract_intervals pred peak_of time values = Ok ivs
               /\ length ivs = length (risk_periods pred values)).
  { intros pred peak_of time values Htot Hb.
    destruct (extract_intervals_ok _ _ Htot time _ Hb) as (ivs & E).
    exists ivs. split; [exact E|].
    unfold extract_intervals in E. apply report_periods_inv in E.
    symmetry. exact (Forall2_length E). }
  repeat split.
  - intros time ham quad i Hi Hle. unfold hq_risks.
    now apply (extract_intervals_raise _ _ Hmin time _ i).
  - intros time ham quad Hb. unfold hq_risks. now apply Hscan.
  - intros time forces bw i Hi Hle. unfold gastroc_risks.
    now apply (extract_intervals_raise _ _ Hmax time _ i).
  - intros time forces bw Hb. unfold gastroc_risks. now apply Hscan.
  - intros time act H. unfold glute_risks, stance_indices.
    apply windowed_raise; rewrite ?Nat.add_0_l; lia.
  - intros time act H. unfold glute_risks, stance_indices.
    apply (windowed_ok _ _ 0 (length time / 2) Hmin); rewrite Nat.add_0_l.
    + exact H.
    + apply Nat.Div0.div_le_upper_bound. lia.
  - intros time act H. unfold rectus_risks, late_swing_indices.
    pose proof (late_swing_start_le time) as Hle.
    assert (Hlt : (late_swing_start time < length time)%nat).
    { unfold late_swing_start. apply Nat.Div0.div_lt_upper_bound. lia. }
    apply windowed_raise; lia.
  - intros time act H. unfold rectus_risks, late_swing_indices.
    pose proof (late_swing_start_le time) as Hle.
    apply (windowed_ok _ _ _ _ Hmax); lia.
Qed.

End MismatchClaims.

Module MuscleChecksExtras.
Import Runs RunsFacts MaximalFacts Sample Report ReportFacts Peak PeakFacts.
Import ExtractorFacts MuscleChecks MuscleChecksFacts.
Local Open Scope Q_scope.

Lemma series_min_total (selected : list fval) :
  selected <> [] ->
  exists pk, (fun sel => Ok (series_min sel)) selected = Ok pk.
Proof. intros _. eexists. reflexivity. Qed.

Lemma series_max_total (selected : list fval) :
  selected <> [] ->
  exists pk, (fun sel => Ok (series_max sel)) selected = Ok pk.
Proof. intros _. eexists. reflexivity. Qed.

(** X4.  The gluteus medius check looks at the first half of the motion
    only: it returns when the activation series covers that half and raises
    [IndexError] when it does not; every interval it reports starts and
    ends at time stamps of the first half, and its reported minimum is
    below the activation threshold. *)
Theorem glute_check_stance_window :
  (forall time_array glute_activation,
      (length time_array / 2 <= length glute_activation)%nat ->
      exists ivs, glute_risks time_array glute_activation = Ok ivs)
  /\ (forall time_array glute_activation,
         (length glute_activation < length time_array / 2)%nat ->
         glute_risks time_array glute_activation = Raise IndexError)
  /\ (forall time_array glute_activation ivs,
         glute_risks time_array glute_activation = Ok ivs ->
         Forall (fun iv =>
                   (exists i j,
                       (i <= j /\ j < length time_array / 2)%nat
                       /\ nth_error time_array i = Some (start_time iv)
                       /\ nth_error time_array j = Some (end_time iv))
                   /\ flt (peak_value iv) glute_threshold = true) ivs).
Proof.
  unfold glute_risks, stance_indices. split; [|split].
  - intros time act H.
    apply (windowed_ok _ _ 0 (length time / 2) series_min_total);
      rewrite Nat.add_0_l.
    + exact H.
    + apply Nat.Div0.div_le_upper_bound. lia.
  - intros time act H. apply windowed_raise; rewrite ?Nat.add_0_l; lia.
  - intros time act ivs H. apply windowed_inv in H.
    eapply Forall_impl; [|exact H].
    intros iv ((i & j & Hij & Hi & Hj) & sel & Hne & Hall & Hpk).
    split.
    + exists i, j. split; [rewrite Nat.add_0_l in Hij; lia|now split].
    + injection Hpk as <-. unfold series_min.
      apply series_min_pass; [exact Hall|]. left. now split.
Qed.

Lemma late_swing_nonempty (time : list Q) :
  (0 < length time)%nat -> (late_swing_start time < length time)%nat.
Proof.
  intros H. unfold late_swing_start.
  apply Nat.Div0.div_lt_upper_bound. lia.
Qed.

(** X5.  The rectus femoris check looks at the last quarter of the motion
    only: it returns when the activation series has at least as many rows
    as the time vector and raises [IndexError] when it has fewer; every
    interval it reports starts and ends at time stamps at or after index
    [int(0.75 n)], and its reported maximum is above the activation
    threshold. *)
Theorem rectus_check_late_swing_window :
  (forall time_array rectus_activation,
      (length time_array <= length rectus_activation)%nat ->
      exists ivs, rectus_risks time_array rectus_activation = Ok ivs)
  /\ (forall time_array rectus_activation,
         (length rectus_activation < length time_array)%nat ->
         rectus_risks time_array rectus_activation = Raise IndexError)
  /\ (forall time_array rectus_activation ivs,
         rectus_risks time_array rectus_activation = Ok ivs ->
         Forall (fun iv =>
                   (exists i j,
                       ((3 * length time_array) / 4 <= i /\ i <= j
                        /\ j < length time_array)%nat
                       /\ nth_error time_array i = Some (start_time iv)
                       /\ nth_error time_array j = Some (end_time iv))
                   /\ fgt (peak_value iv) rectus_threshold = true) ivs).
Proof.
  unfold rectus_risks, late_swing_indices. split; [|split].
  - intros time act H. pose proof (late_swing_start_le time).
    apply (windowed_ok _ _ _ _ series_max_total); lia.
  - intros time act H.
    assert (Hpos : (0 < length time)%nat) by lia.
    pose proof (late_swing_nonempty time Hpos).
    apply windowed_raise; lia.
  - intros time act ivs H. apply windowed_inv in H.
    pose proof (late_swing_start_le time) as Hle.
    eapply Forall_impl; [|exact H].
    intros iv ((i & j & Hij & Hi & Hj) & sel & Hne & Hall & Hpk).
    split.
    + exists i, j. unfold late_swing_start in *.
      split; [lia|now split].
    + injection Hpk as <-. unfold series_max.
      apply series_max_pass; [exact Hall|]. left. now split.
Qed.

Lemma fgt_weaken v t t' : t <= t' -> fgt v t' = true -> fgt v t = true.
Proof.
  intros Hle. destruct v as [| | |q]; simpl; try congruence.
  rewrite !Qltb_lt. intros H. eapply Qle_lt_trans; eassumption.
Qed.

(** X6.  The gastrocnemius check reports only maxima above three times
    the body weight, never raises when the force series has as many rows
    as the time vector, and a larger body weight never adds a risky
    sample. *)
Theorem gastroc_check_scales_with_body_weight :
  (forall time_array forces body_weight ivs,
      gastroc_risks time_array forces body_weight = Ok ivs ->
      Forall (fun iv => fgt (peak_value iv) (3 * body_weight) = true) ivs)
  /\ (forall time_array forces body_weight,
         length forces = length time_array ->
         exists ivs, gastroc_risks time_array forces body_weight = Ok ivs)
  /\ (forall forces body_weight body_weight' i,
         body_weight <= body_weight' ->
         In i (np_where (risk_mask (fun v => fgt v (3 * body_weight'))
                                   forces)) ->
         In i (np_where (risk_mask (fun v => fgt v (3 * body_weight))
                                   forces))).
Proof.
  split; [|split].
  - intros time forces bw ivs H. unfold gastroc_risks in H.
    apply extract_intervals_selected in H.
    eapply Forall_impl; [|exact H].
    intros iv (sel & Hne & Hall & Hpk). injection Hpk as <-.
    unfold series_max. apply series_max_pass; [exact Hall|]. left. now split.
  - intros time forces bw Hlen. unfold gastroc_risks.
    apply (extract_intervals_ok _ _ series_max_total).
    intros i Hi. apply np_where_bound in Hi.
    unfold risk_mask in Hi. rewrite length_map in Hi. lia.
  - intros forces bw bw' i Hle Hi.
    apply np_where_In. apply np_where_In in Hi.
    apply mask_nth. apply mask_nth in Hi.
    destruct Hi as (v & Hv & Hp). exists v. split; [exact Hv|].
    apply (fgt_weaken v (3 * bw) (3 * bw')); [|exact Hp].
    apply Qmult_le_l; [reflexivity|exact Hle].
Qed.

(** X7.  When every group of columns that is present has one row per time
    stamp, [calculate_injury_risks] returns its list of risks and raises
    nothing. *)
Theorem calculate_injury_risks_total :
  forall time_array ham_quad gastroc glute rectus body_weight,
    match ham_quad with
    | Some (ham, quad) => length ham = length time_array
                          /\ length quad = length time_array
    | None => True
    end ->
    match gastroc with
    | Some s => length s = length time_array | None => True
    end ->
    match glute with
    | Some s => length s = length time_array | None => True
    end ->
    match rectus with
    | Some s => length s = length time_array | None => True
    end ->
    exists risks,
      calculate_injury_risks time_array ham_quad gastroc glute rectus
                             body_weight = Ok risks.
Proof.
  intros time hq gastroc glute rectus bw Hhq Hga Hgl Hre.
  unfold calculate_injury_risks.
  assert (H1 : exists r1,
             check_group hq (fun p => Muscle.hq_risks time (fst p) (snd p))
             = Ok r1).
  { destruct hq as [[ham quad]|]; simpl; [|now exists []].
    destruct Hhq as [Hh Hq]. unfold Muscle.hq_risks.
    apply (extract_intervals_ok _ _ series_min_total).
    intros i Hi. apply np_where_bound in Hi.
    unfold risk_mask, Muscle.hq_ratio in Hi.
    rewrite length_map, series_div_length in Hi.
    unfold replace_zero_nan in Hi. rewrite length_map in Hi. lia. }
  assert (H2 : exists r2,
             check_group gastroc (fun f => gastroc_risks time f bw) = Ok r2).
  { destruct gastroc as [f|]; simpl; [|now exists []].
    unfold gastroc_risks. apply (extract_intervals_ok _ _ series_max_total).
    intros i Hi. apply np_where_bound in Hi.
    unfold risk_mask in Hi. rewrite length_map in Hi. lia. }
  assert (H3 : exists r3, check_group glute (glute_risks time) = Ok r3).
  { destruct glute as [a|]; simpl; [|now exists []].
    unfold glute_risks, stance_indices.
    apply (windowed_ok _ _ 0 (length time / 2) series_min_total);
      rewrite Nat.add_0_l, ?Hgl; apply Nat.Div0.div_le_upper_bound; lia. }
  assert (H4 : exists r4, check_group rectus (rectus_risks time) = Ok r4).
  { destruct rectus as [a|]; simpl; [|now exists []].
    unfold rectus_risks, late_swing_indices.
    pose proof (late_swing_start_le time).
    apply (windowed_ok _ _ _ _ series_max_total); lia. }
  destruct H1 as (r1 & ->), H2 as (r2 & ->), H3 as (r3 & ->), H4 as (r4 & ->).
  simpl. eexists. reflexivity.
Qed.

Lemma calculate_injury_risks_total_witness :
  exists risks,
    calculate_injury_risks
      [0; 1; 2; 3]
      (Some ([Fin (1 # 10); Fin 1; Fin 1; Fin 1],
             [Fin 1; Fin 1; Fin 0; Fin 1]))
      (Some [Fin 100; Fin 300; Fin 250; Fin 0])
      None
      (Some [Fin 0; Fin 0; Fin 0; Fin 1])
      70 = Ok risks.
Proof.
  apply calculate_injury_risks_total.
  - split; reflexivity.
  - reflexivity.
  - exact I.
  - reflexivity.
Defined.

End MuscleChecksExtras.

(** ** Counts by type and the order of the levels *)

Module CountingFacts.
Import Sample Counting.








Lemma py_sum_snoc l x :
  Muscle.py_sum (l ++ [x]) = (Muscle.py_sum l + x)%Q.
Proof. unfold Muscle.py_sum. now rewrite fold_left_app. Qed.

Lemma overall_rank_cases count d :
  level_rank (Muscle.overall_risk count d)
  = if (5 <? count) || Qltb 2 d then 2
    else if (2 <? count) || Qltb 1 d then 1 else 0.
Proof.
  unfold Muscle.overall_risk.
  destruct ((5 <? count) || Qltb 2 d); [reflexivity|].
  destruct ((2 <? count) || Qltb 1 d); reflexivity.
Qed.

Lemma Qltb_mono t d d' :
  (d <= d')%Q -> Qltb t d = true -> Qltb t d' = true.
Proof.
  rewrite !ExtractorFacts.Qltb_lt. intros Hle H.
  eapply Qlt_le_trans; eassumption.
Qed.

Lemma muscle_overall_risk_monotone count count' d d' :
  count <= count' -> (d <= d')%Q ->
  level_rank (Muscle.overall_risk count d)
  <= level_rank (Muscle.overall_risk count' d').
Proof.
  intros Hc Hd. rewrite !overall_rank_cases.
  destruct ((5 <? count) || Qltb 2 d) eqn:E5.
  - assert (E5' : (5 <? count') || Qltb 2 d' = true).
    { apply orb_true_iff in E5. apply orb_true_iff.
      destruct E5 as [H|H].
      - left. apply Nat.ltb_lt in H. apply Nat.ltb_lt. lia.
      - right. exact (Qltb_mono 2 d d' Hd H). }
    now rewrite E5'.
  - destruct ((2 <? count) || Qltb 1 d) eqn:E2.
    + assert (E2' : (2 <? count') || Qltb 1 d' = true).
      { apply orb_true_iff in E2. apply orb_true_iff.
        destruct E2 as [H|H].
        - left. apply Nat.ltb_lt in H. apply Nat.ltb_lt. lia.
        - right. exact (Qltb_mono 1 d d' Hd H). }
      rewrite E2'. destruct ((5 <? count') || Qltb 2 d'); lia.
    + lia.
Qed.

End CountingFacts.

Module SummaryExtras.
Import Sample Counting CountingFacts.


(** X9.  The overall level never drops when the number of risks or their
    total duration grows; in particular appending a risk whose duration is
    not negative never lowers the level [summarize_injury_risks]
    returns. *)
Theorem overall_risk_monotone :
  (forall count count' d d',
      count <= count' -> (d <= d')%Q ->
      level_rank (Muscle.overall_risk count d)
      <= level_rank (Muscle.overall_risk count' d')
      /\ level_rank (Posture.overall_risk count d)
         <= level_rank (Posture.overall_risk count' d'))
  /\ (forall risk_metrics r,
         (0 <= Muscle.duration_s r)%Q ->
         level_rank (fst (Muscle.summarize_injury_risks risk_metrics))
         <= level_rank
              (fst (Muscle.summarize_injury_risks (risk_metrics ++ [r])))).
Proof.
  split.
  - intros count count' d d' Hc Hd.
    split; now apply muscle_overall_risk_monotone.
  - intros rs r Hr. destruct rs as [|r0 rs]; [exact (Nat.le_0_l _)|].
    change (fst (Muscle.summarize_injury_risks (r0 :: rs)))
      with (Muscle.overall_risk
              (length (r0 :: rs))
              (Muscle.py_sum (map Muscle.duration_s (r0 :: rs)))).
    change (fst (Muscle.summarize_injury_risks ((r0 :: rs) ++ [r])))
      with (Muscle.overall_risk
              (length ((r0 :: rs) ++ [r]))
              (Muscle.py_sum (map Muscle.duration_s ((r0 :: rs) ++ [r])))).
    apply muscle_overall_risk_monotone.
    + rewrite length_app. lia.
    + rewrite map_app.
      change (map Muscle.duration_s [r]) with [Muscle.duration_s r].
      rewrite py_sum_snoc.
      rewrite <- (Qplus_0_r (Muscle.py_sum _)) at 1.
      apply Qplus_le_r. exact Hr.
Qed.


End SummaryExtras.

(** ** The kinematic check *)

Module KinematicCheckFacts.
Import Runs MaximalFacts Sample Report ReportFacts PeakFacts ExtractorFacts.
Import Kinematic KinematicClaims KinematicCheck.
Local Open Scope Q_scope.

(** The risky indices are empty exactly when no magnitude exceeds the
    threshold. *)
Lemma risky_indices_nil t mv :
  risky_indices t mv = [] <-> forall v, In v mv -> ~ t < Qabs v.
Proof.
  unfold risky_indices. split.
  - intros H v Hv Hlt.
    destruct (In_nth_error _ _ Hv) as (i & Hi).
    assert (Hin : In i (np_where (map (fun v => Qltb t (Qabs v)) mv))).
    { apply np_where_In.
      apply (mask_nth (fun v => Qltb t (Qabs v)) mv i).
      exists v. split; [exact Hi|now apply Qltb_lt]. }
    rewrite H in Hin. destruct Hin.
  - intros H.
    destruct (np_where (map (fun v => Qltb t (Qabs v)) mv)) as [|i l] eqn:E;
      [reflexivity|exfalso].
    assert (Hin : In i (np_where (map (fun v => Qltb t (Qabs v)) mv)))
      by (rewrite E; now left).
    apply np_where_In in Hin.
    apply (mask_nth (fun v => Qltb t (Qabs v)) mv i) in Hin.
    destruct Hin as (v & Hv & Hp). apply Qltb_lt in Hp.
    exact (H v (nth_error_In _ _ Hv) Hp).
Qed.

Lemma peak_value_exceeds t mv pk :
  peak_value mv = Ok pk -> t < pk -> risky_indices t mv <> [].
Proof.
  intros Hpk Hlt Hnil.
  unfold peak_value, np_abs in Hpk. apply np_max_spec in Hpk.
  destruct Hpk as [Hin _]. apply in_map_iff in Hin.
  destruct Hin as (v & <- & Hv).
  exact (proj1 (risky_indices_nil t mv) Hnil v Hv Hlt).
Qed.

Lemma peak_value_below t mv pk :
  peak_value mv = Ok pk -> pk < t -> risky_indices t mv = [].
Proof.
  intros Hpk Hlt. apply risky_indices_nil. intros v Hv Hgt.
  unfold peak_value, np_abs in Hpk. apply np_max_spec in Hpk.
  destruct Hpk as [_ Hub].
  pose proof (Hub (Qabs v) (in_map Qabs mv v Hv)) as Hle.
  apply (Qlt_irrefl t).
  eapply Qlt_trans; [exact Hgt|]. eapply Qle_lt_trans; eassumption.
Qed.

(** What [evaluate] returns when it reports a risk. *)
Lemma evaluate_risk sto c r :
  evaluate sto c = inr (Some r) ->
  risk_type r = risk_name c
  /\ risk_threshold r = threshold c
  /\ Forall (fun t => In t (sto_time sto)) (risky_times r)
  /\ (condition c = ">"%string ->
      threshold c < measured_value r /\ risky_times r <> [])
  /\ (condition c <> ">"%string ->
      measured_value r < threshold c /\ risky_times r = []).
Proof.
  unfold evaluate. intros H.
  destruct (get_data_column (sto_columns sto) (coordinate c)) as [angles|];
    [|discriminate].
  destruct (compute_velocity_and_acceleration
              angles (sto_time sto) default_min_data_points)
    as [[vel acc]|]; [|discriminate].
  set (mv := if String.eqb (measure c) "velocity" then vel else acc) in *.
  destruct (peak_value mv) as [pk|] eqn:Epk; [|discriminate].
  set (at_risk := if String.eqb (condition c) ">"
                  then Qltb (threshold c) pk else Qltb pk (threshold c)) in *.
  destruct at_risk eqn:Erisk; [|discriminate].
  destruct (take (sto_time sto) (risky_indices (threshold c) mv))
    as [times|] eqn:Et; [|discriminate].
  injection H as <-. simpl.
  split; [reflexivity|]. split; [reflexivity|].
  pose proof (take_inv _ _ _ Et) as Hsel.
  split.
  { apply Forall_forall. intros t Ht.
    destruct (selected_In_r _ _ _ t Hsel Ht) as (i & _ & Hi).
    exact (nth_error_In _ _ Hi). }
  pose proof (Forall2_length Hsel) as Hlen.
  subst at_risk. split.
  - intros Hc. rewrite Hc in Erisk. simpl in Erisk.
    apply Qltb_lt in Erisk. split; [exact Erisk|].
    pose proof (peak_value_exceeds _ _ _ Epk Erisk) as Hne.
    intros ->. destruct (risky_indices (threshold c) mv);
      [congruence|discriminate].
  - intros Hc. destruct (String.eqb_spec (condition c) ">"); [congruence|].
    apply Qltb_lt in Erisk. split; [exact Erisk|].
    rewrite (peak_value_below _ _ _ Epk Erisk) in Hlen.
    destruct times; [reflexivity|discriminate].
Qed.

Lemma run_criteria_detected (Q0 : risk_details -> Prop) sto cs :
  Forall (fun c => forall r, evaluate sto c = inr (Some r) -> Q0 r) cs ->
  forall warned detected,
    Forall Q0 detected ->
    Forall Q0 (detected_risks (run_criteria sto cs warned detected)).
Proof.
  induction 1 as [|c cs Hc _ IH]; intros warned detected Hd; simpl.
  - exact Hd.
  - destruct (missing_cols sto c); [|now apply IH].
    destruct (evaluate sto c) as [f|[r|]] eqn:E; simpl.
    + exact Hd.
    + apply IH. apply Forall_app. split; [exact Hd|].
      constructor; [now apply Hc|constructor].
    + now apply IH.
Qed.

Lemma run_criteria_counts sto cs : forall warned detected,
  let res := run_criteria sto cs warned detected in
  (length (warnings res) + length (detected_risks res)
   <= length warned + length detected + length cs)%nat.
Proof.
  induction cs as [|c cs IH]; intros warned detected; simpl.
  - lia.
  - destruct (missing_cols sto c).
    + destruct (evaluate sto c) as [f|[r|]]; simpl.
      * rewrite length_app. simpl. lia.
      * specialize (IH warned (detected ++ [r])). simpl in IH.
        rewrite length_app in IH. simpl in IH. lia.
      * specialize (IH warned detected). simpl in IH. lia.
    + specialize (IH (warned ++ [MissingColumns (risk_name c) (s :: l)])
                     detected).
      simpl in IH. rewrite length_app in IH. simpl in IH. lia.
Qed.

Lemma get_data_column_In columns label data :
  get_data_column columns label = Some data -> In (label, data) columns.
Proof.
  induction columns as [|[l d] columns IH]; simpl; [discriminate|].
  destruct (String.eqb_spec l label) as [->|_].
  - intros H. injection H as <-. now left.
  - intros H. right. now apply IH.
Qed.

Lemma get_data_column_available columns label :
  In label (map fst columns) ->
  exists data, get_data_column columns label = Some data.
Proof.
  induction columns as [|[l d] columns IH]; simpl; [intros []|].
  destruct (String.eqb_spec l label) as [->|Hne].
  - intros _. now exists d.
  - intros [H|H]; [congruence|now apply IH].
Qed.

Lemma existsb_eqb_In col cols :
  existsb (String.eqb col) cols = true <-> In col cols.
Proof.
  rewrite existsb_exists. split.
  - intros (x & Hx & E). apply String.eqb_eq in E. now subst.
  - intros H. exists col. split; [exact H|apply String.eqb_refl].
Qed.

(** For a criterion that requires exactly its coordinate: no column is
    missing exactly when the coordinate is available. *)
Lemma missing_cols_nil sto c :
  required_columns c = [coordinate c] ->
  (missing_cols sto c = [] <-> In (coordinate c) (available_columns sto)).
Proof.
  intros Hreq. unfold missing_cols. rewrite Hreq. simpl.
  destruct (existsb (String.eqb (coordinate c)) (available_columns sto))
    eqn:E; simpl.
  - apply existsb_eqb_In in E. tauto.
  - split; [discriminate|]. intros H. apply existsb_eqb_In in H. congruence.
Qed.

Lemma evaluate_short sto c :
  well_formed sto -> (length (sto_time sto) < 3)%nat ->
  In (coordinate c) (available_columns sto) ->
  evaluate sto c = inl (Raised ValueError).
Proof.
  intros Hwf Hshort Hav. unfold evaluate.
  destruct (get_data_column_available _ _ Hav) as (angles & E).
  rewrite E. apply get_data_column_In in E.
  unfold well_formed in Hwf. rewrite Forall_forall in Hwf.
  specialize (Hwf _ E). simpl in Hwf.
  unfold compute_velocity_and_acceleration, default_min_data_points.
  rewrite Hwf. now rewrite (proj2 (Nat.ltb_lt _ _) Hshort).
Qed.

Lemma evaluate_long sto c :
  well_formed sto -> (3 <= length (sto_time sto))%nat ->
  In (coordinate c) (available_columns sto) ->
  exists o, evaluate sto c = inr o.
Proof.
  intros Hwf Hlong Hav. unfold evaluate.
  destruct (get_data_column_available _ _ Hav) as (angles & E).
  rewrite E. apply get_data_column_In in E.
  unfold well_formed in Hwf. rewrite Forall_forall in Hwf.
  specialize (Hwf _ E). simpl in Hwf.
  unfold compute_velocity_and_acceleration, default_min_data_points.
  rewrite (proj2 (Nat.ltb_ge _ _)) by lia.
  destruct (np_gradient_ok angles (sto_time sto)) as (v & Ev & Hv);
    [lia|lia|].
  destruct (np_gradient_ok v (sto_time sto)) as (a & Ea & Ha); [lia|lia|].
  rewrite Ev. simpl. rewrite Ea. simpl.
  set (mv := if String.eqb (measure c) "velocity" then v else a).
  assert (Hmv : length mv = length (sto_time sto)).
  { subst mv. destruct (String.eqb (measure c) "velocity"); lia. }
  destruct (np_max_total (np_abs mv)) as (pk & Epk).
  { unfold np_abs. destruct mv; [simpl in Hmv; lia|discriminate]. }
  unfold peak_value. rewrite Epk.
  destruct (if String.eqb (condition c) ">"
            then Qltb (threshold c) pk else Qltb pk (threshold c));
    [|now exists None].
  destruct (take_ok (sto_time sto) (risky_indices (threshold c) mv))
    as (times & -> & _).
  { intros i Hi. unfold risky_indices in Hi. apply np_where_bound in Hi.
    rewrite length_map in Hi. lia. }
  eexists. reflexivity.
Qed.

End KinematicCheckFacts.

Module KinematicCheckExtras.
Import Runs MaximalFacts Sample Report ReportFacts PeakFacts ExtractorFacts.
Import Kinematic KinematicClaims KinematicCheck KinematicCheckFacts.
Local Open Scope Q_scope.

Lemma criteria_require_coordinate :
  Forall (fun c => required_columns c = [coordinate c]
                   /\ condition c = ">"%string) criteria.
Proof. repeat constructor. Qed.

(** X11.  Every risk [check_kinematic_injury_risk] reports belongs to one
    of its three criteria, has a measured peak above the threshold of that
    criterion, and lists at least one risky time, each of them a time stamp
    of the motion.  For a criterion whose condition is not [>], a reported
    risk would have a peak below the threshold and no risky time at all. *)
Theorem kinematic_risks_exceed_threshold :
  (forall sto,
      Forall (fun r =>
                (exists c, In c criteria /\ risk_type r = risk_name c
                           /\ risk_threshold r = threshold c)
                /\ risk_threshold r < measured_value r
                /\ risky_times r <> []
                /\ Forall (fun t => In t (sto_time sto)) (risky_times r))
             (detected_risks (check_kinematic_injury_risk sto)))
  /\ (forall sto c r,
         evaluate sto c = inr (Some r) -> condition c <> ">"%string ->
         measured_value r < risk_threshold r /\ risky_times r = []).
Proof.
  split.
  - intros sto. unfold check_kinematic_injury_risk.
    apply run_criteria_detected; [|constructor].
    pose proof criteria_require_coordinate as Hc.
    rewrite Forall_forall in *. intros c Hin r Hr.
    destruct (Hc c Hin) as [_ Hcond].
    destruct (evaluate_risk sto c r Hr) as (Ht & Hth & Htimes & Hgt & _).
    destruct (Hgt Hcond) as [Hlt Hne].
    split; [now exists c|]. rewrite Hth. now split.
  - intros sto c r Hr Hc.
    destruct (evaluate_risk sto c r Hr) as (_ & Hth & _ & _ & Hlt).
    rewrite Hth. now apply Hlt.
Qed.

Lemma run_criteria_short sto cs :
  well_formed sto -> (length (sto_time sto) < 3)%nat ->
  Forall (fun c => required_columns c = [coordinate c]) cs ->
  forall warned detected,
    let res := run_criteria sto cs warned detected in
    detected_risks res = detected
    /\ ((exists c, In c cs /\ In (coordinate c) (available_columns sto)) ->
        error res = Some (Raised ValueError))
    /\ ((forall c, In c cs -> ~ In (coordinate c) (available_columns sto)) ->
        error res = None).
Proof.
  intros Hwf Hshort. induction 1 as [|c cs Hreq _ IH];
    intros warned detected; simpl.
  - split; [reflexivity|]. split; [intros (c & [] & _)|reflexivity].
  - pose proof (missing_cols_nil sto c Hreq) as Hm.
    destruct (missing_cols sto c) as [|m ms] eqn:E.
    + rewrite (evaluate_short sto c Hwf Hshort (proj1 Hm eq_refl)). simpl.
      split; [reflexivity|]. split; [reflexivity|].
      intros Hno. exfalso. apply (Hno c); [now left|now apply Hm].
    + destruct (IH (warned ++ [MissingColumns (risk_name c) (m :: ms)])
                   detected) as (Hd & Hsome & Hnone).
      split; [exact Hd|]. split.
      * intros (c' & [<-|Hin] & Hav).
        -- apply Hm in Hav. discriminate.
        -- apply Hsome. now exists c'.
      * intros Hno. apply Hnone. intros c' Hin. apply Hno. now right.
Qed.

Lemma run_criteria_long sto cs :
  well_formed sto -> (3 <= length (sto_time sto))%nat ->
  Forall (fun c => required_columns c = [coordinate c]) cs ->
  forall warned detected,
    error (run_criteria sto cs warned detected) = None.
Proof.
  intros Hwf Hlong. induction 1 as [|c cs Hreq _ IH];
    intros warned detected; simpl; [reflexivity|].
  pose proof (missing_cols_nil sto c Hreq) as Hm.
  destruct (missing_cols sto c) as [|m ms] eqn:E; [|apply IH].
  destruct (evaluate_long sto c Hwf Hlong (proj1 Hm eq_refl)) as (o & ->).
  destruct o; apply IH.
Qed.

Lemma criteria_coordinates :
  Forall (fun c => required_columns c = [coordinate c]) criteria.
Proof. repeat constructor. Qed.

(** X12.  On a motion with fewer than three rows the kinematic check
    reports no risk; it records the [ValueError] of the derivative
    computation when at least one of the three coordinates is in the file,
    and records no error when none is. *)
Theorem kinematic_check_short_motion :
  forall sto,
    well_formed sto -> (length (sto_time sto) < 3)%nat ->
    detected_risks (check_kinematic_injury_risk sto) = []
    /\ ((exists c, In c criteria
                   /\ In (coordinate c) (available_columns sto)) ->
        error (check_kinematic_injury_risk sto) = Some (Raised ValueError))
    /\ ((forall c, In c criteria ->
                   ~ In (coordinate c) (available_columns sto)) ->
        error (check_kinematic_injury_risk sto) = None).
Proof.
  intros sto Hwf Hshort.
  exact (run_criteria_short sto criteria Hwf Hshort
                            criteria_coordinates [] []).
Qed.

Lemma kinematic_check_short_motion_witness :
  detected_risks
    (check_kinematic_injury_risk
       (mkStorage [0; 1] [("knee_angle_r"%string, [0; 600])])) = []
  /\ error
       (check_kinematic_injury_risk
          (mkStorage [0; 1] [("knee_angle_r"%string, [0; 600])]))
     = Some (Raised ValueError).
Proof.
  destruct (kinematic_check_short_motion
              (mkStorage [0; 1] [("knee_angle_r"%string, [0; 600])]))
    as (Hd & He & _).
  - repeat constructor.
  - simpl. lia.
  - split; [exact Hd|]. apply He.
    eexists. split; [left; reflexivity|]. simpl. now left.
Defined.

(** X13.  Called without a force file, on a motion with at least three
    rows, each column as long as the time column, the kinematic check
    records no error, and its warnings and reported risks together number
    at most three, one per criterion.  (With a force file the
    muscle-loading block of a patellar risk runs inside the same [try];
    it is not part of [check_kinematic_injury_risk] as embedded here.) *)
Theorem kinematic_check_never_fails :
  forall sto,
    well_formed sto -> (3 <= length (sto_time sto))%nat ->
    error (check_kinematic_injury_risk sto) = None
    /\ (length (warnings (check_kinematic_injury_risk sto))
        + length (detected_risks (check_kinematic_injury_risk sto))
        <= 3)%nat.
Proof.
  intros sto Hwf Hlong. split.
  - exact (run_criteria_long sto criteria Hwf Hlong
                             criteria_coordinates [] []).
  - exact (run_criteria_counts sto criteria [] []).
Qed.

Lemma kinematic_check_never_fails_witness :
  error
    (check_kinematic_injury_risk
       (mkStorage [0; 1; 2; 3]
                  [("knee_angle_r"%string, [0; 600; 1200; 1200])])) = None.
Proof.
  apply (kinematic_check_never_fails
           (mkStorage [0; 1; 2; 3]
                      [("knee_angle_r"%string, [0; 600; 1200; 1200])])).
  - repeat constructor.
  - simpl. lia.
Defined.

End KinematicCheckExtras.

(** ** Joint-angle checks *)

Module JointAngleFacts.
Import Sample Report MuscleChecks ExtractorFacts JointAngle.
Local Open Scope string_scope.

Lemma dict_set_In {V : Type} (d : list (string * V)) key v x :
  In x (map fst (dict_set d key v)) <-> In x (map fst d) \/ x = key.
Proof.
  induction d as [|[k v'] d IH]; simpl.
  - intuition.
  - destruct (String.eqb_spec k key) as [-> |Hne]; simpl.
    + intuition.
    + rewrite IH. intuition.
Qed.

Lemma dict_set_NoDup {V : Type} (d : list (string * V)) key v :
  NoDup (map fst d) -> NoDup (map fst (dict_set d key v)).
Proof.
  induction d as [|[k v'] d IH]; simpl; intros H.
  - repeat constructor. intros [].
  - inversion H as [|? ? Hnin Hd]; subst.
    destruct (String.eqb_spec k key) as [-> |Hne]; simpl.
    + now constructor.
    + constructor; [|now apply IH].
      rewrite dict_set_In. intros [Hin| ->]; [contradiction|congruence].
Qed.

Lemma assign_if_In {V : Type} (c : bool) key (v : V) d x :
  In x (map fst (assign_if c key v d))
  <-> In x (map fst d) \/ (c = true /\ x = key).
Proof.
  unfold assign_if. destruct c.
  - rewrite dict_set_In. intuition.
  - intuition congruence.
Qed.

Lemma assign_if_NoDup {V : Type} (c : bool) key (v : V) d :
  NoDup (map fst d) -> NoDup (map fst (assign_if c key v d)).
Proof.
  unfold assign_if. destruct c; [apply dict_set_NoDup|auto].
Qed.

Lemma dict_lookup_In {V : Type} (d : list (string * V)) key v :
  dict_lookup d key = Some v -> In (key, v) d.
Proof.
  induction d as [|[k v'] d IH]; simpl; [discriminate|].
  destruct (String.eqb_spec k key) as [-> |_].
  - intros H. injection H as <-. now left.
  - intros H. right. now apply IH.
Qed.

Section Steps.
Variable rad2deg : fval -> fval.
Variable angle_joints : list string.
Variable peaks : list (string * peak).

Lemma step_none (risks : risk_dict) (L : list rule) :
  (forall r, In r L -> mem (r_joint r) angle_joints = false) ->
  step_ok rad2deg angle_joints peaks risks L (inr risks).
Proof.
  intros H. split; [auto|]. intros k. split; [auto|].
  intros [Hk|(r & Hr & _ & Hm & _)]; [exact Hk|].
  rewrite (H r Hr) in Hm. discriminate.
Qed.

Lemma step_compose risks L1 L2 res1 (g : risk_dict -> string + risk_dict) :
  step_ok rad2deg angle_joints peaks risks L1 res1 ->
  (forall risks1, step_ok rad2deg angle_joints peaks risks1 L2 (g risks1)) ->
  step_ok rad2deg angle_joints peaks risks (L1 ++ L2) (and_then res1 g).
Proof.
  intros H1 H2. destruct res1 as [j|risks1]; simpl; [exact H1|].
  specialize (H2 risks1). destruct (g risks1) as [j|risks2]; [exact H2|].
  destruct H1 as [Hn1 Hk1], H2 as [Hn2 Hk2]. split; [auto|].
  intros k. rewrite Hk2, Hk1. split.
  - intros [[Hk|(r & Hr & Hrest)]|(r & Hr & Hrest)]; auto.
    + right. exists r. split; [apply in_or_app; now left|exact Hrest].
    + right. exists r. split; [apply in_or_app; now right|exact Hrest].
  - intros [Hk|(r & Hr & Hrest)]; auto.
    apply in_app_or in Hr. destruct Hr as [Hr|Hr].
    + left. right. now exists r.
    + right. now exists r.
Qed.

(** One guarded assignment: [if joint in angles_deg:] read the peaks, and
    [if test: risks[key] = ...]. *)
Lemma step_block joint key (test : peak -> bool) (v : peak -> details)
      (risks : risk_dict) :
  step_ok rad2deg angle_joints peaks risks [mkRule joint key test]
          (if mem joint angle_joints then
             match peaks_deg rad2deg peaks joint with
             | inl k => inl k
             | inr p => inr (assign_if (test p) key (v p) risks)
             end
           else inr risks).
Proof.
  destruct (mem joint angle_joints) eqn:Em.
  - unfold peaks_deg. destruct (dict_lookup peaks joint) as [p|] eqn:El.
    + split; [apply assign_if_NoDup|].
      intros k. rewrite assign_if_In. split.
      * intros [Hk|[Ht ->]]; [now left|right].
        exists (mkRule joint key test). split; [now left|].
        split; [reflexivity|]. split; [exact Em|]. now exists p.
      * intros [Hk|(r & [<- |[]] & <- & _ & p' & Hp' & Ht)]; [now left|].
        simpl in *. rewrite El in Hp'. injection Hp' as <-. now right.
    + now split.
  - apply step_none. intros r [<- |[]]. exact Em.
Qed.

Lemma knee_side_ok side risks :
  step_ok rad2deg angle_joints peaks risks (knee_rules side)
          (knee_side rad2deg angle_joints peaks side risks).
Proof.
  unfold knee_side, knee_rules.
  set (joint := "knee_angle_" ++ side).
  destruct (mem joint angle_joints) eqn:Em.
  - unfold peaks_deg. destruct (dict_lookup peaks joint) as [p|] eqn:El.
    + split; [intros H; now repeat apply assign_if_NoDup|].
      intros k. rewrite !assign_if_In. split.
      * intros [[[Hk|[Ht ->]]|[Ht ->]]|[Ht ->]]; [now left|right..].
        -- eexists. split; [left; reflexivity|].
           split; [reflexivity|]. split; [exact Em|]. now exists p.
        -- eexists. split; [right; left; reflexivity|].
           split; [reflexivity|]. split; [exact Em|]. now exists p.
        -- eexists. split; [right; right; left; reflexivity|].
           split; [reflexivity|]. split; [exact Em|]. now exists p.
      * intros [Hk|(r & Hr & <- & _ & p' & Hp' & Ht)]; [tauto|].
        destruct Hr as [<- |[<- |[<- |[]]]]; simpl in *;
          rewrite El in Hp'; injection Hp' as <-; tauto.
    + now split.
  - apply step_none. intros r [<- |[<- |[<- |[]]]]; exact Em.
Qed.

Lemma hip_side_ok side risks :
  step_ok rad2deg angle_joints peaks risks (hip_rules side)
          (hip_side rad2deg angle_joints peaks side risks).
Proof.
  unfold hip_side, hip_rules.
  apply (step_compose risks [_] [_] _
           (fun risks1 =>
              if mem ("hip_rotation_" ++ side) angle_joints then
                match peaks_deg rad2deg peaks ("hip_rotation_" ++ side) with
                | inl k => inl k
                | inr p =>
                    inr (assign_if
                           (fgt (py_max (fabs (pk_max p)) (fabs (pk_min p)))
                                25)
                           ("hip_rotation_" ++ side)
                           (mkDetails "Labral tear risk"
                                      (py_max (fabs (pk_max p))
                                              (fabs (pk_min p)))
                                      (pk_max_time p) ">25°" None)
                           risks1)
                end
              else inr risks1)).
  - apply (step_block ("hip_adduction_" ++ side) ("hip_flexion_" ++ side)
                      (fun p => fgt (pk_max p) 90)).
  - intros risks1.
    apply (step_block ("hip_rotation_" ++ side) ("hip_rotation_" ++ side)
             (fun p => fgt (py_max (fabs (pk_max p)) (fabs (pk_min p))) 25)
             (fun p => mkDetails "Labral tear risk"
                                 (py_max (fabs (pk_max p)) (fabs (pk_min p)))
                                 (pk_max_time p) ">25°" None)).
Qed.

Lemma shoulder_side_ok side risks :
  step_ok rad2deg angle_joints peaks risks (shoulder_rules side)
          (shoulder_side rad2deg angle_joints peaks side risks).
Proof.
  unfold shoulder_side, shoulder_rules.
  apply (step_compose risks [_] [_] _
           (fun risks1 =>
              if mem ("scapula_upward_rot_" ++ side) angle_joints then
                match peaks_deg rad2deg peaks
                                ("scapula_upward_rot_" ++ side) with
                | inl k => inl k
                | inr p =>
                    inr (assign_if (fgt (pk_max p) 25)
                                   ("scapula_upward_rot_" ++ side)
                                   (mkDetails "Labral tear risk" (pk_max p)
                                              (pk_max_time p) ">25°" None)
                                   risks1)
                end
              else inr risks1)).
  - apply (step_block ("scapula_abduction_" ++ side)
                      ("scapula_abduction_" ++ side)
                      (fun p => fgt (pk_max p) 90)).
  - intros risks1.
    apply (step_block ("scapula_upward_rot_" ++ side)
                      ("scapula_upward_rot_" ++ side)
                      (fun p => fgt (pk_max p) 25)
                      (fun p => mkDetails "Labral tear risk" (pk_max p)
                                          (pk_max_time p) ">25°" None)).
Qed.

Lemma spine_ok risks :
  step_ok rad2deg angle_joints peaks risks spine_rules (spine rad2deg angle_joints peaks risks).
Proof.
  unfold spine, spine_rules.
  apply (step_block "lumbar_bending" "lumbar_bending"
                    (fun p => fgt (pk_max p) 45)).
Qed.

Lemma check_joint_angles_ok :
  step_ok rad2deg angle_joints peaks [] rules (check_joint_angles rad2deg angle_joints peaks).
Proof.
  unfold check_joint_angles, rules.
  rewrite (app_assoc (knee_rules "r")).
  apply step_compose.
  - destruct (mem "knee_angle_r" angle_joints
              || mem "knee_angle_l" angle_joints) eqn:E.
    + apply step_compose; [apply knee_side_ok|].
      intros risks1. apply knee_side_ok.
    + apply orb_false_iff in E. destruct E as [Er El].
      apply step_none. intros r Hr. apply in_app_or in Hr.
      destruct Hr as [[<- |[<- |[<- |[]]]]|[<- |[<- |[<- |[]]]]]; assumption.
  - intros risks.
    apply step_compose; [apply hip_side_ok|]. intros risks1.
    apply step_compose; [apply hip_side_ok|]. intros risks2.
    apply step_compose; [apply shoulder_side_ok|]. intros risks3.
    apply step_compose; [apply shoulder_side_ok|]. intros risks4.
    apply spine_ok.
Qed.

End Steps.

End JointAngleFacts.

Module JointAngleExtras.
Import Sample Report MuscleChecks ExtractorFacts JointAngle JointAngleFacts.
Local Open Scope string_scope.

Lemma rule_keys_NoDup : NoDup (map r_key rules).
Proof.
  repeat (constructor; [simpl; intuition discriminate|]). constructor.
Qed.

Lemma NoDup_map_injective {X Y : Type} (f : X -> Y) l a b :
  NoDup (map f l) -> In a l -> In b l -> f a = f b -> a = b.
Proof.
  induction l as [|x l IH]; simpl; intros Hn Ha Hb E; [destruct Ha|].
  inversion Hn as [|? ? Hnin Hn']; subst.
  destruct Ha as [->|Ha], Hb as [->|Hb].
  - reflexivity.
  - exfalso. apply Hnin. rewrite E. now apply in_map.
  - exfalso. apply Hnin. rewrite <- E. now apply in_map.
  - now apply IH.
Qed.

Lemma NoDup_keys_length (keys : list string) :
  NoDup keys -> incl keys (map r_key rules) -> length keys <= 15.
Proof.
  intros Hn Hincl.
  apply (NoDup_incl_length Hn) in Hincl.
  now rewrite length_map in Hincl.
Qed.

(** X14.  [check_joint_angles] is the evaluation of a table of fifteen
    rules: when it returns, a key is in the [risks] dictionary exactly when
    the rule with that key fires (its joint has angles and its peaks, in
    degrees, pass the test), no key occurs twice and there are at most
    fifteen risks; the only way it raises is the [KeyError] of a joint
    that has angles but no peaks. *)
Theorem check_joint_angles_evaluates_rule_table :
  forall (rad2deg : fval -> fval) (angle_joints : list string)
         (peaks : list (string * peak)),
    match check_joint_angles rad2deg angle_joints peaks with
    | inr risks =>
        NoDup (map fst risks)
        /\ (forall k, In k (map fst risks)
                      <-> exists r, In r rules /\ r_key r = k
                                    /\ fires rad2deg angle_joints peaks r)
        /\ length risks <= 15
    | inl joint =>
        mem joint angle_joints = true /\ dict_lookup peaks joint = None
    end.
Proof.
  intros rad2deg angles peaks.
  pose proof (check_joint_angles_ok rad2deg angles peaks) as H.
  unfold step_ok in H.
  destruct (check_joint_angles rad2deg angles peaks) as [j|risks];
    [exact H|].
  destruct H as [Hn Hk].
  assert (Hnd : NoDup (map fst risks)) by (apply Hn; constructor).
  assert (Hkeys : forall k, In k (map fst risks)
                            <-> exists r, In r rules /\ r_key r = k
                                          /\ fires rad2deg angles peaks r).
  { intros k. rewrite Hk. simpl. tauto. }
  split; [exact Hnd|]. split; [exact Hkeys|].
  rewrite <- (length_map fst risks).
  apply NoDup_keys_length; [exact Hnd|].
  intros k Hin. apply Hkeys in Hin. destruct Hin as (r & Hr & <- & _).
  now apply in_map.
Qed.

Lemma flt_weaken v t t' : (t <= t')%Q -> flt v t = true -> flt v t' = true.
Proof.
  intros Hle. destruct v as [| | |q]; simpl; try congruence.
  rewrite !Qltb_lt. intros H. eapply Qlt_le_trans; eassumption.
Qed.

(** X15.  Whenever the hyperextension risk of a knee is flagged, the
    flexion risk (patellar tendon stress) of the same knee is flagged
    too. *)
Theorem knee_hyperextension_implies_flexion :
  forall (rad2deg : fval -> fval) (angle_joints : list string)
         (peaks : list (string * peak)) risks side,
    check_joint_angles rad2deg angle_joints peaks = inr risks ->
    side = "r" \/ side = "l" ->
    In ("knee_angle_" ++ side ++ "_hyperextension") (map fst risks) ->
    In ("knee_angle_" ++ side ++ "_flexion") (map fst risks).
Proof.
  intros rad2deg angles peaks risks side Hc Hside Hin.
  pose proof (check_joint_angles_ok rad2deg angles peaks) as H.
  rewrite Hc in H. destruct H as [_ Hk].
  apply Hk in Hin. apply Hk. right.
  destruct Hin as [[]|(r & Hr & Hkey & Hm & p & Hp & Ht)].
  destruct Hside as [-> | ->]; simpl in Hkey.
  - exists (mkRule "knee_angle_r" "knee_angle_r_flexion"
                   (fun p => flt (pk_min p) 30)).
    split; [right; left; reflexivity|]. split; [reflexivity|].
    repeat (destruct Hr as [<- |Hr]; try discriminate Hkey);
      [|destruct Hr].
    split; [exact Hm|]. exists p. split; [exact Hp|].
    simpl in *. apply (flt_weaken _ (-5) 30); [discriminate|exact Ht].
  - exists (mkRule "knee_angle_l" "knee_angle_l_flexion"
                   (fun p => flt (pk_min p) 30)).
    split; [do 4 right; left; reflexivity|]. split; [reflexivity|].
    repeat (destruct Hr as [<- |Hr]; try discriminate Hkey);
      [|destruct Hr].
    split; [exact Hm|]. exists p. split; [exact Hp|].
    simpl in *. apply (flt_weaken _ (-5) 30); [discriminate|exact Ht].
Qed.

Lemma knee_hyperextension_implies_flexion_witness :
  In "knee_angle_r_flexion"
     ["knee_angle_r_flexion"; "knee_angle_r_hyperextension"].
Proof.
  apply (knee_hyperextension_implies_flexion
           (fun v => v) ["knee_angle_r"]
           [("knee_angle_r", mkPeak (Fin 1) (Fin (-6)) (Fin 0) (Fin 2))]
           [("knee_angle_r_flexion",
             mkDetails "Patellar tendon stress" (Fin (-6)) (Fin 2) "<30°"
                       None);
            ("knee_angle_r_hyperextension",
             mkDetails "PCL stress" (Fin (-6)) (Fin 2) ">5° hyperextension"
                       None)]
           "r").
  - reflexivity.
  - now left.
  - simpl. right. now left.
Defined.

Lemma nan_peak_fails_every_rule (rad2deg : fval -> fval) :
  rad2deg NaN = NaN ->
  Forall (fun r => r_test r (peak_deg rad2deg nan_peak) = false) rules.
Proof.
  intros H. unfold peak_deg, nan_peak. simpl. rewrite H.
  repeat constructor.
Qed.

(** X16.  A joint that could not be processed, and so carries NaN peaks,
    never produces a risk: none of the rules that read this joint has its
    key in the result. *)
Theorem failed_joint_yields_no_risk :
  forall (rad2deg : fval -> fval) (angle_joints : list string)
         (peaks : list (string * peak)) risks r,
    rad2deg NaN = NaN ->
    check_joint_angles rad2deg angle_joints peaks = inr risks ->
    In r rules ->
    dict_lookup peaks (r_joint r) = Some nan_peak ->
    ~ In (r_key r) (map fst risks).
Proof.
  intros rad2deg angles peaks risks r Hnan Hc Hr Hp Hin.
  pose proof (check_joint_angles_ok rad2deg angles peaks) as H.
  rewrite Hc in H. destruct H as [_ Hk].
  apply Hk in Hin. destruct Hin as [[]|(r' & Hr' & Hkey & _ & p & Hp' & Ht)].
  assert (r' = r)
    by exact (NoDup_map_injective r_key rules r' r rule_keys_NoDup
                                  Hr' Hr Hkey).
  subst r'. rewrite Hp in Hp'. injection Hp' as <-.
  pose proof (nan_peak_fails_every_rule rad2deg Hnan) as Hall.
  rewrite Forall_forall in Hall. rewrite (Hall r Hr) in Ht. discriminate.
Qed.

Lemma failed_joint_yields_no_risk_witness :
  ~ In "lumbar_bending"
       (map fst
            [("hip_flexion_r",
              mkDetails "Lumbar spine compression risk" (Fin 95) (Fin 1)
                        ">90°"
                        (Some "Requires torque >2 Nm/kg to confirm risk"))]).
Proof.
  apply (failed_joint_yields_no_risk
           (fun v => v) ["hip_adduction_r"; "lumbar_bending"]
           [("hip_adduction_r", mkPeak (Fin 95) (Fin 0) (Fin 1) (Fin 0));
            ("lumbar_bending", nan_peak)]
           _ (mkRule "lumbar_bending" "lumbar_bending"
                     (fun p => fgt (pk_max p) 45))).
  - reflexivity.
  - reflexivity.
  - unfold rules. apply in_or_app. right. apply in_or_app. right.
    apply in_or_app. right. apply in_or_app. right.
    apply in_or_app. right. apply in_or_app. right. now left.
  - reflexivity.
Defined.

(** X17.  [output_risks] after [check_joint_angles] answers with the
    message "No significant injury risks detected." exactly when no rule
    fires, and otherwise with one entry per risk, in the order of the
    dictionary, under the key of the risk. *)
Theorem output_message_iff_no_rule_fires :
  forall (rad2deg : fval -> fval) (angle_joints : list string)
         (peaks : list (string * peak)) risks,
    check_joint_angles rad2deg angle_joints peaks = inr risks ->
    (output_risks risks = Message "No significant injury risks detected."
     <-> forall r, In r rules -> ~ fires rad2deg angle_joints peaks r)
    /\ (forall risk_results,
           output_risks risks = RiskList risk_results ->
           map risk_detected_in risk_results = map fst risks
           /\ map info_note risk_results = map (fun kd => d_note (snd kd))
                                               risks).
Proof.
  intros rad2deg angles peaks risks Hc.
  pose proof (check_joint_angles_ok rad2deg angles peaks) as H.
  rewrite Hc in H. destruct H as [_ Hk]. split.
  - split.
    + intros Hout r Hr Hf. destruct risks as [|kd risks]; [|discriminate].
      apply (proj2 (Hk (r_key r))). right. now exists r.
    + intros Hno. destruct risks as [|[k d] risks]; [reflexivity|exfalso].
      destruct (proj1 (Hk k)) as [[]|(r & Hr & _ & Hf)]; [now left|].
      exact (Hno r Hr Hf).
  - intros rr Hout.
    assert (E : rr = map (fun kd =>
                            mkInfo (fst kd) (d_type (snd kd))
                                   (d_value (snd kd)) (d_threshold (snd kd))
                                   (d_time (snd kd)) (d_note (snd kd)))
                         risks).
    { destruct risks as [|kd risks]; [discriminate|].
      injection Hout as <-. reflexivity. }
    rewrite E, !map_map. split; reflexivity.
Qed.

Lemma output_message_iff_no_rule_fires_witness :
  output_risks [] = Message "No significant injury risks detected."
  <-> forall r, In r rules ->
                ~ fires (fun v => v) ["lumbar_bending"]
                        [("lumbar_bending", nan_peak)] r.
Proof.
  apply (output_message_iff_no_rule_fires
           (fun v => v) ["lumbar_bending"] [("lumbar_bending", nan_peak)] []).
  reflexivity.
Defined.

End JointAngleExtras.

(** ** Peaks of a joint column *)

Module JointPeakFacts.
Import Sample Report ReportFacts PeakFacts ExtractorFacts JointAngle.
Local Open Scope Q_scope.

Lemma Qltb_false_le x y : Qltb x y = false -> y <= x.
Proof.
  unfold Qltb. rewrite negb_false_iff. apply Qle_bool_iff.
Qed.

Lemma nth_error_snoc_lt {X : Type} (pre : list X) v k :
  (k < length pre)%nat -> nth_error (pre ++ [v]) k = nth_error pre k.
Proof. intros H. now apply nth_error_app1. Qed.

Lemma nth_error_snoc_In {X : Type} (pre : list X) v k x :
  (k < length pre)%nat -> nth_error (pre ++ [v]) k = Some x -> In x pre.
Proof.
  intros H E. rewrite nth_error_snoc_lt in E by exact H.
  exact (nth_error_In _ _ E).
Qed.

Lemma argmax_from_spec a : forall pre bi bv,
  nth_error pre bi = Some bv ->
  (forall x, In x pre -> x <= bv) ->
  (forall k x, (k < bi)%nat -> nth_error pre k = Some x -> x < bv) ->
  exists m,
    nth_error (pre ++ a) (argmax_from a (length pre) bi bv) = Some m
    /\ (forall x, In x (pre ++ a) -> x <= m)
    /\ (forall k x, (k < argmax_from a (length pre) bi bv)%nat ->
                    nth_error (pre ++ a) k = Some x -> x < m).
Proof.
  induction a as [|v a IH]; intros pre bi bv Hbi Hub Hfirst; simpl.
  - rewrite app_nil_r. exists bv. auto.
  - assert (Hlt : (bi < length pre)%nat).
    { apply nth_error_Some. congruence. }
    replace (pre ++ v :: a) with ((pre ++ [v]) ++ a)
      by (rewrite <- app_assoc; reflexivity).
    replace (S (length pre)) with (length (pre ++ [v]))
      by (rewrite length_app; simpl; lia).
    destruct (Qltb bv v) eqn:E.
    + apply Qltb_lt in E. apply IH.
      * rewrite nth_error_app2 by lia. now rewrite Nat.sub_diag.
      * intros x Hx. apply in_app_or in Hx. destruct Hx as [Hx|[<- |[]]].
        -- apply Qlt_le_weak. eapply Qle_lt_trans; [apply Hub, Hx|exact E].
        -- apply Qle_refl.
      * intros k x Hk Hx.
        eapply Qle_lt_trans; [|exact E].
        apply Hub. exact (nth_error_snoc_In pre v k x Hk Hx).
    + apply Qltb_false_le in E. apply IH.
      * now rewrite nth_error_snoc_lt.
      * intros x Hx. apply in_app_or in Hx. destruct Hx as [Hx|[<- |[]]].
        -- now apply Hub.
        -- exact E.
      * intros k x Hk Hx. apply (Hfirst k x Hk).
        rewrite nth_error_snoc_lt in Hx by lia. exact Hx.
Qed.

Lemma argmin_from_spec a : forall pre bi bv,
  nth_error pre bi = Some bv ->
  (forall x, In x pre -> bv <= x) ->
  (forall k x, (k < bi)%nat -> nth_error pre k = Some x -> bv < x) ->
  exists m,
    nth_error (pre ++ a) (argmin_from a (length pre) bi bv) = Some m
    /\ (forall x, In x (pre ++ a) -> m <= x)
    /\ (forall k x, (k < argmin_from a (length pre) bi bv)%nat ->
                    nth_error (pre ++ a) k = Some x -> m < x).
Proof.
  induction a as [|v a IH]; intros pre bi bv Hbi Hlb Hfirst; simpl.
  - rewrite app_nil_r. exists bv. auto.
  - assert (Hlt : (bi < length pre)%nat).
    { apply nth_error_Some. congruence. }
    replace (pre ++ v :: a) with ((pre ++ [v]) ++ a)
      by (rewrite <- app_assoc; reflexivity).
    replace (S (length pre)) with (length (pre ++ [v]))
      by (rewrite length_app; simpl; lia).
    destruct (Qltb v bv) eqn:E.
    + apply Qltb_lt in E. apply IH.
      * rewrite nth_error_app2 by lia. now rewrite Nat.sub_diag.
      * intros x Hx. apply in_app_or in Hx. destruct Hx as [Hx|[<- |[]]].
        -- apply Qlt_le_weak. eapply Qlt_le_trans; [exact E|apply Hlb, Hx].
        -- apply Qle_refl.
      * intros k x Hk Hx.
        eapply Qlt_le_trans; [exact E|].
        apply Hlb. exact (nth_error_snoc_In pre v k x Hk Hx).
    + apply Qltb_false_le in E. apply IH.
      * now rewrite nth_error_snoc_lt.
      * intros x Hx. apply in_app_or in Hx. destruct Hx as [Hx|[<- |[]]].
        -- now apply Hlb.
        -- exact E.
      * intros k x Hk Hx. apply (Hfirst k x Hk).
        rewrite nth_error_snoc_lt in Hx by lia. exact Hx.
Qed.

Lemma np_argmax_spec a i :
  np_argmax a = Ok i ->
  exists m, nth_error a i = Some m
            /\ (forall x, In x a -> x <= m)
            /\ (forall k x, (k < i)%nat -> nth_error a k = Some x -> x < m).
Proof.
  destruct a as [|v a]; simpl; [discriminate|]. intros H. injection H as <-.
  apply (argmax_from_spec a [v] 0%nat v).
  - reflexivity.
  - intros x [<- |[]]. apply Qle_refl.
  - intros k x Hk. lia.
Qed.

Lemma np_argmin_spec a i :
  np_argmin a = Ok i ->
  exists m, nth_error a i = Some m
            /\ (forall x, In x a -> m <= x)
            /\ (forall k x, (k < i)%nat -> nth_error a k = Some x -> m < x).
Proof.
  destruct a as [|v a]; simpl; [discriminate|]. intros H. injection H as <-.
  apply (argmin_from_spec a [v] 0%nat v).
  - reflexivity.
  - intros x [<- |[]]. apply Qle_refl.
  - intros k x Hk. lia.
Qed.

End JointPeakFacts.

Module JointPeakExtras.
Import Sample Report ReportFacts PeakFacts ExtractorFacts.
Import JointAngle JointPeakFacts.
Local Open Scope Q_scope.

(** X18.  The peaks [get_joint_angles] stores for a joint: a column that
    cannot be read or is empty gets NaN peaks; otherwise, with a time
    vector at least as long as the column, the stored maximum and minimum
    are samples of the column that bound all its samples, and the stored
    times are the time stamps of the first sample equal to the maximum and
    of the first sample equal to the minimum. *)
Theorem joint_peak_extremes :
  (forall time, joint_peak time None = nan_peak
                /\ joint_peak time (Some []) = nan_peak)
  /\ (forall time column,
         column <> [] -> (length column <= length time)%nat ->
         exists mx mn tmax tmin i j,
           joint_peak time (Some column)
           = mkPeak (Fin mx) (Fin mn) (Fin tmax) (Fin tmin)
           /\ In mx column /\ In mn column
           /\ (forall x, In x column -> mn <= x /\ x <= mx)
           /\ nth_error time i = Some tmax
           /\ nth_error time j = Some tmin
           /\ (exists x, nth_error column i = Some x /\ x == mx)
           /\ (forall k x, (k < i)%nat -> nth_error column k = Some x ->
                           x < mx)
           /\ (exists x, nth_error column j = Some x /\ x == mn)
           /\ (forall k x, (k < j)%nat -> nth_error column k = Some x ->
                           mn < x)).
Proof.
  split; [intros time; split; reflexivity|].
  intros time column Hne Hlen.
  destruct (np_max_total column Hne) as (mx & Emx).
  destruct (np_min_total column Hne) as (mn & Emn).
  assert (Hi : exists i, np_argmax column = Ok i).
  { destruct column; [congruence|]. eexists. reflexivity. }
  assert (Hj : exists j, np_argmin column = Ok j).
  { destruct column; [congruence|]. eexists. reflexivity. }
  destruct Hi as (i & Ei), Hj as (j & Ej).
  destruct (np_argmax_spec column i Ei) as (m1 & Hm1 & Hub1 & Hfirst1).
  destruct (np_argmin_spec column j Ej) as (m2 & Hm2 & Hlb2 & Hfirst2).
  destruct (index_ok time i) as (tmax & Etmax & Htmax).
  { assert (i < length column)%nat by (apply nth_error_Some; congruence).
    lia. }
  destruct (index_ok time j) as (tmin & Etmin & Htmin).
  { assert (j < length column)%nat by (apply nth_error_Some; congruence).
    lia. }
  destruct (np_max_spec column mx Emx) as [Hinx Hubx].
  destruct (np_min_spec column mn Emn) as [Hinn Hlbn].
  assert (Eq1 : m1 == mx).
  { apply Qle_antisym; [apply Hubx; exact (nth_error_In _ _ Hm1)|].
    now apply Hub1. }
  assert (Eq2 : m2 == mn).
  { apply Qle_antisym; [now apply Hlb2|].
    apply Hlbn. exact (nth_error_In _ _ Hm2). }
  exists mx, mn, tmax, tmin, i, j.
  split.
  { unfold joint_peak, compute_peak.
    rewrite Emx. simpl. rewrite Emn. simpl. rewrite Ei. simpl.
    rewrite Etmax. simpl. rewrite Ej. simpl. rewrite Etmin. reflexivity. }
  split; [exact Hinx|]. split; [exact Hinn|].
  split; [intros x Hx; split; [now apply Hlbn|now apply Hubx]|].
  split; [exact Htmax|]. split; [exact Htmin|].
  split; [now exists m1|].
  split.
  { intros k x Hk Hx. rewrite <- Eq1. exact (Hfirst1 k x Hk Hx). }
  split; [now exists m2|].
  intros k x Hk Hx. rewrite <- Eq2. exact (Hfirst2 k x Hk Hx).
Qed.

End JointPeakExtras.

(** ** Joint force and torque risks *)

Module JointForceFacts.
Import Sample Report PeakFacts JointAngle JointAngleFacts JointForce.
Local Open Scope string_scope.

(** The two side checks, with every lookup, maximum and comparison
    decided. *)
Ltac decide_side_checks H :=
  unfold side_checks in H;
  repeat first
         [ progress simpl in H
         | match type of H with
           | context [match dict_lookup ?d ?k with _ => _ end] =>
               destruct (dict_lookup d k)
           | context [np_max ?a] => destruct (np_max a)
           | context [Qltb ?a ?b] => destruct (Qltb a b)
           end ].

Lemma dict_set_values {V : Type} (P : V -> Prop) (d : list (string * V))
      key v :
  P v -> Forall (fun kv => P (snd kv)) d ->
  Forall (fun kv => P (snd kv)) (dict_set d key v).
Proof.
  intros Hv. induction 1 as [|[k v'] d Hk Hd IH]; simpl.
  - repeat constructor. exact Hv.
  - destruct (String.eqb k key); constructor; auto.
Qed.

(** Every array stored by [categorize] is a column of the table. *)
Lemma categorize_values (P : list Q -> Prop) table :
  Forall (fun col => P (snd col)) table ->
  Forall (fun kv => P (snd kv)) (fst (categorize table))
  /\ Forall (fun kv => P (snd kv)) (snd (categorize table)).
Proof.
  unfold categorize.
  assert (G : forall dicts,
             Forall (fun col => P (snd col)) table ->
             Forall (fun kv => P (snd kv)) (fst dicts) ->
             Forall (fun kv => P (snd kv)) (snd dicts) ->
             Forall (fun kv => P (snd kv))
                    (fst (fold_left add_column table dicts))
             /\ Forall (fun kv => P (snd kv))
                       (snd (fold_left add_column table dicts))).
  { induction table as [|[label data] table IH];
      intros [forces torques] Ht Hf Hq; simpl in *; [now split|].
    inversion Ht as [|? ? Hd Ht']; subst. simpl in Hd.
    destruct (contains "_force" label).
    - apply IH; simpl; auto. now apply dict_set_values.
    - destruct (contains "_moment" label).
      + apply IH; simpl; auto. now apply dict_set_values.
      + apply IH; simpl; auto. }
  intros Ht. apply G; simpl; auto.
Qed.

Lemma dict_lookup_value {V : Type} (P : V -> Prop) (d : list (string * V))
      key v :
  Forall (fun kv => P (snd kv)) d -> dict_lookup d key = Some v -> P v.
Proof.
  intros Hall H. apply dict_lookup_In in H.
  rewrite Forall_forall in Hall. exact (Hall _ H).
Qed.

Lemma max_abs_nonempty (a : list Q) :
  a <> [] -> exists m, np_max (np_abs a) = Ok m.
Proof. destruct a; [congruence|]. intros _. eexists. reflexivity. Qed.

Lemma side_checks_total forces torques body_weight side risks :
  Forall (fun kv => snd kv <> []) forces ->
  Forall (fun kv => snd kv <> []) torques ->
  exists risks',
    side_checks forces torques body_weight side risks = Ok risks'.
Proof.
  intros Hf Ht. unfold side_checks.
  assert (Hrot : forall risks1,
             exists risks',
               match dict_lookup torques ("hip_rotation_" ++ side) with
               | Some torque =>
                   max_torque <- np_max (np_abs torque) ;;
                   Ok (assign_if (Qltb ((15 # 10) * body_weight) max_torque)
                                 ("knee_" ++ side ++ "_rotation")
                                 (mkDetails "Meniscal stress risk"
                                            (Some max_torque)
                                            (Some ">1.5 Nm/kg") None None)
                                 risks1)
               | None => Ok risks1
               end = Ok risks').
  { intros risks1.
    destruct (dict_lookup torques ("hip_rotation_" ++ side)) as [tq|] eqn:Et;
      [|eexists; reflexivity].
    destruct (max_abs_nonempty tq) as (m' & Em).
    { exact (dict_lookup_value (fun a => a <> []) torques _ tq Ht Et). }
    rewrite Em. eexists. reflexivity. }
  destruct (dict_lookup forces "pelvis_tz") as [shear|] eqn:Es.
  - destruct (max_abs_nonempty shear) as (m & Em).
    { exact (dict_lookup_value (fun a => a <> []) forces _ shear Hf Es). }
    rewrite Em. cbv [bind]. apply Hrot.
  - cbv [bind]. apply Hrot.
Qed.

End JointForceFacts.

Module JointForceExtras.
Import Sample Report PeakFacts JointAngle JointAngleFacts.
Import JointForce JointForceFacts.
Local Open Scope string_scope.

(** X19.  The shear check reads the same ['pelvis_tz'] force for both
    sides: the right-knee shear risk is reported exactly when the
    left-knee shear risk is, and then with the same measured value. *)
Theorem knee_shear_flagged_on_both_sides :
  forall table body_weight risks,
    analyze_injury_risks_from_sto table body_weight = Ok risks ->
    (In "knee_r_shear" (map fst risks) <-> In "knee_l_shear" (map fst risks))
    /\ (forall d,
           dict_lookup risks "knee_r_shear" = Some d ->
           exists d', dict_lookup risks "knee_l_shear" = Some d'
                      /\ d_value d' = d_value d).
Proof.
  intros table bw risks H. unfold analyze_injury_risks_from_sto in H.
  destruct (categorize table) as [forces torques].
  decide_side_checks H; try discriminate; injection H as <-;
    simpl; (split; [intuition discriminate|]);
    intros d Hd; try discriminate;
    injection Hd as <-; eexists; split; reflexivity.
Qed.

Lemma knee_shear_flagged_on_both_sides_witness :
  In "knee_r_shear" ["knee_r_shear"; "knee_l_shear"]
  <-> In "knee_l_shear" ["knee_r_shear"; "knee_l_shear"].
Proof.
  apply (knee_shear_flagged_on_both_sides
           [("pelvis_tz_force", [1; -200; 3]%Q)] 70
           [("knee_r_shear",
             mkDetails "ACL injury risk" (Some 200%Q)
                       (Some ">20% body weight") None None);
            ("knee_l_shear",
             mkDetails "ACL injury risk" (Some 200%Q)
                       (Some ">20% body weight") None None)]).
  reflexivity.
Defined.

(** X20.  [output_risks] after [analyze_injury_risks_from_sto] never
    issues a "missing value or threshold" entry and always reports the
    time as "N/A"; it lists one entry per risk, at most four, and answers
    with the message exactly when there is no risk. *)
Theorem joint_force_output_has_no_time :
  forall table body_weight risks,
    analyze_injury_risks_from_sto table body_weight = Ok risks ->
    length risks <= 4
    /\ match output_risks risks with
       | Message text =>
           risks = [] /\ text = "No significant injury risks detected."
       | RiskList risk_results =>
           risks <> []
           /\ length risk_results = length risks
           /\ Forall (fun e => match e with
                               | Info _ _ _ _ time _ => time = "N/A"
                               | Missing _ => False
                               end) risk_results
       end.
Proof.
  intros table bw risks H. unfold analyze_injury_risks_from_sto in H.
  destruct (categorize table) as [forces torques].
  decide_side_checks H; try discriminate; injection H as <-;
    simpl; (split; [lia|]);
    first [ now split
          | split; [discriminate|]; split; [reflexivity|];
            repeat constructor ].
Qed.

Lemma joint_force_output_has_no_time_witness :
  length ([("knee_r_shear",
            mkDetails "ACL injury risk" (Some 200%Q)
                      (Some ">20% body weight") None None);
           ("knee_l_shear",
            mkDetails "ACL injury risk" (Some 200%Q)
                      (Some ">20% body weight") None None)]) <= 4.
Proof.
  apply (joint_force_output_has_no_time
           [("pelvis_tz_force", [1; -200; 3]%Q)] 70).
  reflexivity.
Defined.

(** X21.  On a table whose columns all have at least one row
    [analyze_injury_risks_from_sto] returns its risks and raises
    nothing. *)
Theorem joint_force_analysis_total :
  forall table body_weight,
    Forall (fun col => snd col <> []) table ->
    exists risks, analyze_injury_risks_from_sto table body_weight = Ok risks.
Proof.
  intros table bw Ht. unfold analyze_injury_risks_from_sto.
  destruct (categorize_values (fun a => a <> []) table Ht) as [Hf Hq].
  destruct (categorize table) as [forces torques]. simpl in Hf, Hq.
  destruct (side_checks_total forces torques bw "r" [] Hf Hq) as (r1 & ->).
  simpl. apply side_checks_total; assumption.
Qed.

Lemma joint_force_analysis_total_witness :
  exists risks,
    analyze_injury_risks_from_sto
      [("pelvis_tz_force", [1; -200; 3]%Q);
       ("hip_rotation_l_moment", [2; 3; 4]%Q)] 70 = Ok risks.
Proof.
  apply joint_force_analysis_total.
  repeat constructor; discriminate.
Defined.

End JointForceExtras.

(** ** Cleaning the results before serialisation *)

Module PipelineFacts.
Import Pipeline.

Lemma obj_nested_ind (P : obj -> Prop) :
  (forall items, Forall (fun kv => P (snd kv)) items -> P (Dict items)) ->
  (forall items, Forall P items -> P (List items)) ->
  P Figure -> P Other ->
  forall o, P o.
Proof.
  intros HD HL HF HO. fix IH 1. intros [items|items| |].
  - apply HD. induction items as [|[k v] items IHl]; constructor.
    + apply IH.
    + exact IHl.
  - apply HL. induction items as [|item items IHl]; constructor.
    + apply IH.
    + exact IHl.
  - exact HF.
  - exact HO.
Qed.

Lemma clean_figure_free o :
  figures_in_dicts_only o = true -> is_figure o = false ->
  figure_free (remove_non_serializable o) = true.
Proof.
  induction o as [items IH|items IH| |] using obj_nested_ind;
    intros Hok Hnf; try discriminate; try reflexivity.
  - simpl in *. clear Hnf.
    induction IH as [|[k v] items Hv _ IHl]; [reflexivity|].
    simpl in Hok. apply andb_true_iff in Hok. destruct Hok as [Hokv Hrest].
    simpl in Hv. specialize (IHl Hrest).
    destruct v as [vi|vi| |].
    + simpl. apply andb_true_iff. split; [|exact IHl].
      now apply Hv.
    + simpl. apply andb_true_iff. split; [|exact IHl].
      now apply Hv.
    + exact IHl.
    + simpl. exact IHl.
  - simpl in *. clear Hnf.
    induction IH as [|item items Hitem _ IHl]; [reflexivity|].
    simpl in Hok. apply andb_true_iff in Hok. destruct Hok as [Hok Hrest].
    apply andb_true_iff in Hok. destruct Hok as [Hnf Hokv].
    specialize (IHl Hrest).
    destruct item as [vi|vi| |].
    + simpl. apply andb_true_iff. split; [|exact IHl]. now apply Hitem.
    + simpl. apply andb_true_iff. split; [|exact IHl]. now apply Hitem.
    + discriminate.
    + simpl. exact IHl.
Qed.

Lemma clean_list_of_figures_step n :
  remove_non_serializable (List (Figure :: Figure :: repeat Figure n))
  = match remove_non_serializable (List (repeat Figure n)) with
    | List l => List (Figure :: l)
    | other => other
    end.
Proof. reflexivity. Qed.

Lemma clean_list_of_figures_half n : forall m,
  m <= n ->
  remove_non_serializable (List (repeat Figure m))
  = List (repeat Figure (m / 2)).
Proof.
  induction n as [|n IH]; intros m Hm.
  - replace m with 0 by lia. reflexivity.
  - destruct m as [|[|m]]; [reflexivity|reflexivity|].
    change (repeat Figure (S (S m)))
      with (Figure :: Figure :: repeat Figure m).
    rewrite clean_list_of_figures_step, (IH m) by lia.
    replace (S (S m)) with (m + 1 * 2) by lia.
    rewrite Nat.div_add by lia.
    rewrite Nat.add_1_r. reflexivity.
Qed.

End PipelineFacts.

Module PipelineExtras.
Import Pipeline PipelineFacts.
Local Open Scope string_scope.

(** X22.  When figures occur only as values of dictionaries (no list, at
    any depth, has a figure among its elements), the results dictionary
    [remove_non_serializable] leaves contains no figure at all. *)
Theorem figures_under_dicts_are_removed :
  forall items,
    figures_in_dicts_only (Dict items) = true ->
    figure_free (remove_non_serializable (Dict items)) = true.
Proof.
  intros items H. now apply clean_figure_free.
Qed.

Lemma figures_under_dicts_are_removed_witness :
  figure_free
    (remove_non_serializable
       (Dict [("posture_alignment_risk",
               Dict [("risks", List [Dict [("Risk Type", Other)]]);
                     ("plots", Dict [("trunk_lean", Figure);
                                     ("pelvic_tilt", Figure)])])]))
  = true.
Proof.
  apply figures_under_dicts_are_removed. reflexivity.
Defined.

(** X23.  Figures that are elements of a list are not all removed: the
    element that follows a deleted figure is skipped, so a list of [n]
    figures is left with [n / 2] of them. *)
Theorem figures_in_lists_survive :
  forall n,
    remove_non_serializable (List (repeat Figure n))
    = List (repeat Figure (n / 2)).
Proof.
  intros n. now apply (clean_list_of_figures_half n).
Qed.

End PipelineExtras.

(** ** Writing a duration and reading it back *)

Module DurationTextFacts.
Import Sample ExtractorFacts JointForce DurationText.
Local Open Scope string_scope.

Lemma all_chars_app P a b :
  all_chars P (a ++ b) = all_chars P a && all_chars P b.
Proof.
  induction a as [|c a IH]; simpl; [reflexivity|].
  now rewrite IH, andb_assoc.
Qed.

Lemma all_chars_impl (P P' : ascii -> bool) s :
  (forall c, P c = true -> P' c = true) ->
  all_chars P s = true -> all_chars P' s = true.
Proof.
  intros H. induction s as [|c s IH]; simpl; [reflexivity|].
  intros E. apply andb_true_iff in E. destruct E as [Ec Es].
  apply andb_true_iff. split; [now apply H|now apply IH].
Qed.

Lemma digits_of_uint u : all_chars is_digit (NilEmpty.string_of_uint u) = true.
Proof. induction u; simpl; try rewrite IHu; reflexivity. Qed.

Lemma digit_is_not c other :
  is_digit other = false -> is_digit c = true ->
  negb (Ascii.eqb c other) = true.
Proof.
  intros Ho Hc. destruct (Ascii.eqb_spec c other) as [->|_]; [|reflexivity].
  congruence.
Qed.

(** Removing the unit: [(t + 's').replace('s', '')] is [t] when [t] has no
    ['s']. *)
Lemma replace_unit t :
  all_chars (fun c => negb (Ascii.eqb c "s")) t = true ->
  replace "s" "" (t ++ "s") = t.
Proof.
  unfold replace. induction t as [|c t IH]; intros H; [reflexivity|].
  simpl in H. apply andb_true_iff in H. destruct H as [Hc Ht].
  apply negb_true_iff, Ascii.eqb_neq in Hc.
  change ((String c t ++ "s")) with (String c (t ++ "s")).
  cbn [replace_from prefix].
  destruct (ascii_dec "s" c) as [E|_]; [congruence|].
  now rewrite IH.
Qed.

Lemma split_at_dot_app ip fp :
  all_chars (fun c => negb (Ascii.eqb c ".")) ip = true ->
  split_at_dot (ip ++ String "." fp) = Some (ip, fp).
Proof.
  induction ip as [|c ip IH]; intros H; [reflexivity|].
  simpl in H. apply andb_true_iff in H. destruct H as [Hc Hip].
  apply negb_true_iff in Hc. simpl. rewrite Hc, (IH Hip). reflexivity.
Qed.

Lemma string_of_N_nonempty n :
  exists c rest,
    NilEmpty.string_of_uint (N.to_uint n) = String c rest
    /\ is_digit c = true.
Proof.
  pose proof (digits_of_uint (N.to_uint n)) as Hd.
  assert (Hn : N.to_uint n <> Decimal.Nil).
  { destruct n; simpl; [discriminate|apply DecimalPos.Unsigned.to_uint_nonnil]. }
  destruct (N.to_uint n); try congruence; simpl in *;
    eexists; eexists; (split; [reflexivity|reflexivity]).
Qed.

Lemma two_digits_value f :
  (f < 100)%N -> N.of_uint (two_digits f) = f.
Proof.
  intros H.
  assert (Hall : forallb (fun k => N.eqb (N.of_uint (two_digits (N.of_nat k)))
                                         (N.of_nat k))
                         (seq 0 100) = true) by (vm_compute; reflexivity).
  rewrite forallb_forall in Hall.
  specialize (Hall (N.to_nat f)). rewrite N2Nat.id in Hall.
  apply N.eqb_eq, Hall. apply in_seq. lia.
Qed.

Lemma two_digits_length f :
  String.length (NilEmpty.string_of_uint (two_digits f)) = 2.
Proof.
  assert (H : forall d rest,
             String.length (NilEmpty.string_of_uint (digit_uint d rest))
             = S (String.length (NilEmpty.string_of_uint rest))).
  { intros d rest. unfold digit_uint.
    repeat match goal with
           | |- context [match ?p with _ => _ end] => destruct p
           end; reflexivity. }
  unfold two_digits. now rewrite !H.
Qed.

(** Sign and size of the rounding. *)
Lemma round_half_even_spec q :
  let h := round_half_even q in
  (2 * Z.abs (h * Zpos (Qden q) - Qnum q) <= Zpos (Qden q))%Z
  /\ ((0 <= Qnum q)%Z -> (0 <= h)%Z)
  /\ ((Qnum q < 0)%Z -> (h <= 0)%Z).
Proof.
  unfold round_half_even.
  set (n := Qnum q). set (d := Zpos (Qden q)).
  assert (Hd : (0 < d)%Z) by (subst d; lia).
  pose proof (Z.div_mod n d ltac:(lia)) as Hdm.
  pose proof (Z.mod_pos_bound n d Hd) as Hr.
  set (z := (n / d)%Z) in *. set (r := (n mod d)%Z) in *.
  assert (Hz0 : (0 <= n -> 0 <= z)%Z) by (intros; subst z; now apply Z.div_pos).
  assert (Hz1 : (n < 0 -> z <= -1)%Z) by (intros; nia).
  destruct (2 * r <? d)%Z eqn:E1.
  - apply Z.ltb_lt in E1. split; [nia|]. split; lia.
  - apply Z.ltb_ge in E1. destruct (d <? 2 * r)%Z eqn:E2.
    + apply Z.ltb_lt in E2. split; [nia|]. split; lia.
    + apply Z.ltb_ge in E2. destruct (Z.even z); (split; [nia|split; lia]).
Qed.

Lemma hundredths_spec q :
  (2 * Z.abs (hundredths q * Zpos (Qden q) - Qnum q * 100)
   <= Zpos (Qden q))%Z
  /\ ((0 <= Qnum q)%Z -> (0 <= hundredths q)%Z)
  /\ ((Qnum q < 0)%Z -> (hundredths q <= 0)%Z).
Proof.
  unfold hundredths.
  pose proof (round_half_even_spec (q * 100)%Q) as H.
  cbv zeta in H. simpl Qnum in H. simpl Qden in H.
  rewrite Pos.mul_1_r in H.
  destruct H as (H1 & H2 & H3). split; [exact H1|]. split; intros; lia.
Qed.

Lemma Qltb_zero_num q : Qltb q 0 = true <-> (Qnum q < 0)%Z.
Proof.
  rewrite Qltb_lt. unfold Qlt. simpl. lia.
Qed.

Lemma hundredths_value h :
  ((Z.of_N (h / 100) # 1) + (Z.of_N (h mod 100) # 100) == Z.of_N h # 100)%Q.
Proof.
  unfold Qeq, Qplus. cbn [Qnum Qden].
  pose proof (N.div_mod h 100 ltac:(discriminate)) as E.
  apply (f_equal Z.of_N) in E. rewrite N2Z.inj_add, N2Z.inj_mul in E.
  change (Z.of_N 100) with 100%Z in E. lia.
Qed.

Lemma unsigned_text_chars h (P : ascii -> bool) :
  (forall c, is_digit c = true -> P c = true) -> P "."%char = true ->
  all_chars P (unsigned_text h) = true.
Proof.
  intros Hd Hp. unfold unsigned_text.
  rewrite all_chars_app. apply andb_true_iff. split.
  - apply (all_chars_impl is_digit); [exact Hd|apply digits_of_uint].
  - change ("." ++ ?x) with (String "." x). cbn [all_chars]. rewrite Hp.
    apply (all_chars_impl is_digit); [exact Hd|apply digits_of_uint].
Qed.

Lemma parse_unsigned_body h :
  exists c rest,
    NilEmpty.string_of_uint (N.to_uint (h / 100)) = String c rest
    /\ is_digit c = true
    /\ split_at_dot (unsigned_text h)
       = Some (String c rest,
               NilEmpty.string_of_uint (two_digits (h mod 100))).
Proof.
  destruct (string_of_N_nonempty (h / 100)) as (c & rest & E & Hc).
  exists c, rest. split; [exact E|]. split; [exact Hc|].
  unfold unsigned_text. rewrite <- E.
  change ("." ++ ?x) with (String "." x).
  apply split_at_dot_app.
  apply (all_chars_impl is_digit); [|apply digits_of_uint].
  intros c' Hc'. now apply digit_is_not.
Qed.

Lemma parse_float_unsigned h :
  exists v, parse_float (unsigned_text h) = Some v
            /\ (v == Z.of_N h # 100)%Q.
Proof.
  destruct (parse_unsigned_body h) as (c & rest & E & Hc & Hs).
  assert (Hm : (h mod 100 < 100)%N) by (apply N.mod_lt; discriminate).
  assert (Hfirst : exists tl, unsigned_text h = String c tl).
  { unfold unsigned_text. rewrite E. eexists. reflexivity. }
  destruct Hfirst as (tl & Htl).
  assert (Hneg : Ascii.eqb c "-" = false).
  { apply negb_true_iff. now apply digit_is_not. }
  unfold parse_float. rewrite Htl, Hneg, <- Htl, Hs.
  rewrite <- E, !NilEmpty.usu, two_digits_length.
  rewrite DecimalN.Unsigned.of_to, (two_digits_value _ Hm).
  eexists. split; [reflexivity|].
  change (Pos.of_nat (10 ^ 2)) with 100%positive.
  apply hundredths_value.
Qed.

Lemma parse_float_signed h :
  exists v, parse_float (String "-" (unsigned_text h)) = Some v
            /\ (v == - (Z.of_N h # 100))%Q.
Proof.
  destruct (parse_unsigned_body h) as (c & rest & E & Hc & Hs).
  assert (Hm : (h mod 100 < 100)%N) by (apply N.mod_lt; discriminate).
  unfold parse_float. cbn [Ascii.eqb Bool.eqb]. rewrite Hs.
  rewrite <- E, !NilEmpty.usu, two_digits_length.
  rewrite DecimalN.Unsigned.of_to, (two_digits_value _ Hm).
  eexists. split; [reflexivity|].
  change (Pos.of_nat (10 ^ 2)) with 100%positive.
  now rewrite hundredths_value.
Qed.

Lemma format_2f_chars q :
  all_chars (fun c => negb (Ascii.eqb c "s")) (format_2f q) = true.
Proof.
  unfold format_2f.
  rewrite all_chars_app. apply andb_true_iff. split.
  - now destruct (Qltb q 0).
  - apply unsigned_text_chars; [|reflexivity].
    intros c Hc. now apply digit_is_not.
Qed.

Lemma read_duration_text q :
  exists v, read_duration (duration_text q) = Some v
            /\ (v == round2 q)%Q.
Proof.
  unfold read_duration, duration_text.
  rewrite (replace_unit _ (format_2f_chars q)).
  unfold format_2f.
  destruct (hundredths_spec q) as (_ & Hpos & Hneg).
  unfold round2.
  destruct (Qltb q 0) eqn:Es.
  - apply Qltb_zero_num in Es. specialize (Hneg Es).
    destruct (parse_float_signed (Z.abs_N (hundredths q))) as (v & Ev & Hv).
    exists v. split; [exact Ev|]. rewrite Hv.
    unfold Qeq, Qopp. cbn [Qnum Qden]. rewrite N2Z.inj_abs_N. lia.
  - assert (Hn : (0 <= Qnum q)%Z).
    { destruct (Z.lt_ge_cases (Qnum q) 0) as [Hlt|Hge]; [|exact Hge].
      apply Qltb_zero_num in Hlt. congruence. }
    specialize (Hpos Hn).
    destruct (parse_float_unsigned (Z.abs_N (hundredths q))) as (v & Ev & Hv).
    exists v. split; [exact Ev|]. rewrite Hv.
    unfold Qeq. cbn [Qnum Qden]. rewrite N2Z.inj_abs_N. lia.
Qed.

Lemma round2_error q : (Qabs (round2 q - q) <= 1 # 200)%Q.
Proof.
  destruct (hundredths_spec q) as (H & _ & _).
  unfold round2. apply Qabs_Qle_condition.
  destruct q as [n d]. cbn [Qnum Qden] in H.
  unfold Qle, Qminus, Qplus, Qopp. cbn [Qnum Qden]. split; nia.
Qed.

End DurationTextFacts.

Module DurationTextExtras.
Import Sample DurationText DurationTextFacts.

(** X24.  The text written for a duration, [f'{d:.2f}s'], is always read
    back as a number by [float(text.replace('s', ''))]: the value is [d]
    rounded to two decimals, at most 0.005 away from [d]. *)
Theorem duration_text_round_trip :
  forall d : Q,
    exists v,
      read_duration (duration_text d) = Some v
      /\ (v == round2 d)%Q
      /\ (Qabs (v - d) <= 1 # 200)%Q.
Proof.
  intros d. destruct (read_duration_text d) as (v & Ev & Hv).
  exists v. split; [exact Ev|]. split; [exact Hv|].
  rewrite Hv. apply round2_error.
Qed.

End DurationTextExtras.

(** ** The report on muscle forces and activations *)

Module MuscleReportFacts.
Import Sample Report Muscle MuscleChecks DurationText DurationTextFacts.
Import MuscleReport.

Lemma read_metrics_ok (found : list (String.string * Interval fval)) :
  exists risks,
    read_metrics (map risk_entry found) = Ok risks
    /\ Forall2 (fun r m => risk_type r = fst m
                           /\ (duration_s r == round2 (duration (snd m)))%Q)
               risks found.
Proof.
  induction found as [|m found (risks & E & H)].
  - exists []. split; [reflexivity|constructor].
  - destruct (read_duration_text (duration (snd m))) as (v & Ev & Hv).
    exists (mkRisk (fst m) v :: risks). split.
    + cbn [map read_metrics risk_entry snd fst]. rewrite Ev, E. reflexivity.
    + constructor; [|exact H]. split; [reflexivity|exact Hv].
Qed.



Lemma generate_risk_report_exact_sum
      time_array ham_quad gastroc glute rectus body_weight :
  generate_risk_report time_array ham_quad gastroc glute rectus body_weight
  = generate_risk_report_with py_sum time_array ham_quad gastroc glute
                              rectus body_weight.
Proof.
  unfold generate_risk_report, generate_risk_report_with.
  destruct (calculate_injury_risks time_array ham_quad gastroc glute rectus
                                   body_weight) as [found|e];
    [|reflexivity].
  cbn [bind].
  destruct (read_metrics (map risk_entry found)) as [risks|e];
    [|reflexivity].
  cbn [bind]. now destruct risks.
Qed.

End MuscleReportFacts.

Module MuscleReportExtras.
Import Sample Report Muscle MuscleChecks DurationText DurationTextFacts.
Import MuscleReport MuscleReportFacts.

(** X25.  [generate_risk_report] returns a report exactly when
    [calculate_injury_risks] returns and the table has at least one row:
    reading the durations back never raises, and an empty index makes
    [forces_df.index[-1]] raise. *)
Theorem generate_risk_report_succeeds_iff :
  forall time_array ham_quad gastroc glute rectus body_weight,
    (exists rep,
        generate_risk_report time_array ham_quad gastroc glute rectus
                             body_weight = Ok rep)
    <-> ((exists found,
             calculate_injury_risks time_array ham_quad gastroc glute rectus
                                    body_weight = Ok found)
         /\ time_array <> []).
Proof.
  intros time hq ga gl re bw. unfold generate_risk_report. split.
  - intros (rep & E).
    destruct (calculate_injury_risks time hq ga gl re bw) as [found|e];
      [|discriminate].
    split; [now exists found|].
    intros ->. cbn [bind] in E.
    destruct (read_metrics (map risk_entry found)); discriminate.
  - intros ((found & ->) & Hne). cbn [bind].
    destruct (read_metrics_ok found) as (risks & -> & _).
    destruct time as [|t0 time]; [congruence|].
    eexists. reflexivity.
Qed.



End MuscleReportExtras.

(** ** Muscle forces at the times of a kinematic risk *)

Module MuscleLoadingFacts.
Import Sample Report JointAngle MuscleLoading PeakFacts ReportFacts.
Import JointPeakFacts.
Local Open Scope Q_scope.

Lemma nearest_sample_ok force_time t :
  force_time <> [] ->
  exists i ft,
    nearest_sample force_time t = Ok i
    /\ nth_error force_time i = Some ft
    /\ forall ft', In ft' force_time -> Qabs (ft - t) <= Qabs (ft' - t).
Proof.
  intros Hne. unfold nearest_sample, np_abs.
  destruct force_time as [|f0 force_time]; [congruence|].
  assert (E : exists i,
             np_argmin (map Qabs (map (fun ft => ft - t) (f0 :: force_time)))
             = Ok i) by (eexists; reflexivity).
  destruct E as (i & E). rewrite E.
  destruct (np_argmin_spec _ i E) as (m & Hm & Hlb & _).
  rewrite map_map in Hm, Hlb.
  rewrite nth_error_map in Hm.
  destruct (nth_error (f0 :: force_time) i) as [ft|] eqn:Hft;
    [|discriminate].
  injection Hm as <-.
  exists i, ft. split; [reflexivity|]. split; [exact Hft|].
  intros ft' Hin. apply Hlb.
  apply (in_map (fun x => Qabs (x - t))) in Hin. exact Hin.
Qed.

Lemma force_values_ok quad_force force_time :
  force_time <> [] -> length quad_force = length force_time ->
  forall risky_times,
    exists values,
      force_values quad_force force_time risky_times = Ok values
      /\ Forall2 (nearest_force quad_force force_time) risky_times values.
Proof.
  intros Hne Hlen. induction risky_times as [|t rest (vs & E & H)].
  - exists []. split; [reflexivity|constructor].
  - destruct (nearest_sample_ok force_time t Hne) as (i & ft & Ei & Hft & Hmin).
    assert (Hi : (i < length quad_force)%nat).
    { rewrite Hlen. apply nth_error_Some. congruence. }
    destruct (nth_error quad_force i) as [v|] eqn:Ev;
      [|apply nth_error_None in Ev; lia].
    exists (v :: vs). split.
    + cbn [force_values]. rewrite Ei. cbn [bind].
      unfold index. rewrite Ev. cbn [bind]. rewrite E. reflexivity.
    + constructor; [|exact H]. exists i, ft. auto.
Qed.

End MuscleLoadingFacts.

Module MuscleLoadingExtras.
Import Sample Report JointAngle MuscleLoading PeakFacts MuscleLoadingFacts.
Local Open Scope Q_scope.

(** X27.  With a force file that has a sample, a force for each of its time
    stamps, and at least one risky time, the muscle loading of a risk is
    computed without an exception: it has one force per risky time, each
    the force at a sample of the force file nearest in time to it, and the
    peak force is the largest of them. *)
Theorem muscle_loading_nearest_samples :
  forall quad_force force_time risky_times,
    force_time <> [] ->
    length quad_force = length force_time ->
    risky_times <> [] ->
    exists ml,
      muscle_loading quad_force force_time risky_times = Ok ml
      /\ Forall2 (nearest_force quad_force force_time)
                 risky_times (values_at_risk_times ml)
      /\ In (peak_force ml) (values_at_risk_times ml)
      /\ forall v, In v (values_at_risk_times ml) -> v <= peak_force ml.
Proof.
  intros quad_force force_time risky_times Hne Hlen Hr.
  destruct (force_values_ok quad_force force_time Hne Hlen risky_times)
    as (values & E & H).
  assert (Hv : values <> []).
  { intros ->. inversion H. congruence. }
  destruct (np_max_total values Hv) as (pk & Epk).
  exists (mkLoading pk values). unfold muscle_loading.
  rewrite E. cbn [bind]. rewrite Epk. cbn [bind].
  split; [reflexivity|]. split; [exact H|].
  exact (np_max_spec values pk Epk).
Qed.

Lemma muscle_loading_nearest_samples_witness :
  exists ml,
    muscle_loading [10; 20; 30] [0; 1; 2] [(4 # 10); (16 # 10)] = Ok ml
    /\ Forall2 (nearest_force [10; 20; 30] [0; 1; 2])
               [(4 # 10); (16 # 10)] (values_at_risk_times ml)
    /\ In (peak_force ml) (values_at_risk_times ml)
    /\ forall v, In v (values_at_risk_times ml) -> v <= peak_force ml.
Proof.
  apply muscle_loading_nearest_samples.
  - discriminate.
  - reflexivity.
  - discriminate.
Defined.

End MuscleLoadingExtras.
